(** * cohere-api: the stream resolver and the payload builder

    A shallow embedding of package [cohere]: [resolve], [makePayload],
    [Reply], [New] and the setters of the builder, and [MergeMessages]
    (both revisions of the file: the first revision, chat.go, inside
    [Module chat_v1], the revision with tool calls inside [Module chat_v2]),
    together with the parts of the Go runtime they run on: [io.Reader] as the
    response body, [bufio.Reader.ReadLine], channels with deferred calls,
    [encoding/json]. *)

From Stdlib Require Import ZArith List Ascii String Bool Lia SpecFloat.
From stdpp Require Import base gmap strings list.
Import ListNotations.

Open Scope string_scope.
Open Scope list_scope.
Open Scope nat_scope.

(** ** Bytes and strings

    A Go [[]byte] is a [list ascii] (one [ascii] per byte), a Go [string] a
    Rocq [string]; [string(b)] copies the bytes. *)

Abbreviation bytes := (list ascii).

Definition LF : ascii := "010"%char.
Definition CR : ascii := "013"%char.

(** [bytes.IndexByte(s, c)]: index of the first [c] in [s]; [None] is Go's -1. *)
Fixpoint IndexByte (s : bytes) (c : ascii) : option nat :=
  match s with
  | [] => None
  | x :: s' => if Ascii.eqb x c then Some 0 else option_map S (IndexByte s' c)
  end.

(** ** Errors *)

Module io.

(** The error values that reach [resolve]. The sentinels are compared by
    identity in Go ([err != io.EOF]); any other error is [Err] with its
    [Error()] text, so that [Err "EOF"] is not [EOF]. *)
Inductive error : Type :=
| EOF
| ErrNoProgress
| Err (msg : string).

Definition Error (e : error) : string :=
  match e with
  | EOF => "EOF"
  | ErrNoProgress => "multiple Read calls return no data or error"
  | Err msg => msg
  end.

Definition is_EOF (e : error) : bool :=
  match e with EOF => true | _ => false end.

(** The response body as an [io.Reader]: the bytes still to come, in the
    chunks in which the transport delivers them, and the error that every
    [Read] past the last byte returns ([EOF] for a clean end).  [Read] may
    report that error together with the last bytes ([n > 0, err != nil])
    or only on the following call ([0, err]); [io.Reader] allows both and
    [eager] says which one this body does. *)
Record Body : Type := mkBody {
  chunks : list bytes;
  final : error;
  eager : bool
}.

(** [rd.Read(p)] with [len(p) = n]: at most [n] bytes of the current chunk. *)
Definition Read (b : Body) (n : nat) : bytes * option error * Body :=
  match chunks b with
  | [] => ([], Some (final b), b)
  | c :: cs =>
      if length c <=? n
      then (c,
            (if eager b && (match cs with [] => true | _ => false end)
             then Some (final b) else None),
            mkBody cs (final b) (eager b))
      else (take n c, None, mkBody (drop n c :: cs) (final b) (eager b))
  end.

End io.

(** ** bufio.Reader *)

Module bufio.
Import io.

Definition defaultBufSize : nat := 4096.
Definition minReadBufferSize : nat := 16.
Definition maxConsecutiveEmptyReads : nat := 100.

(** [window] is the unread part [b.buf[b.r:b.w]] of the buffer and [size]
    is [len(b.buf)]; [fill] slides the unread part to the front before it
    reads, so the free space is always [size - length window]. *)
Record Reader : Type := mkReader {
  rd : Body;
  size : nat;
  window : bytes;
  err : option error
}.

Definition NewReaderSize (rd : Body) (size : nat) : Reader :=
  mkReader rd (if size <? minReadBufferSize then minReadBufferSize else size)
           [] None.

Definition NewReader (rd : Body) : Reader := NewReaderSize rd defaultBufSize.

(** The read loop of [fill]: [for i := maxConsecutiveEmptyReads; i > 0; i--]. *)
Fixpoint fill_loop (i : nat) (b : Reader) : Reader :=
  match i with
  | O => mkReader (rd b) (size b) (window b) (Some ErrNoProgress)
  | S i' =>
      let '(p, e, rd') := Read (rd b) (size b - length (window b)) in
      let w := window b ++ p in
      match e with
      | Some e => mkReader rd' (size b) w (Some e)
      | None =>
          if 0 <? length p then mkReader rd' (size b) w (err b)
          else fill_loop i' (mkReader rd' (size b) w (err b))
      end
  end.

(** [fill] panics on a full buffer; [ReadSlice], its only caller here,
    returns [ErrBufferFull] before it would call it on one. *)
Definition fill (b : Reader) : Reader := fill_loop maxConsecutiveEmptyReads b.

(** The [err] result of [ReadSlice]: [nil], bufio's own [ErrBufferFull],
    or the error of the underlying reader (a response body never returns
    bufio's sentinel, which the types say). *)
Inductive slice_error : Type :=
| NoError
| ErrBufferFull
| ReadError (e : error).

(** The loop of [ReadSlice]; [s] is the search start index. Every pass that
    does not return calls [fill], which adds a byte or sets [err], so
    [size + 2] passes always suffice ([ReadSlice_returns] below). *)
Fixpoint ReadSlice_loop (fuel : nat) (delim : ascii) (s : nat) (b : Reader)
  : option (bytes * slice_error * Reader) :=
  match fuel with
  | O => None
  | S fuel' =>
      match IndexByte (drop s (window b)) delim with
      | Some i =>
          let i := i + s in
          Some (take (i + 1) (window b), NoError,
                mkReader (rd b) (size b) (drop (i + 1) (window b)) (err b))
      | None =>
          match err b with
          | Some e =>
              Some (window b, ReadError e, mkReader (rd b) (size b) [] None)
          | None =>
              if size b <=? length (window b)
              then Some (window b, ErrBufferFull,
                         mkReader (rd b) (size b) [] None)
              else ReadSlice_loop fuel' delim (length (window b)) (fill b)
          end
      end
  end.

Definition ReadSlice (b : Reader) (delim : ascii)
  : option (bytes * slice_error * Reader) :=
  ReadSlice_loop (size b + 2) delim 0 b.

(** [line[len(line)-1]] of a non-empty slice. *)
Definition last_byte (line : bytes) : option ascii := last line.

(** The end of [ReadLine]: a final LF is dropped, and a CR before it. *)
Definition drop_eol (line : bytes) : bytes :=
  match last_byte line with
  | Some c =>
      if Ascii.eqb c LF then
        let line1 := removelast line in
        match last_byte line1 with
        | Some c' => if Ascii.eqb c' CR then removelast line1 else line1
        | None => line1
        end
      else line
  | None => line
  end.

(** [ReadLine]: the line without its end-of-line bytes, [isPrefix] when the
    line did not fit the buffer, and the error (only with an empty line). *)
Definition ReadLine (b : Reader) : option (bytes * bool * option error * Reader) :=
  match ReadSlice b LF with
  | None => None
  | Some (line, e, b') =>
      match e with
      | ErrBufferFull =>
          (* a CR at the end of a full buffer is put back: it may be the
             first half of a CR LF *)
          match last_byte line with
          | Some c =>
              if Ascii.eqb c CR
              then Some (removelast line, true, None,
                         mkReader (rd b') (size b') (CR :: window b') (err b'))
              else Some (line, true, None, b')
          | None => Some (line, true, None, b')
          end
      | _ =>
          match line with
          | [] =>
              Some ([], false,
                    match e with ReadError e => Some e | _ => None end, b')
          | _ => Some (drop_eol line, false, None, b')
          end
      end
  end.

End bufio.

(** ** encoding/json

    [Unmarshal] into the fields of an event block and [Marshal] of the
    tool-call payload, after the package's scanner and decoder: the input is
    checked as a whole first ([checkValid]), then bound to the fields.
    A number keeps its literal (as under [Decoder.UseNumber]): the float64
    round trip of the payload's numbers is outside this model. *)

Module json.
Import io.

(** A Go [interface{}] as [Unmarshal] fills it and [Marshal] reads it. *)
#[local] Unset Elimination Schemes.
Inductive any : Type :=
| Null
| Bool (b : bool)
| Number (lit : string)
| String (s : string)
| Array (l : list any)
| Object (kvs : list (string * any)).
#[local] Set Elimination Schemes.

(** A call that returns a value and an [error]: [Fail e] is [err != nil]. *)
Inductive result (A : Type) : Type :=
| Ok (a : A)
| Fail (e : error).
Arguments Ok {A} a.
Arguments Fail {A} e.

#[export] Instance result_ret : MRet result := @Ok.
#[export] Instance result_bind : MBind result :=
  fun A B k r => match r with Ok a => k a | Fail e => Fail e end.

Definition dquote : ascii := "034"%char.

Definition code (c : ascii) : N := N_of_ascii c.
Definition byte (n : N) : ascii := ascii_of_N n.

Definition between (lo n hi : N) : bool := ((lo <=? n) && (n <=? hi))%N.

(** *** Error texts *)

Definition hexdigit (n : N) : ascii :=
  if (n <? 10)%N then byte (48 + n) else byte (87 + n).

Definition hex2 (n : N) : string :=
  string_of_list_ascii [hexdigit (n / 16); hexdigit (n mod 16)].

(** [quoteChar]: the offending byte as the scanner's errors show it. *)
Definition quoteChar (c : ascii) : string :=
  let n := code c in
  if Ascii.eqb c "'" then "'\''"
  else if Ascii.eqb c dquote then string_of_list_ascii ["'"%char; dquote; "'"%char]
  else
    "'" +:+
    (if (n =? 7)%N then "\a" else if (n =? 8)%N then "\b"
     else if (n =? 12)%N then "\f" else if (n =? 10)%N then "\n"
     else if (n =? 13)%N then "\r" else if (n =? 9)%N then "\t"
     else if (n =? 11)%N then "\v" else if (n =? 92)%N then "\\"
     else if (n <? 32)%N || (n =? 127)%N then "\x" +:+ hex2 n
     else if (n <? 128)%N then string_of_list_ascii [c]
     else if (n <=? 160)%N || (n =? 173)%N then "\u00" +:+ hex2 n
     else string_of_list_ascii [byte (192 + n / 64); byte (128 + n mod 64)])
    +:+ "'".

Definition unexpected_end : error := Err "unexpected end of JSON input".

Definition invalid_character (c : ascii) (context : string) : error :=
  Err ("invalid character " +:+ quoteChar c +:+ " " +:+ context).

Definition maxNestingDepth : nat := 100 * 100.

(** *** The scanner *)

Definition isSpace (c : ascii) : bool :=
  match c with
  | " "%char | "009"%char | "013"%char | "010"%char => true
  | _ => false
  end.

Fixpoint skipSpace (s : bytes) : bytes :=
  match s with
  | c :: s' => if isSpace c then skipSpace s' else s
  | [] => []
  end.

Definition isDigit (c : ascii) : bool := between 48 (code c) 57.

Definition hexval (c : ascii) : option N :=
  let n := code c in
  if between 48 n 57 then Some (n - 48)%N
  else if between 97 n 102 then Some (n - 87)%N
  else if between 65 n 70 then Some (n - 55)%N
  else None.

(** The digits at the front of [s], and the rest. *)
Fixpoint digits (s : bytes) : bytes * bytes :=
  match s with
  | c :: s' =>
      if isDigit c then let '(d, r) := digits s' in (c :: d, r) else ([], s)
  | [] => ([], [])
  end.

(** The parts of a numeric literal, each with the rest after it: the
    integer part, the fraction if there is one, the exponent if there is
    one. *)
Definition number_int (s : bytes) : result (bytes * bytes) :=
  match s with
  | [] => Fail unexpected_end
  | c :: s' =>
      if Ascii.eqb c "0" then Ok ([c], s')
      else if isDigit c then let '(d, r) := digits s' in Ok (c :: d, r)
      else Fail (invalid_character c "in numeric literal")
  end.

Definition number_frac (s : bytes) : result (bytes * bytes) :=
  match s with
  | p :: s' =>
      if Ascii.eqb p "." then
        match s' with
        | [] => Fail unexpected_end
        | c :: _ =>
            if isDigit c then let '(d, r) := digits s' in Ok (p :: d, r)
            else Fail (invalid_character c
                         "after decimal point in numeric literal")
        end
      else Ok ([], s)
  | [] => Ok ([], s)
  end.

Definition number_exp (s : bytes) : result (bytes * bytes) :=
  match s with
  | c :: s' =>
      if Ascii.eqb c "e" || Ascii.eqb c "E" then
        let '(esign, s'') :=
          match s' with
          | c' :: t =>
              if Ascii.eqb c' "+" || Ascii.eqb c' "-" then ([c'], t)
              else ([], s')
          | [] => ([], s')
          end in
        match s'' with
        | [] => Fail unexpected_end
        | c' :: _ =>
            if isDigit c' then
              let '(d, r) := digits s'' in Ok (c :: esign ++ d, r)
            else Fail (invalid_character c' "in exponent of numeric literal")
        end
      else Ok ([], s)
  | [] => Ok ([], s)
  end.

(** A numeric literal at the front of [s] (which starts with '-' or a
    digit): the literal and the rest. *)
Definition number (s : bytes) : result (bytes * bytes) :=
  let '(sign, s) :=
    match s with
    | c :: s' => if Ascii.eqb c "-" then ([c], s') else ([], s)
    | [] => ([], s)
    end in
  '(int, s) ← number_int s;
  '(frac, s) ← number_frac s;
  '(exp, s) ← number_exp s;
  Ok (sign ++ int ++ frac ++ exp, s).

(** The rest of a literal name after its first byte: [name] is the whole
    name, [expect] what is still to come. *)
Fixpoint literal (name : string) (expect : bytes) (s : bytes) : result bytes :=
  match expect with
  | [] => Ok s
  | e :: expect' =>
      match s with
      | [] => Fail unexpected_end
      | c :: s' =>
          if Ascii.eqb c e then literal name expect' s'
          else Fail (invalid_character c
                       ("in literal " +:+ name +:+ " (expecting '"
                        +:+ string_of_list_ascii [e] +:+ "')"))
      end
  end.

(** What a string literal is made of: a byte as it stands, or the UTF-16
    code unit of a [\u] escape. *)
Inductive piece : Type :=
| Raw (c : ascii)
| Unit16 (u : N).

(** A string literal after its opening quote: its pieces, and the rest
    after the closing quote. *)
Fixpoint string_literal (s : bytes) : result (list piece * bytes) :=
  match s with
  | [] => Fail unexpected_end
  | c :: s1 =>
      if Ascii.eqb c dquote then Ok ([], s1)
      else if Ascii.eqb c "\" then
        match s1 with
        | [] => Fail unexpected_end
        | e :: s2 =>
            let simple (b : N) :=
              '(ps, r) ← string_literal s2; Ok (Raw (byte b) :: ps, r) in
            let bad_hex (h : ascii) : result (list piece * bytes) :=
              Fail (invalid_character h "in \u hexadecimal character escape") in
            if Ascii.eqb e dquote then simple 34%N
            else if Ascii.eqb e "\" then simple 92%N
            else if Ascii.eqb e "/" then simple 47%N
            else if Ascii.eqb e "b" then simple 8%N
            else if Ascii.eqb e "f" then simple 12%N
            else if Ascii.eqb e "n" then simple 10%N
            else if Ascii.eqb e "r" then simple 13%N
            else if Ascii.eqb e "t" then simple 9%N
            else if Ascii.eqb e "u" then
              match s2 with
              | [] => Fail unexpected_end
              | h1 :: t1 =>
                  match hexval h1, t1 with
                  | None, _ => bad_hex h1
                  | Some _, [] => Fail unexpected_end
                  | Some a, h2 :: t2 =>
                      match hexval h2, t2 with
                      | None, _ => bad_hex h2
                      | Some _, [] => Fail unexpected_end
                      | Some b, h3 :: t3 =>
                          match hexval h3, t3 with
                          | None, _ => bad_hex h3
                          | Some _, [] => Fail unexpected_end
                          | Some c, h4 :: s3 =>
                              match hexval h4 with
                              | None => bad_hex h4
                              | Some d =>
                                  '(ps, r) ← string_literal s3;
                                  Ok (Unit16 (((a * 16 + b) * 16 + c) * 16 + d)%N
                                        :: ps, r)
                              end
                          end
                      end
                  end
              end
            else Fail (invalid_character e "in string escape code")
        end
      else if (code c <? 32)%N
      then Fail (invalid_character c "in string literal")
      else '(ps, r) ← string_literal s1; Ok (Raw c :: ps, r)
  end.

(** [utf8.EncodeRune] *)
Definition EncodeRune (r : N) : bytes :=
  (if r <? 128 then [byte r]
   else if r <? 2048 then [byte (192 + r / 64); byte (128 + r mod 64)]
   else if r <? 65536 then
     [byte (224 + r / 4096); byte (128 + (r / 64) mod 64); byte (128 + r mod 64)]
   else
     [byte (240 + r / 262144); byte (128 + (r / 4096) mod 64);
      byte (128 + (r / 64) mod 64); byte (128 + r mod 64)])%N.

Definition RuneError : N := 65533.

Definition isSurrogate (u : N) : bool := between 55296 u 57343.

(** The pieces as bytes: a pair of surrogates is one rune, a surrogate
    alone is [RuneError]. *)
Fixpoint unquote (ps : list piece) : bytes :=
  match ps with
  | [] => []
  | Raw c :: ps' => c :: unquote ps'
  | Unit16 u :: ps' =>
      if isSurrogate u then
        match ps' with
        | Unit16 v :: ps'' =>
            if between 55296 u 56319 && between 56320 v 57343
            then EncodeRune (65536 + (u - 55296) * 1024 + (v - 56320))%N
                 ++ unquote ps''
            else EncodeRune RuneError ++ unquote ps'
        | _ => EncodeRune RuneError ++ unquote ps'
        end
      else EncodeRune u ++ unquote ps'
  end.

(** Width of the UTF-8 encoding at the front of [s]; [0] when it is not
    valid ([utf8.DecodeRune] returns [RuneError] and width 1 there). *)
Definition rune_width (s : bytes) : nat :=
  let cont (c : ascii) := between 128 (code c) 191 in
  match s with
  | [] => 0
  | c0 :: s1 =>
      let n := code c0 in
      if (n <? 128)%N then 1
      else if (n <? 194)%N then 0
      else if (n <? 224)%N then
        match s1 with
        | c1 :: _ => if cont c1 then 2 else 0
        | _ => 0
        end
      else if (n <? 240)%N then
        match s1 with
        | c1 :: c2 :: _ =>
            let lo := if (n =? 224)%N then 160%N else 128%N in
            let hi := if (n =? 237)%N then 159%N else 191%N in
            if between lo (code c1) hi && cont c2 then 3 else 0
        | _ => 0
        end
      else if (n <? 245)%N then
        match s1 with
        | c1 :: c2 :: c3 :: _ =>
            let lo := if (n =? 240)%N then 144%N else 128%N in
            let hi := if (n =? 244)%N then 143%N else 191%N in
            if between lo (code c1) hi && cont c2 && cont c3 then 4 else 0
        | _ => 0
        end
      else 0
  end.

(** Invalid UTF-8 becomes [RuneError], byte by byte; [fuel] is the length. *)
Fixpoint toValidUTF8 (fuel : nat) (s : bytes) : bytes :=
  match fuel, s with
  | S fuel', _ :: s1 =>
      match rune_width s with
      | O => EncodeRune RuneError ++ toValidUTF8 fuel' s1
      | n => take n s ++ toValidUTF8 fuel' (drop n s)
      end
  | _, _ => []
  end.

(** The Go string of a string literal. *)
Definition string_value (ps : list piece) : string :=
  let b := unquote ps in string_of_list_ascii (toValidUTF8 (length b) b).

(** The scanner has no step left (this does not happen, see
    [scan_steps]). *)
Definition out_of_steps : error := Err "json: scanner out of steps".

(** One JSON value at the front of [s], under [depth] open arrays and
    objects: the value as the scanner reads it (an object keeps every
    member, in order) and the rest. Every call takes a byte or ends, so
    [fuel] twice the length of the input is never used up. *)
Fixpoint value (fuel depth : nat) (s : bytes) : result (any * bytes) :=
  match fuel with
  | O => Fail out_of_steps
  | S fuel' =>
      match skipSpace s with
      | [] => Fail unexpected_end
      | c :: s1 =>
          if Ascii.eqb c "{" then
            if maxNestingDepth <=? depth then Fail (Err "exceeded max depth")
            else
              match skipSpace s1 with
              | [] => Fail unexpected_end
              | c' :: s2 =>
                  if Ascii.eqb c' "}" then Ok (Object [], s2)
                  else
                    '(kvs, r) ← members fuel' (S depth) s1;
                    Ok (Object kvs, r)
              end
          else if Ascii.eqb c "[" then
            if maxNestingDepth <=? depth then Fail (Err "exceeded max depth")
            else
              match skipSpace s1 with
              | [] => Fail unexpected_end
              | c' :: s2 =>
                  if Ascii.eqb c' "]" then Ok (Array [], s2)
                  else
                    '(l, r) ← elements fuel' (S depth) s1;
                    Ok (Array l, r)
              end
          else if Ascii.eqb c dquote then
            '(ps, r) ← string_literal s1; Ok (String (string_value ps), r)
          else if Ascii.eqb c "t" then
            r ← literal "true" (list_ascii_of_string "rue") s1;
            Ok (Bool true, r)
          else if Ascii.eqb c "f" then
            r ← literal "false" (list_ascii_of_string "alse") s1;
            Ok (Bool false, r)
          else if Ascii.eqb c "n" then
            r ← literal "null" (list_ascii_of_string "ull") s1;
            Ok (Null, r)
          else if Ascii.eqb c "-" || isDigit c then
            '(lit, r) ← number (c :: s1);
            Ok (Number (string_of_list_ascii lit), r)
          else Fail (invalid_character c "looking for beginning of value")
      end
  end

(** The elements of an array after '[' or ',', up to and with its ']'. *)
with elements (fuel depth : nat) (s : bytes) : result (list any * bytes) :=
  match fuel with
  | O => Fail out_of_steps
  | S fuel' =>
      '(v, r) ← value fuel' depth s;
      match skipSpace r with
      | [] => Fail unexpected_end
      | c :: r1 =>
          if Ascii.eqb c "," then
            '(l, r2) ← elements fuel' depth r1; Ok (v :: l, r2)
          else if Ascii.eqb c "]" then Ok ([v], r1)
          else Fail (invalid_character c "after array element")
      end
  end

(** The members of an object after '{' or ',', up to and with its '}'. *)
with members (fuel depth : nat) (s : bytes)
  : result (list (string * any) * bytes) :=
  match fuel with
  | O => Fail out_of_steps
  | S fuel' =>
      match skipSpace s with
      | [] => Fail unexpected_end
      | q :: s1 =>
          if Ascii.eqb q dquote then
            '(ps, r) ← string_literal s1;
            match skipSpace r with
            | [] => Fail unexpected_end
            | c :: r1 =>
                if Ascii.eqb c ":" then
                  '(v, r2) ← value fuel' depth r1;
                  match skipSpace r2 with
                  | [] => Fail unexpected_end
                  | c' :: r3 =>
                      if Ascii.eqb c' "," then
                        '(kvs, r4) ← members fuel' depth r3;
                        Ok ((string_value ps, v) :: kvs, r4)
                      else if Ascii.eqb c' "}" then
                        Ok ([(string_value ps, v)], r3)
                      else Fail (invalid_character c'
                                   "after object key:value pair")
                  end
                else Fail (invalid_character c "after object key")
            end
          else Fail (invalid_character q
                       "looking for beginning of object key string")
      end
  end.

(** [checkValid] and the scan of the one top-level value. *)
Definition scan (data : bytes) : result any :=
  '(v, r) ← value (2 * length data + 1) 0 data;
  match skipSpace r with
  | [] => Ok v
  | c :: _ => Fail (invalid_character c "after top-level value")
  end.

(** *** Values as [interface{}] *)

(** [m[key] = v] on the members decoded so far. *)
Fixpoint map_set (k : string) (v : any) (m : list (string * any))
  : list (string * any) :=
  match m with
  | [] => [(k, v)]
  | (k', v') :: m' =>
      if String.eqb k k' then (k, v) :: m' else (k', v') :: map_set k v m'
  end.

(** A scanned value as the [interface{}] the decoder builds: an object is
    a map, in which a later member replaces an earlier one of its key. *)
Fixpoint valueInterface (v : any) : any :=
  match v with
  | Array l => Array (map valueInterface l)
  | Object kvs =>
      Object (fold_left (fun m '(k, v') => map_set k (valueInterface v') m)
                        kvs [])
  | _ => v
  end.

(** *** Field names *)

(** [foldName]: ASCII letters in upper case, and the two runes that fold
    to an ASCII letter (U+017F to S, U+212A to K). *)
Fixpoint foldName (s : bytes) : bytes :=
  match s with
  | [] => []
  | c :: s' =>
      let n := code c in
      if between 97 n 122 then byte (n - 32) :: foldName s'
      else
        match s with
        | "197"%char :: "191"%char :: s'' => "S"%char :: foldName s''
        | "226"%char :: "132"%char :: "170"%char :: s'' => "K"%char :: foldName s''
        | _ => c :: foldName s'
        end
  end.

Definition fold (s : string) : string :=
  string_of_list_ascii (foldName (list_ascii_of_string s)).

(** The field a key names: the one of that name, else the first with the
    same folded name. *)
Definition field_of (names : list string) (key : string) : option string :=
  match find (String.eqb key) names with
  | Some f => Some f
  | None => find (fun f => String.eqb (fold f) (fold key)) names
  end.

(** The [Value] of an [UnmarshalTypeError]. *)
Definition kind (v : any) : string :=
  match v with
  | Null => "null"
  | Bool _ => "bool"
  | Number _ => "number"
  | String _ => "string"
  | Array _ => "array"
  | Object _ => "object"
  end.

Definition UnmarshalTypeError (v : any) (struct field type : string) : error :=
  Err ("json: cannot unmarshal " +:+ kind v +:+ " into Go struct field "
       +:+ struct +:+ "." +:+ field +:+ " of type " +:+ type).

Definition UnmarshalTypeError_top (v : any) (type : string) : error :=
  Err ("json: cannot unmarshal " +:+ kind v +:+ " into Go value of type "
       +:+ type).

(** *** Marshal *)

(** A string as [Marshal] writes it, HTML characters escaped. *)
Fixpoint appendString (s : bytes) : bytes :=
  match s with
  | [] => []
  | "226"%char :: "128"%char :: "168"%char :: s' =>
      list_ascii_of_string " " ++ appendString s'
  | "226"%char :: "128"%char :: "169"%char :: s' =>
      list_ascii_of_string " " ++ appendString s'
  | c :: s' =>
      let n := code c in
      (if Ascii.eqb c dquote then ["\"%char; dquote]
       else if Ascii.eqb c "\" then list_ascii_of_string "\\"
       else if (n =? 8)%N then list_ascii_of_string "\b"
       else if (n =? 12)%N then list_ascii_of_string "\f"
       else if (n =? 10)%N then list_ascii_of_string "\n"
       else if (n =? 13)%N then list_ascii_of_string "\r"
       else if (n =? 9)%N then list_ascii_of_string "\t"
       else if (n <? 32)%N || Ascii.eqb c "<" || Ascii.eqb c ">"
               || Ascii.eqb c "&"
       then list_ascii_of_string ("\u00" +:+ hex2 n)
       else [c]) ++ appendString s'
  end.

Definition quoted (s : string) : bytes :=
  dquote :: appendString (list_ascii_of_string s) ++ [dquote].

(** Map keys are written in sorted order. *)
Fixpoint insert_sorted {A : Type} (kv : string * A) (l : list (string * A))
  : list (string * A) :=
  match l with
  | [] => [kv]
  | kv' :: l' =>
      if String.leb (fst kv) (fst kv') then kv :: l
      else kv' :: insert_sorted kv l'
  end.

Definition sort_keys {A : Type} (l : list (string * A)) : list (string * A) :=
  fold_right insert_sorted [] l.

Definition comma_separated (items : list bytes) : bytes :=
  match items with
  | [] => []
  | x :: xs => x ++ concat (map (fun y => ","%char :: y) xs)
  end.

(** The compact encoding of a value. *)
Fixpoint encode (v : any) : bytes :=
  match v with
  | Null => list_ascii_of_string "null"
  | Bool true => list_ascii_of_string "true"
  | Bool false => list_ascii_of_string "false"
  | Number lit => list_ascii_of_string lit
  | String s => quoted s
  | Array l => "["%char :: comma_separated (map encode l) ++ ["]"%char]
  | Object kvs =>
      "{"%char ::
      comma_separated
        (map (fun '(k, e) => quoted k ++ ":"%char :: e)
             (sort_keys (map (fun '(k, v) => (k, encode v)) kvs)))
      ++ ["}"%char]
  end.

(** [json.Marshal] of a [[]interface{}]: [null] for the nil slice. No value
    that [Unmarshal] builds makes it fail. *)
Definition Marshal (v : option (list any)) : result bytes :=
  match v with
  | None => Ok (list_ascii_of_string "null")
  | Some l => Ok (encode (Array l))
  end.

End json.

(** ** The goroutine's effects

    What [resolve] does to the outside, in order: a send on the output
    channel, [close(ch)], [response.Body.Close()]. The consumer is taken to
    receive every send; a send that blocks for ever is not modelled. *)

Inductive effect : Type :=
| Send (msg : string)
| CloseChan
| CloseBody.

(** The strings a consumer receives: the sends of a trace, in order. *)
Fixpoint sends (tr : list effect) : list string :=
  match tr with
  | [] => []
  | Send msg :: tr' => msg :: sends tr'
  | _ :: tr' => sends tr'
  end.

(** How one pass of the [for] loop ends: [continue] (or the end of the loop
    body) with the reader and the accumulation buffer it leaves, or [return]. *)
Inductive control : Type :=
| Continue (r : bufio.Reader) (buf : bytes)
| Return.

(** [return] runs the deferred calls, last deferred first; [defers] is the
    stack with the last [defer] at its head. *)
Definition run_deferred (defers : list effect) (body_trace : list effect)
  : list effect := body_trace ++ defers.

(** [fmt.Sprintf("error: %v", err)] *)
Definition error_event (e : io.error) : string := "error: " +:+ io.Error e.

(** Bytes that the body still holds, a bound on the passes of the loop. *)
Definition pending (b : io.Body) : nat := length (concat (io.chunks b)).

(** ** The HTTP response

    What [Reply] and [resolve] use of an [*http.Response]. *)

Module http.

Record Response : Type := mkResponse {
  StatusCode : Z;
  Status : string;
  Body : io.Body
}.

Definition MethodPost : string := "POST".
Definition StatusOK : Z := 200.

End http.

(** ** The revision with tool calls *)

Module chat_v2.
Import io bufio json.

Record block : Type := mkBlock {
  Finished : bool;
  Event : string;
  Id : string;
  Text : string;
  Reason : string;
  ToolCalls : option (list any)   (* [None] is the nil slice *)
}.

Section Resolve.
(** [json.Unmarshal(data, &b)] on a zero [block], and
    [json.Marshal(b.ToolCalls)]. *)
Variable json_Unmarshal : bytes -> result block.
Variable json_Marshal : option (list any) -> result bytes.

(** One pass of the [for] loop of [resolve]: the strings sent on [ch]
    and how the pass ends. *)
Definition iteration (r : Reader) (buf : bytes)
  : option (list string * control) :=
  match ReadLine r with
  | None => None
  | Some (line, prefix, err, r) =>
      let buf := buf ++ line in
      match err with
      | Some err =>
          let e_out := if is_EOF err then [] else [error_event err] in
          let str := string_of_list_ascii buf in
          let t_out :=
            if 0 <? String.length str then ["text: " +:+ str] else [] in
          Some (e_out ++ t_out, Return)
      | None =>
          if prefix then Some ([], Continue r buf)
          else
            match json_Unmarshal buf with
            | Fail err => Some ([error_event err], Return)
            | Ok b =>
                let buf : bytes := [] in
                if Finished b then Some ([], Return)
                else if String.eqb (Event b) "text-generation"
                then Some (["text: " +:+ Text b], Continue r buf)
                else if String.eqb (Event b) "tool-calls-generation"
                then
                  match json_Marshal (ToolCalls b) with
                  | Fail e => Some ([error_event e], Return)
                  | Ok marshal =>
                      Some (["tool: " +:+ string_of_list_ascii marshal],
                            Continue r buf)
                  end
                else Some ([], Continue r buf)
            end
      end
  end.

(** The [for] loop: passes until one returns. *)
Fixpoint loop (fuel : nat) (r : Reader) (buf : bytes)
  : option (list string) :=
  match fuel with
  | O => None
  | S fuel' =>
      match iteration r buf with
      | None => None
      | Some (out, Return) => Some out
      | Some (out, Continue r' buf') =>
          option_map (app out) (loop fuel' r' buf')
      end
  end.

(** [resolve(ch, response)]: the two [defer]s, then the loop over a new
    [bufio.Reader]. Every pass but the last takes at least one byte from
    the body, which bounds the passes. *)
Definition resolve (response_Body : Body) : option (list effect) :=
  let defers := [] in
  let defers := CloseChan :: defers in
  let defers := CloseBody :: defers in
  let r := NewReader response_Body in
  option_map (fun out => run_deferred defers (map Send out))
             (loop (S (pending response_Body)) r []).

End Resolve.

(** [json.Unmarshal(data, &b)] for a zero [block]: the first value that
    does not fit its field is the error returned, after all members have
    been read. *)
Definition field_names : list string :=
  ["is_finished"; "event_type"; "generation_id"; "text"; "finish_reason";
   "tool_calls"].

Definition set_field (st : block * option error) (member : string * any)
  : block * option error :=
  let '(b, saved) := st in
  let '(key, v) := member in
  let mismatch (field type : string) :=
    (b, match saved with
        | Some e => Some e
        | None => Some (UnmarshalTypeError v "block" field type)
        end) in
  let str (field : string) (set : string -> block) :=
    match v with
    | String s => (set s, saved)
    | Null => st
    | _ => mismatch field "string"
    end in
  match field_of field_names key with
  | None => st
  | Some f =>
      if String.eqb f "is_finished" then
        match v with
        | Bool x =>
            (mkBlock x (Event b) (Id b) (Text b) (Reason b) (ToolCalls b), saved)
        | Null => st
        | _ => mismatch f "bool"
        end
      else if String.eqb f "event_type" then
        str f (fun s =>
          mkBlock (Finished b) s (Id b) (Text b) (Reason b) (ToolCalls b))
      else if String.eqb f "generation_id" then
        str f (fun s =>
          mkBlock (Finished b) (Event b) s (Text b) (Reason b) (ToolCalls b))
      else if String.eqb f "text" then
        str f (fun s =>
          mkBlock (Finished b) (Event b) (Id b) s (Reason b) (ToolCalls b))
      else if String.eqb f "finish_reason" then
        str f (fun s =>
          mkBlock (Finished b) (Event b) (Id b) (Text b) s (ToolCalls b))
      else
        match v with
        | Array l =>
            (mkBlock (Finished b) (Event b) (Id b) (Text b) (Reason b)
                     (Some (map valueInterface l)), saved)
        | Null =>
            (mkBlock (Finished b) (Event b) (Id b) (Text b) (Reason b) None,
             saved)
        | _ => mismatch f "[]interface {}"
        end
  end.

Definition zero_block : block := mkBlock false "" "" "" "" None.

Definition Unmarshal (data : bytes) : result block :=
  v ← scan data;
  match v with
  | Object members =>
      match fold_left set_field members (zero_block, None) with
      | (b, None) => Ok b
      | (_, Some e) => Fail e
      end
  | Null => Ok zero_block
  | _ => Fail (UnmarshalTypeError_top v "cohere.block")
  end.

(** *** The payload builder *)

Abbreviation float32 := spec_float.

(** The constant [0.95] as a float32: 15938355 * 2^-24. *)
Definition f32_0_95 : float32 := S754_finite false 15938355 (-24).

Record Message : Type := mkMessage {
  Role : string;
  Message_ : string
}.

Record ToolCall : Type := mkToolCall {
  Name : string;
  Description : string;
  Param : gmap string any
}.

Record ToolResult : Type := mkToolResult {
  Call : any;
  Outputs : list any
}.

Record ToolObject : Type := mkToolObject {
  Tools : list ToolCall;
  Results : list ToolResult
}.

Record Chat : Type := mkChat {
  temperature : float32;
  maxTokens : Z;
  model : string;
  seed : Z;
  token : string;
  proxies : string;
  isChat : bool;
  stopSequences : list string;
  topK : Z;
  safety : string;
  client : option nat   (* the [*emit.Session], [None] for nil *)
}.

Definition New (token : string) (temperature : float32) (model : string)
    (isChat : bool) : Chat :=
  mkChat temperature 4096 model (-1) token "" isChat [] 40 "" None.

(** A value of the payload map, a [map[string]interface{}]. *)
Inductive pvalue : Type :=
| VMessages (l : list Message)
| VStrings (l : list string)
| VString (s : string)
| VBool (b : bool)
| VFloat32 (f : float32)
| VInt (n : Z)
| VTools (l : list ToolCall)
| VResults (l : list ToolResult).

Definition set_temperature (c : Chat) (t : float32) : Chat :=
  mkChat t (maxTokens c) (model c) (seed c) (token c) (proxies c) (isChat c)
         (stopSequences c) (topK c) (safety c) (client c).

(** [c.makePayload(...)]: the payload, and the builder as the call leaves
    it (the receiver is a pointer). *)
Definition makePayload (c : Chat) (pMessages : list Message)
    (system message : string) (isChat : bool) (toolObject : ToolObject)
  : gmap string pvalue * Chat :=
  let c :=
    if SFltb (temperature c) (S754_zero false)
    then set_temperature c f32_0_95 else c in
  let payload : gmap string pvalue :=
    if isChat then
      let payload : gmap string pvalue :=
        <["chat_history" := VMessages pMessages]>
        (<["connectors" := VStrings []]>
        (<["message" := VString message]>
        (<["model" := VString (model c)]>
        (<["preamble" := VString system]>
        (<["prompt_truncation" := VString "OFF"]>
        (<["stream" := VBool true]>
        (<["temperature" := VFloat32 (temperature c)]>
        (<["tools" := VTools (Tools toolObject)]>
        (<["tool_results" := VResults (Results toolObject)]> ∅))))))))) in
      let payload :=
        if (0 <? seed c)%Z then <["seed" := VInt (seed c)]> payload
        else payload in
      let payload :=
        if negb (String.eqb (safety c) "")
        then <["safety_mode" := VString (safety c)]> payload
        else payload in
      payload
    else
      <["k" := VInt (topK c)]>
      (<["model" := VString (model c)]>
      (<["max_tokens" := VInt (maxTokens c)]>
      (<["prompt" := VString message]>
      (<["raw_prompting" := VBool false]>
      (<["stream" := VBool true]>
      (<["temperature" := VFloat32 (temperature c)]> ∅)))))) in
  let payload :=
    if 0 <? length (stopSequences c)
    then <["stop_sequences" := VStrings (stopSequences c)]> payload
    else payload in
  (payload, c).

(** *** The setters of the builder

    Each has a pointer receiver: the builder that the call leaves is the
    result. *)

Definition Proxies (c : Chat) (proxies : string) : Chat :=
  let 'mkChat temperature maxTokens model seed token _ isChat stopSequences
              topK safety client := c in
  mkChat temperature maxTokens model seed token proxies isChat stopSequences
         topK safety client.

Definition MaxTokens (c : Chat) (maxTokens : Z) : Chat :=
  if (maxTokens <? 1)%Z then c
  else
    let 'mkChat temperature _ model seed token proxies isChat stopSequences
                topK safety client := c in
    mkChat temperature maxTokens model seed token proxies isChat stopSequences
           topK safety client.

Definition TopK (c : Chat) (topK : Z) : Chat :=
  if (topK <? 1)%Z then c
  else
    let 'mkChat temperature maxTokens model seed token proxies isChat
                stopSequences _ safety client := c in
    mkChat temperature maxTokens model seed token proxies isChat stopSequences
           topK safety client.

Definition Seed (c : Chat) (seed : Z) : Chat :=
  if (seed <? 1)%Z then c
  else
    let 'mkChat temperature maxTokens model _ token proxies isChat
                stopSequences topK safety client := c in
    mkChat temperature maxTokens model seed token proxies isChat stopSequences
           topK safety client.

Definition Safety (c : Chat) (safety : string) : Chat :=
  let 'mkChat temperature maxTokens model seed token proxies isChat
              stopSequences topK _ client := c in
  mkChat temperature maxTokens model seed token proxies isChat stopSequences
         topK safety client.

Definition StopSequences (c : Chat) (stopSequences : list string) : Chat :=
  if length stopSequences =? 0 then c
  else
    let 'mkChat temperature maxTokens model seed token proxies isChat _
                topK safety client := c in
    mkChat temperature maxTokens model seed token proxies isChat stopSequences
           topK safety client.

Definition Client (c : Chat) (client : option nat) : Chat :=
  let 'mkChat temperature maxTokens model seed token proxies isChat
              stopSequences topK safety _ := c in
  mkChat temperature maxTokens model seed token proxies isChat stopSequences
         topK safety client.

(** *** MergeMessages *)

(** [message[key]] on a [map[string]string]: the empty string for a key
    that the map does not hold. *)
Definition at_key (message : gmap string string) (key : string) : string :=
  default "" (message !! key).

(** The newline of the two format strings. *)
Definition nl : string := String.String LF EmptyString.

(** The [for] loop of [MergeMessages], with [lastRole] and the contents of
    [buf] as it goes. *)
Fixpoint MergeMessages_loop (lastRole buf : string)
    (messages : list (gmap string string)) : string :=
  match messages with
  | [] => buf
  | message :: messages' =>
      if String.eqb lastRole ""
         || negb (String.eqb lastRole (at_key message "role"))
      then
        let lastRole := at_key message "role" in
        MergeMessages_loop lastRole
          (buf +:+ (nl +:+ at_key message "role" +:+ ": "
                    +:+ at_key message "content"))
          messages'
      else
        MergeMessages_loop lastRole
          (buf +:+ (nl +:+ at_key message "content")) messages'
  end.

Definition MergeMessages (messages : list (gmap string string)) : string :=
  if length messages =? 0 then ""
  else
    let lastRole := "" in
    let buf := "" in
    MergeMessages_loop lastRole buf messages.

(** *** Reply *)

Definition baseUrl : string := "https://api.cohere.com".

(** The client builder of emit.io as [Reply] uses it: the calls made on
    the builder, in order, and the checks handed to [DoC]. *)
Module emit.

Inductive call (context : Type) : Type :=
| Proxies (proxies : string)
| Context (ctx : context)
| URL (url : string)
| Method (method : string)
| Header (key value : string)
| JHeader
| Body (payload : gmap string pvalue).

Inductive check : Type :=
| Status (code : Z)
| IsSTREAM.

Arguments Proxies {context} proxies.
Arguments Context {context} ctx.
Arguments URL {context} url.
Arguments Method {context} method.
Arguments Header {context} key value.
Arguments JHeader {context}.
Arguments Body {context} payload.

End emit.

Section Reply.
Variable json_Unmarshal : bytes -> result block.
Variable json_Marshal : option (list any) -> result bytes.
Variable context : Type.
(** [emit.ClientBuilder(client). ... .DoC(checks...)]: the transport. *)
Variable DoC : option nat -> list (emit.call context) -> list emit.check ->
               result http.Response.

(** [c.Reply(...)]: [Ok tr] when the channel is returned, [tr] being what
    the goroutine [resolve(ch, response)] does; [Fail err] for
    [return nil, err], when no goroutine is started. With it, the builder
    as the call leaves it. *)
Definition Reply (c : Chat) (ctx : context) (pMessages : list Message)
    (system message : string) (toolObject : ToolObject)
  : result (option (list effect)) * Chat :=
  let pathname := "/v1/chat" in
  let '(payload, c) :=
    makePayload c pMessages system message (isChat c) toolObject in
  let pathname := if negb (isChat c) then "/v1/generate" else pathname in
  match DoC (client c)
            [emit.Proxies (proxies c);
             emit.Context ctx;
             emit.URL (baseUrl +:+ pathname);
             emit.Method http.MethodPost;
             emit.Header "Authorization" ("Bearer " +:+ token c);
             emit.Header "Accept-Language" "en-US,en;q=0.9";
             emit.Header "Origin" "https://dashboard.cohere.com";
             emit.Header "Referer" "https://dashboard.cohere.com/";
             emit.JHeader;
             emit.Body payload]
            [emit.Status http.StatusOK; emit.IsSTREAM] with
  | Fail err => (Fail err, c)
  | Ok response =>
      (Ok (resolve json_Unmarshal json_Marshal (http.Body response)), c)
  end.

End Reply.

End chat_v2.

(** ** The first revision (chat.go) *)

Module chat_v1.
Import io bufio json.

Record block : Type := mkBlock {
  Finished : bool;
  Event : string;
  Id : string;
  Text : string;
  Reason : string
}.

Section Resolve.
Variable json_Unmarshal : bytes -> result block.

Definition iteration (r : Reader) (buf : bytes)
  : option (list string * control) :=
  match ReadLine r with
  | None => None
  | Some (line, prefix, err, r) =>
      let buf := buf ++ line in
      match err with
      | Some err =>
          let e_out := if is_EOF err then [] else [error_event err] in
          let str := string_of_list_ascii buf in
          let t_out :=
            if 0 <? String.length str then ["text: " +:+ str] else [] in
          Some (e_out ++ t_out, Return)
      | None =>
          if prefix then Some ([], Continue r buf)
          else
            match json_Unmarshal buf with
            | Fail err => Some ([error_event err], Return)
            | Ok b =>
                let buf : bytes := [] in
                if Finished b then Some ([], Return)
                else if String.eqb (Event b) "text-generation"
                then Some (["text: " +:+ Text b], Continue r buf)
                else Some ([], Continue r buf)
            end
      end
  end.

Fixpoint loop (fuel : nat) (r : Reader) (buf : bytes)
  : option (list string) :=
  match fuel with
  | O => None
  | S fuel' =>
      match iteration r buf with
      | None => None
      | Some (out, Return) => Some out
      | Some (out, Continue r' buf') =>
          option_map (app out) (loop fuel' r' buf')
      end
  end.

(** Only [close(ch)] is deferred here. *)
Definition resolve (response_Body : Body) : option (list effect) :=
  let defers := [] in
  let defers := CloseChan :: defers in
  let r := NewReader response_Body in
  option_map (fun out => run_deferred defers (map Send out))
             (loop (S (pending response_Body)) r []).

End Resolve.

Definition field_names : list string :=
  ["is_finished"; "event_type"; "generation_id"; "text"; "finish_reason"].

Definition set_field (st : block * option error) (member : string * any)
  : block * option error :=
  let '(b, saved) := st in
  let '(key, v) := member in
  let mismatch (field type : string) :=
    (b, match saved with
        | Some e => Some e
        | None => Some (UnmarshalTypeError v "block" field type)
        end) in
  let str (field : string) (set : string -> block) :=
    match v with
    | String s => (set s, saved)
    | Null => st
    | _ => mismatch field "string"
    end in
  match field_of field_names key with
  | None => st
  | Some f =>
      if String.eqb f "is_finished" then
        match v with
        | Bool x => (mkBlock x (Event b) (Id b) (Text b) (Reason b), saved)
        | Null => st
        | _ => mismatch f "bool"
        end
      else if String.eqb f "event_type" then
        str f (fun s => mkBlock (Finished b) s (Id b) (Text b) (Reason b))
      else if String.eqb f "generation_id" then
        str f (fun s => mkBlock (Finished b) (Event b) s (Text b) (Reason b))
      else if String.eqb f "text" then
        str f (fun s => mkBlock (Finished b) (Event b) (Id b) s (Reason b))
      else
        str f (fun s => mkBlock (Finished b) (Event b) (Id b) (Text b) s)
  end.

Definition zero_block : block := mkBlock false "" "" "" "".

Definition Unmarshal (data : bytes) : result block :=
  v ← scan data;
  match v with
  | Object members =>
      match fold_left set_field members (zero_block, None) with
      | (b, None) => Ok b
      | (_, Some e) => Fail e
      end
  | Null => Ok zero_block
  | _ => Fail (UnmarshalTypeError_top v "cohere.block")
  end.

(** *** The payload builder *)

Abbreviation float32 := spec_float.

Definition f32_0_95 : float32 := S754_finite false 15938355 (-24).

Record Message : Type := mkMessage {
  Role : string;
  Message_ : string
}.

Record Chat : Type := mkChat {
  temperature : float32;
  model : string;
  seed : Z;
  token : string;
  proxies : string
}.

Definition New (token : string) (temperature : float32) (seed : Z)
    (model : string) : Chat :=
  mkChat temperature model seed token "".

Inductive pvalue : Type :=
| VMessages (l : list Message)
| VStrings (l : list string)
| VString (s : string)
| VBool (b : bool)
| VFloat32 (f : float32)
| VInt32 (n : Z).

Definition set_temperature (c : Chat) (t : float32) : Chat :=
  mkChat t (model c) (seed c) (token c) (proxies c).

Definition makePayload (c : Chat) (pMessages : list Message)
    (system message : string) : gmap string pvalue * Chat :=
  let c :=
    if SFltb (temperature c) (S754_zero false)
    then set_temperature c f32_0_95 else c in
  let payload : gmap string pvalue :=
    <["chat_history" := VMessages pMessages]>
    (<["connectors" := VStrings []]>
    (<["message" := VString message]>
    (<["model" := VString (model c)]>
    (<["preamble" := VString system]>
    (<["prompt_truncation" := VString "OFF"]>
    (<["stream" := VBool true]>
    (<["temperature" := VFloat32 (temperature c)]> ∅))))))) in
  let payload :=
    if (0 <? seed c)%Z then <["seed" := VInt32 (seed c)]> payload
    else payload in
  (payload, c).

(** *** The setter of the builder *)

Definition Proxies (c : Chat) (proxies : string) : Chat :=
  let 'mkChat temperature model seed token _ := c in
  mkChat temperature model seed token proxies.

(** *** Reply *)

Definition baseUrl : string := "https://api.cohere.ai".

(** The request builder of package [common] as [Reply] uses it: the calls
    made on the builder, in order. *)
Module common.

Inductive call (context : Type) : Type :=
| Proxies (proxies : string)
| Context (ctx : context)
| URL (url : string)
| Method (method : string)
| Header (key value : string)
| JsonHeader
| SetBody (payload : gmap string pvalue).

Arguments Proxies {context} proxies.
Arguments Context {context} ctx.
Arguments URL {context} url.
Arguments Method {context} method.
Arguments Header {context} key value.
Arguments JsonHeader {context}.
Arguments SetBody {context} payload.

End common.

Section Reply.
Variable json_Unmarshal : bytes -> result block.
Variable context : Type.
(** [common.New(). ... .Do()]: the transport. *)
Variable Do : list (common.call context) -> result http.Response.

(** [c.Reply(...)]: [Ok tr] when the channel is returned, [tr] being what
    the goroutine [resolve(ch, response)] does; [Fail err] for
    [return nil, err], when no goroutine is started. With it, the builder
    as the call leaves it. *)
Definition Reply (c : Chat) (ctx : context) (pMessages : list Message)
    (system message : string)
  : result (option (list effect)) * Chat :=
  let '(payload, c) := makePayload c pMessages system message in
  match Do [common.Proxies (proxies c);
            common.Context ctx;
            common.URL (baseUrl +:+ "/v1/chat");
            common.Method http.MethodPost;
            common.Header "Authorization" ("Bearer " +:+ token c);
            common.Header "Accept-Language" "en-US,en;q=0.9";
            common.Header "Origin" "https://dashboard.cohere.com";
            common.Header "Referer" "https://dashboard.cohere.com/";
            common.JsonHeader;
            common.SetBody payload] with
  | Fail err => (Fail err, c)
  | Ok response =>
      if negb (http.StatusCode response =? http.StatusOK)%Z
      then (Fail (Err (http.Status response)), c)
      else (Ok (resolve json_Unmarshal (http.Body response)), c)
  end.

End Reply.

End chat_v1.

(** * Vocabulary of the statements

    Everything above follows the source and the Go library. What follows
    names what the theorems talk about. *)

Section vocabulary.
Import io bufio.

(** The bytes a reader has not yet handed out: its window, then the body's. *)
Definition stream (b : Reader) : bytes := window b ++ concat (chunks (rd b)).

(** What every reader that [resolve] meets satisfies. *)
Definition reader_ok (b : Reader) : Prop :=
  2 <= size b /\ length (window b) <= size b.

(** The body never returns [0, nil]: no chunk is empty. *)
Definition chunked (rd0 : Body) : Prop := Forall (fun c => c <> []) (chunks rd0).

(** [ReadSlice] on a stream [s]: up to the first LF when it lies within the
    buffer, the whole rest with the body's error when the rest does not fill
    the buffer (or fills it exactly and the error came with the last bytes),
    a full buffer otherwise. *)
Definition slice_of (sz : nat) (eag : bool) (fin : error) (s : bytes)
  : bytes * slice_error * bytes :=
  match IndexByte (take sz s) LF with
  | Some i => (take (i + 1) s, NoError, drop (i + 1) s)
  | None =>
      if (length s <? sz) || (eag && (length s =? sz))
      then (s, ReadError fin, [])
      else (take sz s, ErrBufferFull, drop sz s)
  end.

(** [ReadLine] on a stream [s]: its three results and the stream it leaves. *)
Definition line_of (sz : nat) (eag : bool) (fin : error) (s : bytes)
  : bytes * bool * option error * bytes :=
  let '(line, e, rest) := slice_of sz eag fin s in
  match e with
  | ErrBufferFull =>
      match last_byte line with
      | Some c =>
          if Ascii.eqb c CR then (removelast line, true, None, CR :: rest)
          else (line, true, None, rest)
      | None => (line, true, None, rest)
      end
  | _ =>
      match line with
      | [] =>
          ([], false, match e with ReadError e => Some e | _ => None end, rest)
      | _ => (drop_eol line, false, None, rest)
      end
  end.

(** Between two calls of [ReadLine]: an error is pending exactly when the
    body reported it with its last bytes and these are not all handed out. *)
Definition synced (b : Reader) : Prop :=
  1 <= size b /\ length (window b) <= size b /\ chunked (rd b)
  /\ (forall e, err b = Some e ->
        e = final (rd b) /\ chunks (rd b) = [] /\ eager (rd b) = true)
  /\ (eager (rd b) = true -> chunks (rd b) = [] -> window b <> [] ->
        err b <> None).

(** Inside the loop of [ReadSlice], with the search start at [s0]. *)
Definition scanning (s0 : nat) (b : Reader) : Prop :=
  1 <= size b /\ length (window b) <= size b /\ chunked (rd b)
  /\ s0 <= length (window b) /\ IndexByte (take s0 (window b)) LF = None
  /\ (forall e, err b = Some e ->
        e = final (rd b) /\ chunks (rd b) = []
        /\ (eager (rd b) = false ->
              length (window b) < size b /\ s0 = length (window b)))
  /\ (eager (rd b) = true -> chunks (rd b) = [] -> window b <> [] ->
        err b <> None).

(** Two readers over two chunkings of the same stream, of a body that ends
    the same way. *)
Definition same_stream (b1 b2 : Reader) : Prop :=
  synced b1 /\ synced b2
  /\ size b1 = size b2
  /\ eager (rd b1) = eager (rd b2)
  /\ final (rd b1) = final (rd b2)
  /\ stream b1 = stream b2.

(** Two ways of leaving a pass that agree up to the chunking. *)
Definition control_same (c1 c2 : control) : Prop :=
  match c1, c2 with
  | Continue r1 buf1, Continue r2 buf2 => same_stream r1 r2 /\ buf1 = buf2
  | Return, Return => True
  | _, _ => False
  end.

(** How a pass leaves the reader: in order, and with less to read. *)
Definition control_ok (b : Reader) (c : control) : Prop :=
  match c with
  | Continue b' _ => reader_ok b' /\ length (stream b') < length (stream b)
  | Return => True
  end.

(** What the loop sends when a read reports [err]: the error unless it is
    [EOF], then the accumulated bytes unless there are none. *)
Definition at_read_error (err : error) (buf : bytes) : list string :=
  (if is_EOF err then [] else [error_event err])
  ++ (if 0 <? String.length (string_of_list_ascii buf)
      then ["text: " +:+ string_of_list_ascii buf] else []).

(** A line without its final CR, if it has one. *)
Definition strip_cr (l : bytes) : bytes :=
  match last l with
  | Some c => if Ascii.eqb c CR then removelast l else l
  | None => l
  end.

(** ** The loop common to both revisions

    Both revisions run the same loop around [ReadLine] and differ in what
    they do with a complete line. [pass] and [run] are that loop with the
    handling of a complete line, [on_line], as a parameter: what the line
    makes the loop send, and whether the loop goes on. The two [iteration]s
    are instances ([v1_iteration_pass], [v2_iteration_pass]). *)

Definition pass (on_line : bytes -> list string * bool)
    (r : Reader) (buf : bytes) : option (list string * control) :=
  match ReadLine r with
  | None => None
  | Some (line, prefix, err, r) =>
      let buf := buf ++ line in
      match err with
      | Some err => Some (at_read_error err buf, Return)
      | None =>
          if prefix then Some ([], Continue r buf)
          else
            let '(out, go_on) := on_line buf in
            Some (out, if go_on then Continue r [] else Return)
      end
  end.

Fixpoint run (on_line : bytes -> list string * bool)
    (fuel : nat) (r : Reader) (buf : bytes) : option (list string) :=
  match fuel with
  | O => None
  | S fuel' =>
      match pass on_line r buf with
      | None => None
      | Some (out, Return) => Some out
      | Some (out, Continue r' buf') =>
          option_map (app out) (run on_line fuel' r' buf')
      end
  end.

(** What the loop does once a complete line [data] is in the buffer and
    [b] is the reader after it, with [n] passes left. *)
Definition after_line (on_line : bytes -> list string * bool)
    (n : nat) (b : Reader) (data : bytes) : option (list string) :=
  let '(out, go_on) := on_line data in
  if go_on then option_map (app out) (run on_line n b []) else Some out.

(** The loop of [resolve] over a body. *)
Definition run_body (on_line : bytes -> list string * bool)
    (cs : list bytes) (fin : error) (eag : bool)
  : option (list string) :=
  run on_line (S (pending (mkBody cs fin eag)))
      (NewReader (mkBody cs fin eag)) [].

(** A stream as one chunk. *)
Definition unsplit (s : bytes) : list bytes :=
  match s with
  | [] => []
  | _ => [s]
  end.

(** Lines that each end in LF, as one stream. *)
Definition terminated (ls : list bytes) : bytes :=
  concat (map (fun l => l ++ [LF]) ls).

(** What a line makes the loop send, and whether the loop goes on after it. *)
Definition line_out (on_line : bytes -> list string * bool) (l : bytes) :
  list string := fst (on_line (strip_cr l)).

Definition line_goes_on (on_line : bytes -> list string * bool) (l : bytes) :
  Prop := snd (on_line (strip_cr l)) = true.

(** What a consumer receives from a run of [resolve]. *)
Definition emitted (tr : option (list effect)) : option (list string) :=
  option_map sends tr.

(** The channel is closed once, by the last effect of the trace. *)
Definition closes_channel_last (tr : list effect) : Prop :=
  exists pre, tr = pre ++ [CloseChan] /\ ~ In CloseChan pre.

(** What [resolve] does with a complete line (the revision with tool
    calls, from the decoding on). *)
Definition v2_on_line
    (json_Unmarshal : bytes -> json.result chat_v2.block)
    (json_Marshal : option (list json.any) -> json.result bytes)
    (data : bytes) : list string * bool :=
  match json_Unmarshal data with
  | json.Fail err => ([error_event err], false)
  | json.Ok b =>
      if chat_v2.Finished b then ([], false)
      else if String.eqb (chat_v2.Event b) "text-generation"
      then (["text: " +:+ chat_v2.Text b], true)
      else if String.eqb (chat_v2.Event b) "tool-calls-generation"
      then
        match json_Marshal (chat_v2.ToolCalls b) with
        | json.Fail e => ([error_event e], false)
        | json.Ok marshal =>
            (["tool: " +:+ string_of_list_ascii marshal], true)
        end
      else ([], true)
  end.

(** The same for chat.go. *)
Definition v1_on_line
    (json_Unmarshal : bytes -> json.result chat_v1.block)
    (data : bytes) : list string * bool :=
  match json_Unmarshal data with
  | json.Fail err => ([error_event err], false)
  | json.Ok b =>
      if chat_v1.Finished b then ([], false)
      else if String.eqb (chat_v1.Event b) "text-generation"
      then (["text: " +:+ chat_v1.Text b], true)
      else ([], true)
  end.

(** JSON text for the examples: ['] stands for the double quote and [|]
    for LF. *)
Definition wire (s : string) : bytes :=
  map (fun c => if Ascii.eqb c "'" then json.dquote
                else if Ascii.eqb c "|" then LF else c)
      (list_ascii_of_string s).

(** [t < 0] on float32. It is false for NaN and for both zeros. *)
Definition negative (t : spec_float) : bool := SFltb t (S754_zero false).

(** -1 and 3/4 as float32. *)
Definition f32_minus_1 : spec_float := S754_finite true 8388608 (-23).
Definition f32_0_75 : spec_float := S754_finite false 12582912 (-24).

(** ** A stream, line by line *)

(** What the loop sends when the body is used up and nothing is
    accumulated: the body's error, unless it is [EOF]. *)
Definition end_out (fin : io.error) : list string :=
  if io.is_EOF fin then [] else [error_event fin].

(** What the loop sends for the lines [ls], each of which ends in LF, when
    [k] is what it sends for what follows them: a line after which the loop
    does not go on is the last one heard of. *)
Fixpoint lines_then (on_line : bytes -> list string * bool)
    (ls : list bytes) (k : list string) : list string :=
  match ls with
  | [] => k
  | l :: ls' =>
      let '(out, go_on) := on_line (strip_cr l) in
      if go_on then out ++ lines_then on_line ls' k else out
  end.

(** What the loop sends for a last line [tail] that no LF ends. *)
Definition last_line_out (on_line : bytes -> list string * bool)
    (fin : io.error) (tail : bytes) : list string :=
  let '(out, go_on) := on_line tail in
  if go_on then out ++ end_out fin else out.

(** What the specification has [resolve] send for a stream that ends in
    the bytes [tail] without a newline: the body's error unless it is
    [EOF], then the bytes as they are. *)
Definition flushed (fin : io.error) (tail : bytes) : list string :=
  end_out fin ++ ["text: " +:+ string_of_list_ascii tail].

(** A line of 4542 bytes, longer than the reader's buffer, and a line of
    exactly [bufio.defaultBufSize] bytes. *)
Definition long_line : bytes :=
  wire "{'event_type':'text-generation','text':'"
  ++ repeat "a"%char 4500 ++ wire "'}".

Definition full_buffer_line : bytes :=
  wire "{'event_type':'text-generation','text':'"
  ++ repeat "a"%char 4054 ++ wire "'}".

(** ** Calls of the setters *)

Inductive setter : Type :=
| SetProxies (proxies : string)
| SetMaxTokens (maxTokens : Z)
| SetTopK (topK : Z)
| SetSeed (seed : Z)
| SetSafety (safety : string)
| SetStopSequences (stopSequences : list string)
| SetClient (client : option nat).

Definition call_setter (c : chat_v2.Chat) (s : setter) : chat_v2.Chat :=
  match s with
  | SetProxies proxies => chat_v2.Proxies c proxies
  | SetMaxTokens maxTokens => chat_v2.MaxTokens c maxTokens
  | SetTopK topK => chat_v2.TopK c topK
  | SetSeed seed => chat_v2.Seed c seed
  | SetSafety safety => chat_v2.Safety c safety
  | SetStopSequences stopSequences => chat_v2.StopSequences c stopSequences
  | SetClient client => chat_v2.Client c client
  end.

(** The builder after a sequence of setter calls. *)
Definition configure (c : chat_v2.Chat) (calls : list setter) : chat_v2.Chat :=
  fold_left call_setter calls c.

(** The arguments of the calls of one setter, in order. *)
Definition seeds (calls : list setter) : list Z :=
  omap (fun s => match s with SetSeed n => Some n | _ => None end) calls.

Definition max_tokens_args (calls : list setter) : list Z :=
  omap (fun s => match s with SetMaxTokens n => Some n | _ => None end) calls.

Definition top_k_args (calls : list setter) : list Z :=
  omap (fun s => match s with SetTopK n => Some n | _ => None end) calls.

Definition stop_sequences_args (calls : list setter) : list (list string) :=
  omap (fun s => match s with SetStopSequences l => Some l | _ => None end)
       calls.

Definition safety_args (calls : list setter) : list string :=
  omap (fun s => match s with SetSafety x => Some x | _ => None end) calls.

(** The last argument that a guarded setter accepts, if any. *)
Definition last_accepted {A : Type} (accepts : A -> bool) (args : list A)
  : option A := last (filter (fun x => accepts x = true) args).

Definition at_least_1 (n : Z) : bool := (1 <=? n)%Z.

Definition non_empty (l : list string) : bool :=
  match l with [] => false | _ => true end.

(** ** The messages of [MergeMessages] *)

Definition role (message : gmap string string) : string :=
  chat_v2.at_key message "role".

Definition content (message : gmap string string) : string :=
  chat_v2.at_key message "content".

(** What one message adds to the text, after a message of role [prev]. *)
Definition segment (prev : string) (message : gmap string string) : string :=
  if String.eqb (role message) "" || negb (String.eqb prev (role message))
  then chat_v2.nl +:+ role message +:+ ": " +:+ content message
  else chat_v2.nl +:+ content message.

Fixpoint segments (prev : string) (messages : list (gmap string string))
  : string :=
  match messages with
  | [] => ""
  | message :: messages' =>
      segment prev message +:+ segments (role message) messages'
  end.

(** The role of the last message, [prev] when there is none. *)
Definition last_role (prev : string) (messages : list (gmap string string))
  : string :=
  match last messages with
  | Some message => role message
  | None => prev
  end.

(** A message with a role and a content. *)
Definition message_of (r c : string) : gmap string string :=
  <["role" := r]> (<["content" := c]> ∅).

(** ** The keys of a payload *)

Definition chat_keys : gset string :=
  list_to_set ["chat_history"; "connectors"; "message"; "model"; "preamble";
               "prompt_truncation"; "stream"; "temperature"; "tools";
               "tool_results"].

Definition generate_keys : gset string :=
  list_to_set ["k"; "model"; "max_tokens"; "prompt"; "raw_prompting";
               "stream"; "temperature"].

Definition v1_keys : gset string :=
  list_to_set ["chat_history"; "connectors"; "message"; "model"; "preamble";
               "prompt_truncation"; "stream"; "temperature"].

(** A key that is there only on a condition. *)
Definition key_if (cond : bool) (key : string) : gset string :=
  if cond then {[ key ]} else ∅.

(** ** The two revisions side by side *)



End vocabulary.

Ltac case_scrutinee :=
  match goal with
  | |- context [match ?x with _ => _ end] => destruct x eqn:?
  end.

(** * The reader: what one call consumes *)

Section reader_facts.
Import io bufio.

#[local] Arguments fill : simpl never.

Lemma IndexByte_lt s c i : IndexByte s c = Some i -> i < length s.
Proof.
  revert i. induction s as [|x s IH]; intros i; simpl; [discriminate|].
  destruct (Ascii.eqb x c).
  - intros [= <-]. lia.
  - destruct (IndexByte s c) as [j|]; simpl; [|discriminate].
    intros [= <-]. specialize (IH j eq_refl). lia.
Qed.

Lemma IndexByte_app s t c :
  IndexByte (s ++ t) c =
  match IndexByte s c with
  | Some i => Some i
  | None => option_map (fun i => length s + i) (IndexByte t c)
  end.
Proof.
  induction s as [|x s IH]; simpl.
  - destruct (IndexByte t c); reflexivity.
  - destruct (Ascii.eqb x c); [reflexivity|].
    rewrite IH. destruct (IndexByte s c); simpl; [reflexivity|].
    destruct (IndexByte t c); reflexivity.
Qed.

Lemma IndexByte_from s c k :
  k <= length s -> IndexByte (take k s) c = None ->
  IndexByte s c = option_map (fun i => i + k) (IndexByte (drop k s) c).
Proof.
  intros Hk Hn. rewrite <- (take_drop k s) at 1.
  rewrite IndexByte_app, Hn, length_take_le by lia.
  destruct (IndexByte (drop k s) c); simpl; [f_equal; lia|reflexivity].
Qed.

Lemma IndexByte_take_Some s c i n :
  IndexByte s c = Some i -> i < n -> IndexByte (take n s) c = Some i.
Proof.
  intros Hi Hn. rewrite <- (take_drop n s) in Hi.
  rewrite IndexByte_app in Hi.
  destruct (IndexByte (take n s) c) as [j|] eqn:E; [assumption|].
  destruct (IndexByte (drop n s) c) as [j|] eqn:E2; simpl in Hi; [|discriminate].
  injection Hi as <-.
  destruct (Nat.le_gt_cases n (length s)).
  - rewrite length_take_le in Hn by lia. lia.
  - rewrite drop_ge in E2 by lia. discriminate.
Qed.

Lemma IndexByte_take_None s c n :
  IndexByte s c = None -> IndexByte (take n s) c = None.
Proof.
  intros Hs. rewrite <- (take_drop n s), IndexByte_app in Hs.
  destruct (IndexByte (take n s) c); [discriminate|reflexivity].
Qed.

(** [Read] hands out a prefix of the body and keeps the rest. *)
Lemma Read_stream (rd0 : Body) n p e rd1 :
  Read rd0 n = (p, e, rd1) ->
  concat (chunks rd0) = p ++ concat (chunks rd1)
  /\ length p <= n /\ final rd1 = final rd0 /\ eager rd1 = eager rd0
  /\ (0 < n -> e = None -> p = [] -> pending rd1 = pending rd0 /\
        length (chunks rd1) < length (chunks rd0)).
Proof.
  unfold Read, pending. destruct rd0 as [cs fin eag]; simpl.
  destruct cs as [|c cs]; simpl.
  - intros [= <- <- <-]. simpl. repeat split; try lia. discriminate.
  - destruct (Nat.leb_spec (length c) n).
    + intros [= <- <- <-]. simpl.
      split; [reflexivity|]. split; [lia|]. do 2 (split; [reflexivity|]).
      intros _ _ ->. simpl. split; lia.
    + intros [= <- <- <-]. simpl. rewrite app_assoc, take_drop.
      split; [reflexivity|]. split; [rewrite length_take; lia|].
      do 2 (split; [reflexivity|]).
      intros Hn _ Hp. apply (f_equal length) in Hp.
      rewrite length_take in Hp. simpl in Hp. lia.
Qed.

(** [fill] keeps the stream, adds to the window, and either adds a byte or
    leaves an error pending. *)
Lemma fill_loop_stream i b :
  length (window b) < size b ->
  size (fill_loop i b) = size b /\ stream (fill_loop i b) = stream b
  /\ length (window (fill_loop i b)) <= size b
  /\ (exists p, window (fill_loop i b) = window b ++ p)
  /\ (err (fill_loop i b) <> None
      \/ length (window b) < length (window (fill_loop i b))).
Proof.
  revert b. induction i as [|i IH]; intros b Hlt; simpl.
  - split; [reflexivity|]. split; [reflexivity|]. split; [lia|].
    split; [exists []; now rewrite app_nil_r|]. left. discriminate.
  - destruct (Read (rd b) (size b - length (window b))) as [[p e] rd1] eqn:ER.
    apply Read_stream in ER as (Hc & Hp & _ & _ & _).
    assert (Hs : (window b ++ p) ++ concat (chunks rd1) = stream b).
    { unfold stream. rewrite Hc, app_assoc. reflexivity. }
    destruct e as [e|].
    + simpl. unfold stream at 1; simpl. rewrite length_app.
      split; [reflexivity|]. split; [assumption|]. split; [lia|].
      split; [now exists p|]. left. discriminate.
    + destruct (Nat.ltb_spec 0 (length p)).
      * simpl. unfold stream at 1; simpl. rewrite !length_app.
        split; [reflexivity|]. split; [assumption|]. split; [lia|].
        split; [now exists p|]. right. lia.
      * assert (p = []) as -> by (destruct p; simpl in *; [reflexivity|lia]).
        rewrite app_nil_r in *.
        specialize (IH (mkReader rd1 (size b) (window b) (err b)) Hlt).
        simpl in IH. destruct IH as (H1 & H2 & H3 & H4 & H5).
        repeat split; try assumption.
        rewrite H2. exact Hs.
Qed.

Lemma fill_stream b :
  length (window b) < size b ->
  size (fill b) = size b /\ stream (fill b) = stream b
  /\ length (window (fill b)) <= size b
  /\ (exists p, window (fill b) = window b ++ p)
  /\ (err (fill b) <> None \/ length (window b) < length (window (fill b))).
Proof. exact (fill_loop_stream maxConsecutiveEmptyReads b). Qed.

(** [ReadSlice] always returns within its passes, and what it returns is the
    front of the stream. *)
Lemma ReadSlice_loop_returns fuel s b :
  0 < size b ->
  length (window b) <= size b ->
  (err b <> None /\ 1 <= fuel) \/ size b - length (window b) + 2 <= fuel ->
  exists line e b',
    ReadSlice_loop fuel LF s b = Some (line, e, b')
    /\ stream b = line ++ stream b'
    /\ size b' = size b
    /\ length (window b') <= size b
    /\ (e = NoError -> line <> [])
    /\ (e = ErrBufferFull -> length line = size b /\ window b' = [])
    /\ (forall x, e = ReadError x -> window b' = []).
Proof.
  revert s b. induction fuel as [|fuel IH]; intros s b Hsz Hw Hf; [lia|].
  cbn [ReadSlice_loop].
  destruct (IndexByte (drop s (window b)) LF) as [i|] eqn:EI.
  - eexists _, _, _. split; [reflexivity|]. unfold stream; simpl.
    rewrite app_assoc, take_drop. repeat split; try discriminate.
    + rewrite length_drop. lia.
    + intros _ Hnil. apply IndexByte_lt in EI. rewrite length_drop in EI.
      apply (f_equal length) in Hnil. rewrite length_take in Hnil.
      simpl in Hnil. lia.
  - destruct (err b) as [e|] eqn:Ee.
    + eexists _, _, _. split; [reflexivity|]. unfold stream; simpl.
      repeat split; try discriminate; try lia.
    + destruct (Nat.leb_spec (size b) (length (window b))).
      * eexists _, _, _. split; [reflexivity|]. unfold stream; simpl.
        repeat split; try discriminate; try lia.
      * destruct Hf as [[Hf _]|Hf]; [congruence|].
        destruct (fill_stream b H) as (F1 & F2 & F3 & F4 & F5).
        destruct (IH (length (window b)) (fill b)) as (line & e & b' & R).
        { lia. } { lia. }
        { destruct (err (fill b)) eqn:E'.
          - left. split; [discriminate|lia].
          - right. destruct F5; [congruence|lia]. }
        exists line, e, b'. rewrite F1, F2 in R. exact R.
Qed.

Lemma ReadSlice_returns b :
  0 < size b -> length (window b) <= size b ->
  exists line e b',
    ReadSlice b LF = Some (line, e, b')
    /\ stream b = line ++ stream b'
    /\ size b' = size b
    /\ length (window b') <= size b
    /\ (e = NoError -> line <> [])
    /\ (e = ErrBufferFull -> length line = size b /\ window b' = [])
    /\ (forall x, e = ReadError x -> window b' = []).
Proof.
  intros. apply ReadSlice_loop_returns; try assumption. right. lia.
Qed.

Lemma NewReader_ok rd0 : reader_ok (NewReader rd0).
Proof.
  unfold reader_ok, NewReader, NewReaderSize; simpl.
  unfold defaultBufSize. lia.
Qed.

Lemma last_Some_length (l : bytes) : l <> [] -> exists c, last l = Some c.
Proof.
  intros Hl. destruct (last l) as [c|] eqn:E; [now exists c|].
  apply last_None in E. contradiction.
Qed.

(** [ReadLine] always returns, and unless it reports an error it has taken
    at least one byte from the stream. *)
Lemma ReadLine_returns b :
  reader_ok b ->
  exists line prefix e b',
    ReadLine b = Some (line, prefix, e, b')
    /\ reader_ok b'
    /\ length (stream b') <= length (stream b)
    /\ (e = None -> length (stream b') < length (stream b)).
Proof.
  intros [Hsz Hw]. unfold ReadLine.
  destruct (ReadSlice_returns b)
    as (line & e & b' & -> & Hs & Hsz' & Hw' & Hne & Hfull & Herr);
    [lia|assumption|].
  assert (Hlen : length (stream b) = length line + length (stream b'))
    by (rewrite Hs, length_app; reflexivity).
  assert (Hok' : reader_ok b') by (unfold reader_ok; lia).
  destruct e as [| |x].
  - specialize (Hne eq_refl).
    destruct line as [|c0 line0]; [contradiction|].
    eexists _, _, _, _. split; [reflexivity|]. simpl in Hlen.
    repeat split; try apply Hok'; lia.
  - destruct (Hfull eq_refl) as [Hl Hwin].
    assert (line <> []) as Hnil by (intros ->; simpl in Hl; lia).
    destruct (last_Some_length line Hnil) as [c Hc].
    unfold last_byte. rewrite Hc.
    destruct (Ascii.eqb c CR).
    + eexists _, _, _, _. split; [reflexivity|].
      unfold reader_ok, stream in *; simpl. rewrite Hwin in *; simpl in *.
      repeat split; lia.
    + eexists _, _, _, _. split; [reflexivity|]. repeat split; try apply Hok'; lia.
  - destruct line as [|c0 line0].
    + eexists _, _, _, _. split; [reflexivity|]. simpl in Hlen.
      repeat split; try apply Hok'; try lia. discriminate.
    + eexists _, _, _, _. split; [reflexivity|]. simpl in Hlen.
      repeat split; try apply Hok'; lia.
Qed.

End reader_facts.

(** * The reader on the unsplit stream

    What [ReadSlice] and [ReadLine] return, computed from the bytes still to
    come alone; the reader over any chunking of these bytes returns the same
    ([ReadSlice_spec], [ReadLine_spec]). *)

Section unsplit.
Import io bufio.

#[local] Arguments fill : simpl never.

Lemma synced_scanning b : synced b -> scanning 0 b.
Proof.
  intros (H1 & H2 & H3 & H4 & H5). unfold scanning.
  repeat split; try assumption; try lia;
    try (destruct (H4 e H) as (? & ? & ?); congruence).
Qed.

Lemma NewReader_synced rd0 : chunked rd0 -> synced (NewReader rd0).
Proof.
  intros Hc. unfold synced, NewReader, NewReaderSize; simpl.
  unfold defaultBufSize. repeat split; try assumption; try lia; try discriminate.
  intros _ _ H. contradiction.
Qed.

Lemma chunked_concat_nil cs :
  Forall (fun c : bytes => c <> []) cs -> concat cs = [] -> cs = [].
Proof.
  intros Hc Hn. destruct cs as [|c cs]; [reflexivity|].
  inversion Hc; subst. simpl in Hn. destruct c; [contradiction|discriminate].
Qed.

(** One [Read] of a body without empty chunks. *)
Lemma Read_chunked (rd0 : Body) n p e rd1 :
  chunked rd0 -> 0 < n -> Read rd0 n = (p, e, rd1) ->
  (chunks rd0 = [] /\ p = [] /\ e = Some (final rd0) /\ rd1 = rd0)
  \/ (p <> [] /\ chunked rd1
      /\ ((e = None /\ (eager rd0 = true -> chunks rd1 <> []))
          \/ (e = Some (final rd0) /\ eager rd0 = true /\ chunks rd1 = []))).
Proof.
  unfold Read, chunked. destruct rd0 as [cs fin eag]; simpl.
  intros Hc Hn. destruct cs as [|c cs]; simpl.
  - intros [= <- <- <-]. left. auto.
  - inversion Hc as [|? ? Hc1 Hc2]; subst.
    destruct (Nat.leb_spec (length c) n).
    + intros [= <- <- <-]. right. simpl. split; [assumption|]. split; [assumption|].
      destruct eag; simpl; destruct cs; simpl; auto.
    + intros [= <- <- <-]. right. simpl. split.
      * intros Hp. apply (f_equal length) in Hp.
        rewrite length_take in Hp. simpl in Hp. lia.
      * split.
        -- constructor; [|assumption]. intros Hp. apply (f_equal length) in Hp.
           rewrite length_drop in Hp. simpl in Hp. lia.
        -- left. split; [reflexivity|]. discriminate.
Qed.

Lemma fill_loop_S i b :
  fill_loop (S i) b =
  let '(p, e, rd') := Read (rd b) (size b - length (window b)) in
  let w := window b ++ p in
  match e with
  | Some e => mkReader rd' (size b) w (Some e)
  | None =>
      if 0 <? length p then mkReader rd' (size b) w (err b)
      else fill_loop i (mkReader rd' (size b) w (err b))
  end.
Proof. reflexivity. Qed.

(** [fill] over a body without empty chunks is one [Read]. *)
Lemma fill_chunked b :
  chunked (rd b) -> length (window b) < size b ->
  (chunks (rd b) = []
   /\ fill b = mkReader (rd b) (size b) (window b) (Some (final (rd b))))
  \/ (exists p, p <> [] /\ window (fill b) = window b ++ p
      /\ size (fill b) = size b /\ stream (fill b) = stream b
      /\ chunked (rd (fill b))
      /\ final (rd (fill b)) = final (rd b) /\ eager (rd (fill b)) = eager (rd b)
      /\ length (window (fill b)) <= size b
      /\ ((err (fill b) = err b
           /\ (eager (rd b) = true -> chunks (rd (fill b)) <> []))
          \/ (err (fill b) = Some (final (rd b)) /\ eager (rd b) = true
              /\ chunks (rd (fill b)) = []))).
Proof.
  intros Hc Hlt. unfold fill. change maxConsecutiveEmptyReads with (S 99).
  rewrite fill_loop_S.
  destruct (Read (rd b) (size b - length (window b))) as [[p e] rd1] eqn:ER.
  pose proof (Read_stream _ _ _ _ _ ER) as (Hs & Hp & Hfin & Heag & _).
  apply Read_chunked in ER; [|assumption|lia].
  destruct ER as [(Hnil & -> & -> & ->)|(Hp0 & Hc1 & Hcase)].
  - left. simpl. rewrite app_nil_r. auto.
  - right. exists p.
    assert (Hlen : 0 < length p) by (destruct p; simpl; [contradiction|lia]).
    assert (Hstr : (window b ++ p) ++ concat (chunks rd1) = stream b).
    { unfold stream. rewrite Hs, app_assoc. reflexivity. }
    assert (Hpos : (0 <? length p) = true) by (apply Nat.ltb_lt; exact Hlen).
    destruct Hcase as [(-> & Hne)|(-> & He & Hn)]; cbv beta iota zeta.
    + rewrite Hpos. unfold stream at 1; cbn [window rd size err].
      rewrite length_app.
      repeat split; try assumption; try lia. left. auto.
    + unfold stream at 1; cbn [window rd size err]. rewrite length_app.
      repeat split; try assumption; try lia. right. auto.
Qed.

(** [ReadSlice] over any chunking returns what [slice_of] computes from the
    stream. *)
Lemma ReadSlice_loop_spec fuel s0 b :
  scanning s0 b ->
  (err b <> None /\ 1 <= fuel) \/ size b - length (window b) + 2 <= fuel ->
  forall line e rest,
    slice_of (size b) (eager (rd b)) (final (rd b)) (stream b) = (line, e, rest) ->
    exists b',
      ReadSlice_loop fuel LF s0 b = Some (line, e, b')
      /\ stream b' = rest /\ synced b'
      /\ size b' = size b /\ eager (rd b') = eager (rd b)
      /\ final (rd b') = final (rd b)
      /\ (e = ErrBufferFull -> window b' = [] /\ err b' = None).
Proof.
  revert s0 b. induction fuel as [|fuel IH]; intros s0 b Hsc Hf line e rest HR.
  { destruct Hf as [[_ ?]|?]; lia. }
  destruct Hsc as (Hsz & Hw & Hc & Hs0 & Hnone & Herr & Heag).
  cbn [ReadSlice_loop].
  pose proof (IndexByte_from (window b) LF s0 Hs0 Hnone) as Hidx.
  destruct (IndexByte (drop s0 (window b)) LF) as [i|] eqn:EI; simpl in Hidx.
  - assert (Hi : i + s0 < length (window b)) by (apply IndexByte_lt in Hidx; exact Hidx).
    assert (Hst : IndexByte (take (size b) (stream b)) LF = Some (i + s0)).
    { apply IndexByte_take_Some; [|lia].
      unfold stream. rewrite IndexByte_app, Hidx. reflexivity. }
    unfold slice_of in HR. rewrite Hst in HR. injection HR as <- <- <-.
    eexists. split.
    { do 3 f_equal. unfold stream. rewrite take_app_le by lia. reflexivity. }
    cbn [window rd size err]. split.
    { unfold stream; cbn [window rd]. rewrite drop_app_le by lia. reflexivity. }
    split.
    { unfold synced; cbn [window rd size err].
      split; [assumption|]. split; [rewrite length_drop; lia|].
      split; [assumption|]. split.
      - intros x Hx. destruct (Herr x Hx) as (? & ? & Hx2).
        split; [assumption|]. split; [assumption|].
        destruct (eager (rd b)) eqn:Eg; [reflexivity|].
        destruct (Hx2 eq_refl) as [_ ->]. rewrite drop_all in EI. discriminate.
      - intros Hg Hn Hd. apply Heag; try assumption.
        intros Hwn. rewrite Hwn, drop_nil in Hd. contradiction. }
    repeat split; discriminate.
  - destruct (err b) as [x|] eqn:Ex.
    + destruct (Herr x eq_refl) as (-> & Hnil & Hx).
      assert (Hstr : stream b = window b)
        by (unfold stream; rewrite Hnil; simpl; apply app_nil_r).
      unfold slice_of in HR.
      rewrite Hstr, (take_ge (window b)), Hidx in HR by lia.
      assert (Hcond : (length (window b) <? size b)
                      || (eager (rd b) && (length (window b) =? size b)) = true).
      { destruct (eager (rd b)) eqn:Eg.
        - destruct (Nat.ltb_spec (length (window b)) (size b)); [reflexivity|].
          simpl. apply Nat.eqb_eq. lia.
        - destruct (Hx eq_refl) as [Hlt _]. apply Nat.ltb_lt in Hlt.
          rewrite Hlt. reflexivity. }
      rewrite Hcond in HR. injection HR as <- <- <-.
      eexists. split; [reflexivity|]. cbn [window rd size err].
      split. { unfold stream; cbn [window rd]. rewrite Hnil. reflexivity. }
      split.
      { unfold synced; cbn [window rd size err].
        repeat split; try assumption; try (simpl; lia); try discriminate;
          try (intros _ _ H; contradiction). }
      repeat split; discriminate.
    + destruct (Nat.leb_spec (size b) (length (window b))) as [Hfull|Hroom].
      * unfold slice_of in HR.
        assert (Hlen : length (window b) = size b) by lia.
        assert (Htk : take (size b) (stream b) = window b).
        { unfold stream. rewrite take_app_le by lia. apply take_ge; lia. }
        rewrite Htk, Hidx in HR.
        assert (Hcond : (length (stream b) <? size b)
                        || (eager (rd b) && (length (stream b) =? size b)) = false).
        { apply orb_false_iff. split.
          - apply Nat.ltb_ge. unfold stream; rewrite length_app; lia.
          - destruct (eager (rd b)) eqn:Eg; [|reflexivity]. simpl.
            apply Nat.eqb_neq. intros Heq.
            unfold stream in Heq. rewrite length_app in Heq.
            assert (Hcn : concat (chunks (rd b)) = [])
              by (apply length_zero_iff_nil; lia).
            apply chunked_concat_nil in Hcn; [|exact Hc].
            apply (Heag eq_refl Hcn); [|reflexivity].
            intros Hwn. rewrite Hwn in Hlen. simpl in Hlen. lia. }
        rewrite Hcond in HR. injection HR as <- <- <-.
        eexists. split; [reflexivity|]. cbn [window rd size err].
        split.
        { unfold stream; cbn [window rd].
          rewrite drop_app_le, (drop_ge (window b)) by lia. reflexivity. }
        split.
        { unfold synced; cbn [window rd size err].
          repeat split; try assumption; try (simpl; lia); try discriminate;
            try (intros _ _ H; contradiction). }
        repeat split; reflexivity.
      * destruct Hf as [[Hf _]|Hf]; [congruence|].
        destruct (fill_chunked b Hc Hroom)
          as [(Hnil & Hfill)
             |(p & Hp & Hwin & Hsize & Hstr & Hc' & Hfin & Hg & Hwl & Hcase)].
        -- destruct (IH (length (window b)) (fill b))
             with (line := line) (e := e) (rest := rest)
             as (b' & R1 & R2 & R3 & R4 & R5 & R6 & R7).
           { rewrite Hfill. unfold scanning; cbn [window rd size err].
             split; [assumption|]. split; [assumption|]. split; [assumption|].
             split; [lia|]. split; [rewrite take_ge by lia; exact Hidx|].
             split.
             - intros x [= <-]. split; [reflexivity|]. split; [assumption|].
               intros _. split; [assumption|reflexivity].
             - intros _ _ _. discriminate. }
           { left. rewrite Hfill; cbn [err]. split; [discriminate|lia]. }
           { rewrite Hfill; cbn [window rd size err]. exact HR. }
           exists b'. rewrite Hfill in R4, R5, R6. cbn [window rd size err] in R4, R5, R6.
           repeat (split; [assumption|]). exact R7.
        -- destruct (IH (length (window b)) (fill b))
             with (line := line) (e := e) (rest := rest)
             as (b' & R1 & R2 & R3 & R4 & R5 & R6 & R7).
           { unfold scanning. rewrite Hsize, Hwin, Hfin, Hg.
             split; [assumption|]. split; [rewrite <- Hwin; assumption|].
             split; [assumption|]. split; [rewrite length_app; lia|].
             split; [rewrite take_app_length; exact Hidx|].
             rewrite <- Hwin.
             destruct Hcase as [(He & Hne)|(He & He2 & Hn2)]; rewrite He.
             - rewrite Ex. split; [discriminate|].
               intros Hg1 Hn1. specialize (Hne Hg1). contradiction.
             - split; [|discriminate].
               intros x [= <-]. split; [reflexivity|]. split; [assumption|].
               intros Hg1. congruence. }
           { destruct (err (fill b)) eqn:E'.
             - left. split; [discriminate|lia].
             - right. rewrite Hsize, Hwin, length_app.
               assert (0 < length p) by (destruct p; simpl; [contradiction|lia]).
               lia. }
           { rewrite Hsize, Hg, Hfin, Hstr. exact HR. }
           exists b'. rewrite Hsize, ?Hg, ?Hfin in *.
           repeat (split; [assumption|]). exact R7.
Qed.

Lemma ReadSlice_spec b :
  synced b ->
  forall line e rest,
    slice_of (size b) (eager (rd b)) (final (rd b)) (stream b) = (line, e, rest) ->
    exists b',
      ReadSlice b LF = Some (line, e, b')
      /\ stream b' = rest /\ synced b'
      /\ size b' = size b /\ eager (rd b') = eager (rd b)
      /\ final (rd b') = final (rd b)
      /\ (e = ErrBufferFull -> window b' = [] /\ err b' = None).
Proof.
  intros Hs. apply ReadSlice_loop_spec; [apply synced_scanning, Hs|].
  right. lia.
Qed.

Lemma slice_of_full_eager sz fin s line rest :
  slice_of sz true fin s = (line, ErrBufferFull, rest) -> rest <> [].
Proof.
  unfold slice_of. destruct (IndexByte (take sz s) LF); [discriminate|].
  destruct (Nat.ltb_spec (length s) sz); simpl; [discriminate|].
  destruct (Nat.eqb_spec (length s) sz); [discriminate|].
  intros [= <- <-] Hd. apply (f_equal length) in Hd.
  rewrite length_drop in Hd. simpl in Hd. lia.
Qed.

(** [ReadLine] over any chunking returns what [line_of] computes from the
    stream, and leaves the stream [line_of] leaves. *)
Lemma ReadLine_spec b :
  synced b ->
  forall line prefix e rest,
    line_of (size b) (eager (rd b)) (final (rd b)) (stream b)
      = (line, prefix, e, rest) ->
    exists b',
      ReadLine b = Some (line, prefix, e, b')
      /\ stream b' = rest /\ synced b'
      /\ size b' = size b /\ eager (rd b') = eager (rd b)
      /\ final (rd b') = final (rd b).
Proof.
  intros Hs line prefix e rest. unfold line_of.
  destruct (slice_of (size b) (eager (rd b)) (final (rd b)) (stream b))
    as [[l se] r] eqn:ES.
  destruct (ReadSlice_spec b Hs _ _ _ ES)
    as (b1 & R1 & R2 & R3 & R4 & R5 & R6 & R7).
  unfold ReadLine. rewrite R1.
  destruct se as [| |x].
  - destruct l; intros [= <- <- <- <-]; exists b1; auto 10.
  - destruct (R7 eq_refl) as [Hwin Herr1].
    destruct (last_byte l) as [c|].
    + destruct (Ascii.eqb c CR); intros [= <- <- <- <-].
      * eexists. split; [reflexivity|]. cbn [window rd size err].
        split; [unfold stream in *; cbn [window rd]; rewrite <- R2; reflexivity|].
        split; [|auto].
        destruct R3 as (S1 & S2 & S3 & S4 & S5).
        unfold synced; cbn [window rd size err]. rewrite Hwin, Herr1.
        split; [assumption|]. split; [simpl; lia|]. split; [assumption|].
        split; [discriminate|].
        intros Hg Hn _. exfalso.
        rewrite R5 in Hg. rewrite Hg in ES.
        apply slice_of_full_eager in ES. apply ES.
        rewrite <- R2. unfold stream. rewrite Hwin, Hn. reflexivity.
      * exists b1. auto 10.
    + intros [= <- <- <- <-]. exists b1. auto 10.
  - destruct l; intros [= <- <- <- <-]; exists b1; auto 10.
Qed.

End unsplit.

(** * The scanner never runs out of steps *)

Section scanner_steps.
Import io json.

#[local] Ltac unbind := unfold mbind, result_bind in *.
#[local] Ltac other_error := solve [discriminate | intros [=]].

Lemma skipSpace_length s : length (skipSpace s) <= length s.
Proof.
  induction s as [|c s IH]; simpl; [lia|].
  destruct (isSpace c); simpl; lia.
Qed.

Lemma digits_length s : length (snd (digits s)) <= length s.
Proof.
  induction s as [|c s IH]; simpl; [lia|].
  destruct (isDigit c); simpl; [|lia].
  destruct (digits s); simpl in *. lia.
Qed.

Lemma literal_steps name expect : forall s,
  literal name expect s <> Fail out_of_steps
  /\ forall r, literal name expect s = Ok r -> length r <= length s.
Proof.
  induction expect as [|e expect IH]; intros s; simpl.
  - split; [discriminate|]. intros r [= <-]. lia.
  - destruct s as [|c s]; [split; discriminate|].
    destruct (Ascii.eqb c e).
    + destruct (IH s) as [H1 H2]. split; [exact H1|].
      intros r Hr. specialize (H2 r Hr). simpl. lia.
    + split; [other_error|discriminate].
Qed.

#[local] Ltac use_digits :=
  repeat match goal with
  | H : digits ?x = (_, ?r) |- _ =>
      let L := fresh in
      pose proof (digits_length x) as L; rewrite H in L; clear H
  | H : Ok _ = Ok _ |- _ => injection H as <- <-
  | H : (_, _) = (_, _) |- _ => injection H as <- <-
  end.

Lemma number_int_steps s :
  number_int s <> Fail out_of_steps
  /\ forall lit r, number_int s = Ok (lit, r) -> length r < length s.
Proof.
  unfold number_int. destruct s as [|c s]; [split; discriminate|].
  destruct (Ascii.eqb c "0").
  { split; [discriminate|]. intros ? ? [= <- <-]. simpl. lia. }
  destruct (isDigit c); [|split; [other_error|discriminate]].
  pose proof (digits_length s). destruct (digits s) as [d r].
  split; [discriminate|]. intros ? ? [= <- <-]. simpl in *. lia.
Qed.

Lemma number_frac_steps s :
  number_frac s <> Fail out_of_steps
  /\ forall lit r, number_frac s = Ok (lit, r) -> length r <= length s.
Proof.
  unfold number_frac. destruct s as [|p s].
  { split; [discriminate|]. intros ? ? [= <- <-]. lia. }
  destruct (Ascii.eqb p ".").
  2:{ split; [discriminate|]. intros ? ? [= <- <-]. lia. }
  destruct s as [|c s]; [split; discriminate|].
  destruct (isDigit c); [|split; [other_error|discriminate]].
  pose proof (digits_length (c :: s)). destruct (digits (c :: s)) as [d r].
  split; [discriminate|]. intros ? ? [= <- <-]. simpl in *. lia.
Qed.

Lemma number_exp_steps s :
  number_exp s <> Fail out_of_steps
  /\ forall lit r, number_exp s = Ok (lit, r) -> length r <= length s.
Proof.
  unfold number_exp. destruct s as [|c s].
  { split; [discriminate|]. intros ? ? [= <- <-]. lia. }
  destruct (Ascii.eqb c "e" || Ascii.eqb c "E").
  2:{ split; [discriminate|]. intros ? ? [= <- <-]. lia. }
  assert (Hs : forall s'' : bytes, length s'' <= length s ->
            match s'' with
            | [] => Fail unexpected_end
            | c' :: _ =>
                if isDigit c'
                then let '(d, r) := digits s'' in Ok (c :: [] ++ d, r)
                else Fail (invalid_character c' "in exponent of numeric literal")
            end <> Fail out_of_steps
            /\ forall esign lit r,
                 match s'' with
                 | [] => Fail unexpected_end
                 | c' :: _ =>
                     if isDigit c'
                     then let '(d, r) := digits s'' in Ok (c :: esign ++ d, r)
                     else Fail (invalid_character c'
                                  "in exponent of numeric literal")
                 end = Ok (lit, r) -> length r <= length (c :: s)).
  { intros s'' Hle. destruct s'' as [|c' t]; [split; discriminate|].
    destruct (isDigit c'); [|split; [other_error|discriminate]].
    pose proof (digits_length (c' :: t)). destruct (digits (c' :: t)) as [d r].
    split; [discriminate|]. intros ? ? ? [= <- <-]. simpl in *. lia. }
  destruct s as [|c' t].
  - split; discriminate.
  - destruct (Ascii.eqb c' "+" || Ascii.eqb c' "-").
    + destruct (Hs t) as [H1 H2]; [simpl; lia|]. split.
      * destruct t as [|c'' t']; [discriminate|].
        destruct (isDigit c''); [|other_error].
        destruct (digits (c'' :: t')). discriminate.
      * intros lit r. apply (H2 [c']).
    + destruct (Hs (c' :: t)) as [H1 H2]; [simpl; lia|]. split.
      * exact H1.
      * intros lit r. apply (H2 []).
Qed.

Lemma number_steps s :
  number s <> Fail out_of_steps
  /\ forall lit r, number s = Ok (lit, r) -> length r < length s.
Proof.
  unfold number.
  assert (Hs : forall sign s0, length s0 <= length s ->
            ('(int, s1) ← number_int s0;
             '(frac, s2) ← number_frac s1;
             '(exp, s3) ← number_exp s2;
             Ok (sign ++ int ++ frac ++ exp, s3)) <> Fail out_of_steps
            /\ forall lit r,
                 ('(int, s1) ← number_int s0;
                  '(frac, s2) ← number_frac s1;
                  '(exp, s3) ← number_exp s2;
                  Ok (sign ++ int ++ frac ++ exp, s3)) = Ok (lit, r) ->
                 length r < length s).
  { intros sign s0 Hle. unbind.
    destruct (number_int_steps s0) as [I1 I2].
    destruct (number_int s0) as [[int s1]|e]; [|split; [exact I1|discriminate]].
    specialize (I2 _ _ eq_refl).
    destruct (number_frac_steps s1) as [F1 F2].
    destruct (number_frac s1) as [[frac s2]|e]; [|split; [exact F1|discriminate]].
    specialize (F2 _ _ eq_refl).
    destruct (number_exp_steps s2) as [E1 E2].
    destruct (number_exp s2) as [[exp s3]|e]; [|split; [exact E1|discriminate]].
    specialize (E2 _ _ eq_refl).
    split; [discriminate|]. intros ? ? [= <- <-]. lia. }
  destruct s as [|c s']; [apply (Hs [] []); lia|].
  destruct (Ascii.eqb c "-"); apply Hs; simpl; lia.
Qed.

#[local] Ltac leaf :=
  split; [other_error | first [discriminate | intros ? ? [= <- <-]; simpl; lia]].

#[local] Ltac rest_of_string IH :=
  match goal with
  | |- context [string_literal ?x] =>
      let H1 := fresh in
      let H2 := fresh in
      destruct (IH x) as [H1 H2]; [simpl in *; lia|];
      unbind; destruct (string_literal x) as [[? ?]|?];
      [ specialize (H2 _ _ eq_refl);
        split; [discriminate | intros ? ? [= <- <-]; simpl in *; lia]
      | split; [exact H1 | discriminate] ]
  end.

Lemma string_literal_steps n : forall s,
  length s <= n ->
  string_literal s <> Fail out_of_steps
  /\ forall ps r, string_literal s = Ok (ps, r) -> length r < length s.
Proof.
  induction n as [|n IH]; intros s Hn.
  - destruct s; [|simpl in Hn; lia]. simpl. leaf.
  - destruct s as [|c s1]; [simpl; leaf|].
    cbn [string_literal]. cbv zeta.
    repeat first [rest_of_string IH | leaf | case_match].
Qed.

#[local] Ltac spaces :=
  match goal with
  | |- context [skipSpace ?x] =>
      let L := fresh "L" in
      let E := fresh "E" in
      pose proof (skipSpace_length x) as L;
      destruct (skipSpace x) as [|? ?] eqn:E; simpl in L
  end.

(** A result of a sub-scanner that is known not to be [out_of_steps] and
    to shorten the input, under a bind. *)
#[local] Ltac sub H :=
  let H1 := fresh in
  let H2 := fresh in
  destruct H as [H1 H2]; unbind;
  match goal with
  | |- context [match ?call with Ok _ => _ | Fail _ => _ end] =>
      destruct call as [[? ?]|?];
      [ specialize (H2 _ _ eq_refl)
      | split; [intros [= ->]; apply H1; reflexivity | discriminate] ]
  end.

#[local] Ltac sub1 H :=
  let H1 := fresh in
  let H2 := fresh in
  destruct H as [H1 H2]; unbind;
  match goal with
  | |- context [match ?call with Ok _ => _ | Fail _ => _ end] =>
      destruct call as [?|?];
      [ specialize (H2 _ eq_refl)
      | split; [intros [= ->]; apply H1; reflexivity | discriminate] ]
  end.

#[local] Ltac done_ok :=
  split; [other_error | first [discriminate | intros ? ? [= <- <-]; simpl in *; lia]].

Lemma scanner_steps fuel : forall depth s,
  (2 * length s + 1 <= fuel ->
   value fuel depth s <> Fail out_of_steps
   /\ forall v r, value fuel depth s = Ok (v, r) -> length r < length s)
  /\ (2 * length s + 2 <= fuel ->
      elements fuel depth s <> Fail out_of_steps
      /\ forall l r, elements fuel depth s = Ok (l, r) -> length r < length s)
  /\ (2 * length s + 2 <= fuel ->
      members fuel depth s <> Fail out_of_steps
      /\ forall l r, members fuel depth s = Ok (l, r) -> length r < length s).
Proof.
  induction fuel as [|fuel IH]; intros depth s.
  { repeat split; intros; lia. }
  split; [|split]; intros Hf.
  - cbn [value]. spaces; [done_ok|].
    destruct (Ascii.eqb a "{").
    { destruct (maxNestingDepth <=? depth); [done_ok|].
      spaces; [done_ok|].
      destruct (Ascii.eqb a0 "}"); [done_ok|].
      destruct (IH (S depth) l) as (_ & _ & Hm).
      sub (Hm ltac:(lia)). done_ok. }
    destruct (Ascii.eqb a "[").
    { destruct (maxNestingDepth <=? depth); [done_ok|].
      spaces; [done_ok|].
      destruct (Ascii.eqb a0 "]"); [done_ok|].
      destruct (IH (S depth) l) as (_ & He & _).
      sub (He ltac:(lia)). done_ok. }
    destruct (Ascii.eqb a dquote).
    { sub (string_literal_steps _ l (Nat.le_refl _)). done_ok. }
    destruct (Ascii.eqb a "t").
    { sub1 (literal_steps "true" (list_ascii_of_string "rue") l). done_ok. }
    destruct (Ascii.eqb a "f").
    { sub1 (literal_steps "false" (list_ascii_of_string "alse") l). done_ok. }
    destruct (Ascii.eqb a "n").
    { sub1 (literal_steps "null" (list_ascii_of_string "ull") l). done_ok. }
    destruct (Ascii.eqb a "-" || isDigit a); [|done_ok].
    sub (number_steps (a :: l)). done_ok.
  - cbn [elements].
    destruct (IH depth s) as (Hv & _ & _).
    sub (Hv ltac:(lia)).
    spaces; [done_ok|].
    destruct (Ascii.eqb a0 ",").
    { destruct (IH depth l0) as (_ & He & _).
      sub (He ltac:(lia)). done_ok. }
    destruct (Ascii.eqb a0 "]"); done_ok.
  - cbn [members]. spaces; [done_ok|].
    destruct (Ascii.eqb a dquote); [|done_ok].
    sub (string_literal_steps _ l (Nat.le_refl _)).
    spaces; [done_ok|].
    destruct (Ascii.eqb a0 ":"); [|done_ok].
    destruct (IH depth l2) as (Hv & _ & _).
    sub (Hv ltac:(lia)).
    spaces; [done_ok|].
    destruct (Ascii.eqb a2 ",").
    { destruct (IH depth l4) as (_ & _ & Hm).
      sub (Hm ltac:(lia)). done_ok. }
    destruct (Ascii.eqb a2 "}"); done_ok.
Qed.

(** [scan] never reports [out_of_steps]. *)
Lemma scan_steps data : scan data <> Fail out_of_steps.
Proof.
  unfold scan.
  destruct (scanner_steps (2 * length data + 1) 0 data) as (Hv & _ & _).
  destruct (Hv ltac:(lia)) as [H1 _]. unbind.
  destruct (value (2 * length data + 1) 0 data) as [[v r]|e];
    [|intros [= ->]; apply H1; reflexivity].
  destruct (skipSpace r); [discriminate|other_error].
Qed.

End scanner_steps.

(** * The loop of [resolve]

    Both revisions run on_line the same loop around [ReadLine] and differ in what
    they do with a complete line. [pass] and [run] are that loop with the
    handling of a complete line as a parameter; [v1_iteration_pass] and
    [v2_iteration_pass] below show that the two [iteration]s are instances,
    and the facts about the loop are proved once. *)

Section generic_loop.
Import io bufio.

(** What a complete line makes the loop send, and whether the loop goes on. *)
Variable on_line : bytes -> list string * bool.

Lemma pass_returns b buf :
  reader_ok b -> exists out c, pass on_line b buf = Some (out, c) /\ control_ok b c.
Proof.
  intros Hok. unfold pass.
  destruct (ReadLine_returns b Hok)
    as (line & prefix & e & b' & -> & Hok' & Hle & Hlt).
  destruct e as [e|].
  - eexists _, _. split; [reflexivity|exact I].
  - specialize (Hlt eq_refl). destruct prefix.
    + eexists _, _. split; [reflexivity|]. simpl. auto.
    + destruct (on_line (buf ++ line)) as [out [|]];
        eexists _, _; (split; [reflexivity|]); simpl; auto.
Qed.

(** The loop returns: a pass on_line that continues has taken a byte. *)
Lemma run_returns n b buf :
  reader_ok b -> length (stream b) < n -> exists out, run on_line n b buf = Some out.
Proof.
  revert b buf. induction n as [|n IH]; intros b buf Hok Hn; [lia|].
  cbn [run].
  destruct (pass_returns b buf Hok) as (out & c & -> & Hc).
  destruct c as [b' buf'|]; [|eauto].
  destruct Hc as [Hok' Hlt].
  destruct (IH b' buf' Hok') as (out' & ->); [lia|].
  simpl. eauto.
Qed.

(** More passes than needed change nothing. *)
Lemma run_more n m b buf out :
  run on_line n b buf = Some out -> run on_line (n + m) b buf = Some out.
Proof.
  revert b buf out. induction n as [|n IH]; intros b buf out; [discriminate|].
  cbn [run Nat.add].
  destruct (pass on_line b buf) as [[o [b' buf'|]]|]; try discriminate; [|auto].
  destruct (run on_line n b' buf') as [o'|] eqn:E; [|discriminate].
  rewrite (IH _ _ _ E). auto.
Qed.

Lemma ReadLine_same b1 b2 :
  same_stream b1 b2 ->
  exists line prefix e b1' b2',
    ReadLine b1 = Some (line, prefix, e, b1')
    /\ ReadLine b2 = Some (line, prefix, e, b2')
    /\ same_stream b1' b2'.
Proof.
  intros (S1 & S2 & Hsz & Heag & Hfin & Hstr).
  destruct (line_of (size b1) (eager (rd b1)) (final (rd b1)) (stream b1))
    as [[[line prefix] e] rest] eqn:EL.
  destruct (ReadLine_spec b1 S1 _ _ _ _ EL) as (b1' & R1 & A2 & A3 & A4 & A5 & A6).
  rewrite Hsz, Heag, Hfin, Hstr in EL.
  destruct (ReadLine_spec b2 S2 _ _ _ _ EL) as (b2' & R2 & B2 & B3 & B4 & B5 & B6).
  exists line, prefix, e, b1', b2'. unfold same_stream.
  repeat (split; [assumption || congruence|]). congruence.
Qed.

Lemma pass_same b1 b2 buf :
  same_stream b1 b2 ->
  exists out c1 c2,
    pass on_line b1 buf = Some (out, c1) /\ pass on_line b2 buf = Some (out, c2)
    /\ control_same c1 c2.
Proof.
  intros Hsame. unfold pass.
  destruct (ReadLine_same b1 b2 Hsame)
    as (line & prefix & e & b1' & b2' & -> & -> & Hsame').
  destruct e as [e|];
    [eexists _, _, _; split; [reflexivity|]; split; [reflexivity|exact I]|].
  destruct prefix;
    [eexists _, _, _; split; [reflexivity|]; split; [reflexivity|];
     simpl; auto|].
  destruct (on_line (buf ++ line)) as [out [|]];
    eexists _, _, _; (split; [reflexivity|]); (split; [reflexivity|]);
    simpl; auto.
Qed.

(** The loop does not see how the stream is cut into chunks. *)
Lemma run_same n b1 b2 buf :
  same_stream b1 b2 -> run on_line n b1 buf = run on_line n b2 buf.
Proof.
  revert b1 b2 buf. induction n as [|n IH]; intros b1 b2 buf Hsame; [reflexivity|].
  cbn [run].
  destruct (pass_same b1 b2 buf Hsame) as (out & c1 & c2 & -> & -> & Hc).
  destruct c1 as [r1 buf1|], c2 as [r2 buf2|]; simpl in Hc; try contradiction.
  - destruct Hc as [Hs ->]. rewrite (IH r1 r2 buf2 Hs). reflexivity.
  - reflexivity.
Qed.

End generic_loop.

(** * Logical lines

    A line that ends in LF reaches the decoder whole, however long it is:
    the fragments of a line longer than the buffer are put together again. *)

Lemma unsplit_chunked s : Forall (fun c : bytes => c <> []) (unsplit s).
Proof. destruct s; simpl; repeat constructor. discriminate. Qed.

Lemma concat_unsplit s : concat (unsplit s) = s.
Proof. destruct s; simpl; [reflexivity|]. now rewrite app_nil_r. Qed.

Section logical_lines.
Import io bufio.

Lemma drop_eol_snoc l : drop_eol (l ++ [LF]) = strip_cr l.
Proof.
  unfold drop_eol, last_byte. rewrite last_snoc. simpl.
  rewrite removelast_last. reflexivity.
Qed.

Lemma strip_cr_app a b : b <> [] -> strip_cr (a ++ b) = a ++ strip_cr b.
Proof.
  intros Hb. unfold strip_cr. rewrite last_app.
  destruct (last b) as [c|] eqn:E.
  - destruct (Ascii.eqb c CR); [apply removelast_app; assumption|reflexivity].
  - apply last_None in E. contradiction.
Qed.

Lemma IndexByte_drop_None s c n :
  IndexByte s c = None -> IndexByte (drop n s) c = None.
Proof.
  intros Hs. rewrite <- (take_drop n s), IndexByte_app in Hs.
  destruct (IndexByte (take n s) c); [discriminate|].
  destruct (IndexByte (drop n s) c); [discriminate|reflexivity].
Qed.

(** A line that fits the buffer comes out of one [ReadLine]. *)
Lemma line_of_short sz eag fin l rest :
  IndexByte l LF = None -> length l < sz ->
  line_of sz eag fin (l ++ LF :: rest) = (strip_cr l, false, None, rest).
Proof.
  intros Hl Hlt. unfold line_of, slice_of.
  assert (Hi : IndexByte (l ++ LF :: rest) LF = Some (length l)).
  { rewrite IndexByte_app, Hl. simpl. f_equal. lia. }
  rewrite (IndexByte_take_Some _ _ _ _ Hi Hlt).
  replace (take (length l + 1) (l ++ LF :: rest)) with (l ++ [LF]).
  2:{ rewrite take_app_ge by lia.
      replace (length l + 1 - length l) with 1 by lia. reflexivity. }
  replace (drop (length l + 1) (l ++ LF :: rest)) with rest.
  2:{ rewrite drop_app_ge by lia.
      replace (length l + 1 - length l) with 1 by lia. reflexivity. }
  rewrite drop_eol_snoc. destruct l; reflexivity.
Qed.

(** A line that does not fit comes out as a first fragment, and the rest of
    the line stays in the stream. *)
Lemma line_of_long sz eag fin l rest :
  2 <= sz -> IndexByte l LF = None -> sz <= length l ->
  exists m,
    1 <= m /\ m <= length l
    /\ line_of sz eag fin (l ++ LF :: rest)
       = (take m l, true, None, drop m l ++ LF :: rest)
    /\ strip_cr l = take m l ++ strip_cr (drop m l).
Proof.
  intros Hsz Hl Hge. unfold line_of, slice_of.
  rewrite take_app_le by lia.
  rewrite (IndexByte_take_None _ _ _ Hl).
  assert (Hlen : length (l ++ LF :: rest) = length l + S (length rest))
    by (rewrite length_app; reflexivity).
  destruct (Nat.ltb_spec (length (l ++ LF :: rest)) sz); [lia|].
  destruct (Nat.eqb_spec (length (l ++ LF :: rest)) sz); [lia|].
  rewrite andb_false_r. simpl orb. cbv iota.
  rewrite drop_app_le by lia.
  assert (Htk : take sz l <> []).
  { intros Hn. apply (f_equal length) in Hn. rewrite length_take in Hn.
    simpl in Hn. lia. }
  destruct (last_Some_length _ Htk) as [c Hc]. unfold last_byte. rewrite Hc.
  destruct (Ascii.eqb c CR) eqn:Ec.
  - apply Ascii.eqb_eq in Ec. subst c.
    apply last_Some in Hc as [l' Hl'].
    assert (Hll : length l' = sz - 1).
    { apply (f_equal length) in Hl'.
      rewrite length_take, length_app in Hl'. simpl in Hl'. lia. }
    assert (Hsplit : l = l' ++ CR :: drop sz l).
    { rewrite <- (take_drop sz l) at 1. rewrite Hl', <- app_assoc. reflexivity. }
    exists (sz - 1).
    assert (Htake : take (sz - 1) l = l').
    { rewrite Hsplit, <- Hll. apply take_app_length. }
    assert (Hdrop : drop (sz - 1) l = CR :: drop sz l).
    { rewrite Hsplit at 1. rewrite <- Hll. apply drop_app_length. }
    split; [lia|]. split; [lia|]. split.
    + rewrite Hl', removelast_last, Htake, Hdrop. reflexivity.
    + rewrite <- strip_cr_app by (rewrite Hdrop; discriminate).
      rewrite take_drop. reflexivity.
  - exists sz. split; [lia|]. split; [lia|]. split; [reflexivity|].
    destruct (drop sz l) as [|x t] eqn:Ed.
    + rewrite app_nil_r.
      assert (Hall : take sz l = l).
      { rewrite <- (take_drop sz l) at 2. rewrite Ed, app_nil_r. reflexivity. }
      rewrite Hall in *. unfold strip_cr. rewrite Hc, Ec. reflexivity.
    + rewrite <- Ed. rewrite <- strip_cr_app by (rewrite Ed; discriminate).
      rewrite take_drop. reflexivity.
Qed.

End logical_lines.

Section line_loop.
Import io bufio.
Variable on_line : bytes -> list string * bool.

(** From anywhere in front of a line [l] that ends in LF, the loop reaches
    the handling of [l] (without its CR), with all of [l] in the buffer, in
    at most [length l] passes that send nothing. *)
Lemma run_line N :
  forall l b buf rest,
    length l <= N -> synced b -> 2 <= size b ->
    stream b = l ++ LF :: rest -> IndexByte l LF = None ->
    exists k b',
      k <= length l /\ synced b' /\ size b' = size b
      /\ eager (rd b') = eager (rd b) /\ final (rd b') = final (rd b)
      /\ stream b' = rest
      /\ forall n, run on_line (k + S n) b buf
                   = after_line on_line n b' (buf ++ strip_cr l).
Proof.
  induction N as [|N IH]; intros l b buf rest HN Hs Hsz Hstr Hl;
    destruct (Nat.lt_ge_cases (length l) (size b)) as [Hlt|Hge];
    try lia.
  1,2: pose proof (line_of_short (size b) (eager (rd b)) (final (rd b)) l rest Hl Hlt)
        as HL; rewrite <- Hstr in HL;
      destruct (ReadLine_spec b Hs _ _ _ _ HL) as (b' & R & A1 & A2 & A3 & A4 & A5);
      exists 0, b'; repeat (split; [assumption || lia|]);
      intros n; cbn [run Nat.add]; unfold pass, after_line; rewrite R; simpl;
      destruct (on_line (buf ++ strip_cr l)) as [out [|]]; reflexivity.
  - idtac.
    + destruct (line_of_long (size b) (eager (rd b)) (final (rd b)) l rest Hsz Hl Hge)
        as (m & Hm1 & Hm2 & HL & Hcr).
      rewrite <- Hstr in HL.
      destruct (ReadLine_spec b Hs _ _ _ _ HL) as (b1 & R & A1 & A2 & A3 & A4 & A5).
      destruct (IH (drop m l) b1 (buf ++ take m l) rest) as (k & b' & B).
      { rewrite length_drop. lia. } { assumption. } { lia. } { assumption. }
      { apply IndexByte_drop_None, Hl. }
      destruct B as (Hk & B2 & B3 & B4 & B5 & B6 & B7).
      rewrite length_drop in Hk.
      exists (S k), b'. split; [lia|].
      repeat (split; [assumption || congruence|]).
      intros n. cbn [run Nat.add]. unfold pass. rewrite R. simpl.
      rewrite B7, Hcr, <- app_assoc.
      destruct (after_line on_line n b' (buf ++ take m l ++ strip_cr (drop m l)));
        reflexivity.
Qed.

Lemma run_body_same cs cs' fin eag :
  Forall (fun c => c <> []) cs -> Forall (fun c => c <> []) cs' ->
  concat cs = concat cs' -> run_body on_line cs fin eag = run_body on_line cs' fin eag.
Proof.
  intros Hc Hc' Hcat. unfold run_body, pending; cbn [chunks]. rewrite Hcat.
  apply run_same. unfold same_stream.
  split; [apply NewReader_synced; exact Hc|].
  split; [apply NewReader_synced; exact Hc'|].
  repeat (split; [reflexivity|]). exact Hcat.
Qed.

(** The first line of a body, and the rest as a body of its own. *)
Lemma run_first_line cs cs' fin eag l rest :
  Forall (fun c => c <> []) cs -> Forall (fun c => c <> []) cs' ->
  concat cs = l ++ LF :: rest -> concat cs' = rest ->
  IndexByte l LF = None ->
  run_body on_line cs fin eag
  = let '(out, go_on) := on_line (strip_cr l) in
    if go_on then option_map (app out) (run_body on_line cs' fin eag) else Some out.
Proof.
  intros Hc Hc' Hcat Hcat' Hl. unfold run_body.
  pose proof (NewReader_synced (mkBody cs fin eag) Hc) as Hs.
  pose proof (NewReader_synced (mkBody cs' fin eag) Hc') as Hs'.
  destruct (run_line (length l) l (NewReader (mkBody cs fin eag)) [] rest)
    as (k & b' & Hk & B2 & B3 & B4 & B5 & B6 & B7); try assumption.
  { lia. } { apply NewReader_ok. }
  assert (Hpend : pending (mkBody cs fin eag) = length l + S (length rest)).
  { unfold pending; simpl. rewrite Hcat, length_app. reflexivity. }
  assert (Hpend' : pending (mkBody cs' fin eag) = length rest).
  { unfold pending; simpl. rewrite Hcat'. reflexivity. }
  rewrite Hpend, Hpend'.
  replace (S (length l + S (length rest)))
    with (k + S (S (length rest) + (length l - k))) by lia.
  rewrite B7. simpl app. unfold after_line.
  destruct (on_line (strip_cr l)) as [out [|]]; [|reflexivity].
  f_equal.
  assert (Hsame : same_stream b' (NewReader (mkBody cs' fin eag))).
  { unfold same_stream. split; [exact B2|]. split; [exact Hs'|].
    split; [rewrite B3; reflexivity|]. split; [rewrite B4; reflexivity|].
    split; [rewrite B5; reflexivity|]. rewrite B6. unfold stream; simpl.
    symmetry; assumption. }
  rewrite (run_same on_line _ _ _ _ Hsame).
  destruct (run_returns on_line (S (length rest)) (NewReader (mkBody cs' fin eag)) [])
    as (out' & Hout).
  { apply NewReader_ok. }
  { unfold stream; simpl. rewrite Hcat'. lia. }
  rewrite Hout. apply run_more. exact Hout.
Qed.

(** Lines after which the loop goes on, and what follows them as a body of
    its own. *)
Lemma run_lines ls : forall cs cs' fin eag,
  Forall (fun c => c <> []) cs -> Forall (fun c => c <> []) cs' ->
  concat cs = terminated ls ++ concat cs' ->
  Forall (fun l => IndexByte l LF = None) ls ->
  Forall (line_goes_on on_line) ls ->
  run_body on_line cs fin eag
  = option_map (app (concat (map (line_out on_line) ls))) (run_body on_line cs' fin eag).
Proof.
  induction ls as [|l ls IH]; intros cs cs' fin eag Hc Hc' Hcat Hl Hgo.
  - simpl in *. rewrite (run_body_same cs cs' fin eag Hc Hc' Hcat).
    destruct (run_body on_line cs' fin eag); reflexivity.
  - inversion Hl as [|? ? Hl1 Hl2]; inversion Hgo as [|? ? Hg1 Hg2]; subst.
    unfold terminated in Hcat. simpl in Hcat.
    rewrite <- !app_assoc in Hcat. simpl in Hcat.
    fold (terminated ls) in Hcat.
    rewrite (run_first_line cs (unsplit (terminated ls ++ concat cs')) fin eag
               l (terminated ls ++ concat cs') Hc (unsplit_chunked _) Hcat
               (concat_unsplit _) Hl1).
    unfold line_goes_on in Hg1. cbn [map concat].
    change (line_out on_line l) with (fst (on_line (strip_cr l))).
    destruct (on_line (strip_cr l)) as [out go]. simpl in Hg1. subst go.
    rewrite (IH (unsplit (terminated ls ++ concat cs')) cs' fin eag
               (unsplit_chunked _) Hc' (concat_unsplit _) Hl2 Hg2).
    simpl. destruct (run_body on_line cs' fin eag); simpl; [|reflexivity].
    rewrite app_assoc. reflexivity.
Qed.

(** A line anywhere in the stream, after lines that let the loop go on. *)
Lemma run_at_line ls l rest cs fin eag :
  Forall (fun c => c <> []) cs ->
  concat cs = terminated ls ++ l ++ LF :: rest ->
  Forall (fun l => IndexByte l LF = None) (l :: ls) ->
  Forall (line_goes_on on_line) ls ->
  run_body on_line cs fin eag
  = option_map (app (concat (map (line_out on_line) ls)))
      (let '(out, go_on) := on_line (strip_cr l) in
       if go_on then option_map (app out) (run_body on_line (unsplit rest) fin eag)
       else Some out).
Proof.
  intros Hc Hcat Hl Hgo. inversion Hl as [|? ? Hl1 Hl2]; subst.
  rewrite (run_lines ls cs (unsplit (l ++ LF :: rest)) fin eag Hc
             (unsplit_chunked _)); try assumption.
  2:{ rewrite concat_unsplit. exact Hcat. }
  f_equal.
  apply (run_first_line (unsplit (l ++ LF :: rest)) (unsplit rest) fin eag l rest);
    try assumption; apply unsplit_chunked || apply concat_unsplit.
Qed.

(** An unterminated stream that fills the buffer exactly, from a body that
    reports its end on a read of its own: one fragment, then the read error
    with the fragment still in the accumulation buffer. *)
Lemma run_tail_full cs fin s :
  Forall (fun c => c <> []) cs -> concat cs = s ->
  IndexByte s LF = None -> length s = defaultBufSize -> last s <> Some CR ->
  run_body on_line cs fin false = Some (at_read_error fin s).
Proof.
  intros Hc Hcat Hl Hlen Hlast.
  pose proof (NewReader_synced (mkBody cs fin false) Hc) as Hs.
  set (b := NewReader (mkBody cs fin false)) in *.
  assert (Hstr : stream b = s) by (unfold stream; simpl; exact Hcat).
  assert (Hsz : size b = defaultBufSize) by reflexivity.
  assert (H1 : line_of (size b) (eager (rd b)) (final (rd b)) (stream b)
               = (s, true, None, [])).
  { rewrite Hstr, Hsz. unfold line_of, slice_of; simpl eager.
    rewrite (IndexByte_take_None _ _ _ Hl), Hlen, Nat.ltb_irrefl. cbn [orb andb].
    rewrite <- Hlen, take_ge, drop_ge by lia.
    unfold last_byte. destruct (last s) as [c|] eqn:E; [|reflexivity].
    destruct (Ascii.eqb_spec c CR); [congruence|reflexivity]. }
  destruct (ReadLine_spec b Hs _ _ _ _ H1) as (b1 & R1 & A1 & A2 & A3 & A4 & A5).
  assert (H2 : line_of (size b1) (eager (rd b1)) (final (rd b1)) (stream b1)
               = ([], false, Some fin, [])).
  { rewrite A1, A3, A5, Hsz. reflexivity. }
  destruct (ReadLine_spec b1 A2 _ _ _ _ H2) as (b2 & R2 & _).
  unfold run_body. fold b.
  replace (S (pending (mkBody cs fin false))) with (2 + (defaultBufSize - 1)).
  2:{ unfold pending; simpl chunks. rewrite Hcat, Hlen. unfold defaultBufSize. lia. }
  apply run_more. cbn [run]. unfold pass. rewrite R1. cbn iota beta.
  rewrite R2. cbn [option_map app]. rewrite app_nil_r. reflexivity.
Qed.

End line_loop.

(** * The two revisions as instances of the loop *)

Lemma sends_map_Send out defers :
  sends (map Send out ++ defers) = out ++ sends defers.
Proof. induction out as [|x out IH]; simpl; [reflexivity|]. now rewrite IH. Qed.

Lemma not_In_map_Send e out : (forall msg, e <> Send msg) -> ~ In e (map Send out).
Proof.
  intros He Hin. apply in_map_iff in Hin as (msg & <- & _). now apply (He msg).
Qed.

Section revision_2.
Import io bufio json chat_v2.
Variable json_Unmarshal : bytes -> result block.
Variable json_Marshal : option (list any) -> result bytes.

#[local] Abbreviation on_line2 := (v2_on_line json_Unmarshal json_Marshal).

Lemma v2_iteration_pass r buf :
  iteration json_Unmarshal json_Marshal r buf = pass on_line2 r buf.
Proof.
  unfold iteration, pass, v2_on_line, at_read_error.
  repeat case_scrutinee; try reflexivity; congruence.
Qed.

Lemma v2_loop_run n r buf :
  loop json_Unmarshal json_Marshal n r buf = run on_line2 n r buf.
Proof.
  revert r buf. induction n as [|n IH]; intros r buf; [reflexivity|].
  cbn [loop run]. rewrite v2_iteration_pass.
  destruct (pass on_line2 r buf) as [[out [r' buf'|]]|];
    try reflexivity.
  rewrite IH. reflexivity.
Qed.

Lemma v2_resolve_run rd0 :
  resolve json_Unmarshal json_Marshal rd0
  = option_map (fun out => map Send out ++ [CloseBody; CloseChan])
               (run on_line2 (S (pending rd0)) (NewReader rd0) []).
Proof. unfold resolve. rewrite v2_loop_run. reflexivity. Qed.

Lemma v2_emitted_run rd0 :
  emitted (resolve json_Unmarshal json_Marshal rd0)
  = run_body on_line2 (chunks rd0) (final rd0) (eager rd0).
Proof.
  destruct rd0 as [cs fin eag]. unfold run_body; cbn [chunks final eager].
  set (rd0 := mkBody cs fin eag).
  unfold emitted. rewrite v2_resolve_run.
  destruct (run on_line2 (S (pending rd0)) (NewReader rd0) []) as [out|];
    simpl; [|reflexivity].
  rewrite sends_map_Send. simpl. now rewrite app_nil_r.
Qed.

(** [resolve] returns, for every body. *)
Lemma v2_resolve_returns rd0 :
  exists out, resolve json_Unmarshal json_Marshal rd0
              = Some (map Send out ++ [CloseBody; CloseChan]).
Proof.
  rewrite v2_resolve_run.
  destruct (run_returns on_line2 (S (pending rd0)) (NewReader rd0) [])
    as (out & ->).
  - apply NewReader_ok.
  - unfold stream, pending. simpl. lia.
  - exists out. reflexivity.
Qed.

(** What the consumer receives is defined, for every body. *)
Lemma v2_emitted_returns rd0 :
  exists out, emitted (resolve json_Unmarshal json_Marshal rd0) = Some out.
Proof.
  destruct (v2_resolve_returns rd0) as (out & ->). simpl. eauto.
Qed.

(** The first line of a body and what follows it. *)
Lemma v2_first_line cs cs' fin eag l rest :
  Forall (fun c => c <> []) cs -> Forall (fun c => c <> []) cs' ->
  concat cs = l ++ LF :: rest -> concat cs' = rest ->
  IndexByte l LF = None ->
  emitted (resolve json_Unmarshal json_Marshal (mkBody cs fin eag))
  = let '(out, go_on) := on_line2 (strip_cr l) in
    if go_on
    then option_map (app out)
           (emitted (resolve json_Unmarshal json_Marshal (mkBody cs' fin eag)))
    else Some out.
Proof.
  intros. rewrite !v2_emitted_run. cbn [chunks final eager].
  erewrite run_first_line by eassumption. reflexivity.
Qed.

(** A line anywhere in the stream, after lines that let the loop go on. *)
Lemma v2_at_line cs ls l rest fin eag :
  Forall (fun c => c <> []) cs ->
  concat cs = terminated ls ++ l ++ LF :: rest ->
  Forall (fun l => IndexByte l LF = None) (l :: ls) ->
  Forall (line_goes_on on_line2) ls ->
  emitted (resolve json_Unmarshal json_Marshal (mkBody cs fin eag))
  = option_map (app (concat (map (line_out on_line2) ls)))
      (let '(out, go_on) := on_line2 (strip_cr l) in
       if go_on
       then option_map (app out)
              (emitted (resolve json_Unmarshal json_Marshal
                          (mkBody (unsplit rest) fin eag)))
       else Some out).
Proof.
  intros Hc Hcat Hl Hgo. rewrite !v2_emitted_run. cbn [chunks final eager].
  apply run_at_line; assumption.
Qed.

End revision_2.

Section revision_1.
Import io bufio json chat_v1.
Variable json_Unmarshal : bytes -> result block.

#[local] Abbreviation on_line1 := (v1_on_line json_Unmarshal).

Lemma v1_iteration_pass r buf :
  iteration json_Unmarshal r buf = pass on_line1 r buf.
Proof.
  unfold iteration, pass, v1_on_line, at_read_error.
  repeat case_scrutinee; try reflexivity; congruence.
Qed.

Lemma v1_loop_run n r buf :
  loop json_Unmarshal n r buf = run on_line1 n r buf.
Proof.
  revert r buf. induction n as [|n IH]; intros r buf; [reflexivity|].
  cbn [loop run]. rewrite v1_iteration_pass.
  destruct (pass on_line1 r buf) as [[out [r' buf'|]]|];
    try reflexivity.
  rewrite IH. reflexivity.
Qed.

Lemma v1_resolve_run rd0 :
  resolve json_Unmarshal rd0
  = option_map (fun out => map Send out ++ [CloseChan])
               (run on_line1 (S (pending rd0)) (NewReader rd0) []).
Proof. unfold resolve. rewrite v1_loop_run. reflexivity. Qed.

Lemma v1_emitted_run rd0 :
  emitted (resolve json_Unmarshal rd0)
  = run_body on_line1 (chunks rd0) (final rd0) (eager rd0).
Proof.
  destruct rd0 as [cs fin eag]. unfold run_body; cbn [chunks final eager].
  set (rd0 := mkBody cs fin eag).
  unfold emitted. rewrite v1_resolve_run.
  destruct (run on_line1 (S (pending rd0)) (NewReader rd0) []) as [out|];
    simpl; [|reflexivity].
  rewrite sends_map_Send. simpl. now rewrite app_nil_r.
Qed.

Lemma v1_resolve_returns rd0 :
  exists out, resolve json_Unmarshal rd0 = Some (map Send out ++ [CloseChan]).
Proof.
  rewrite v1_resolve_run.
  destruct (run_returns on_line1 (S (pending rd0)) (NewReader rd0) [])
    as (out & ->).
  - apply NewReader_ok.
  - unfold stream, pending. simpl. lia.
  - exists out. reflexivity.
Qed.

Lemma v1_emitted_returns rd0 :
  exists out, emitted (resolve json_Unmarshal rd0) = Some out.
Proof.
  destruct (v1_resolve_returns rd0) as (out & ->). simpl. eauto.
Qed.

Lemma v1_first_line cs cs' fin eag l rest :
  Forall (fun c => c <> []) cs -> Forall (fun c => c <> []) cs' ->
  concat cs = l ++ LF :: rest -> concat cs' = rest ->
  IndexByte l LF = None ->
  emitted (resolve json_Unmarshal (mkBody cs fin eag))
  = let '(out, go_on) := on_line1 (strip_cr l) in
    if go_on
    then option_map (app out)
           (emitted (resolve json_Unmarshal (mkBody cs' fin eag)))
    else Some out.
Proof.
  intros. rewrite !v1_emitted_run. cbn [chunks final eager].
  erewrite run_first_line by eassumption. reflexivity.
Qed.

Lemma v1_at_line cs ls l rest fin eag :
  Forall (fun c => c <> []) cs ->
  concat cs = terminated ls ++ l ++ LF :: rest ->
  Forall (fun l => IndexByte l LF = None) (l :: ls) ->
  Forall (line_goes_on on_line1) ls ->
  emitted (resolve json_Unmarshal (mkBody cs fin eag))
  = option_map (app (concat (map (line_out on_line1) ls)))
      (let '(out, go_on) := on_line1 (strip_cr l) in
       if go_on
       then option_map (app out)
              (emitted (resolve json_Unmarshal (mkBody (unsplit rest) fin eag)))
       else Some out).
Proof.
  intros Hc Hcat Hl Hgo. rewrite !v1_emitted_run. cbn [chunks final eager].
  apply run_at_line; assumption.
Qed.

End revision_1.

(** * Whole streams

    The loop over a stream of lines is a fold over the lines. *)

Section whole_streams.
Import io bufio.
Variable on_line : bytes -> list string * bool.

Lemma drop_eol_no_LF l : IndexByte l LF = None -> drop_eol l = l.
Proof.
  intros Hl. unfold drop_eol, last_byte.
  destruct (last l) as [c|] eqn:E; [|reflexivity].
  apply last_Some in E as [l' ->].
  rewrite IndexByte_app in Hl.
  destruct (IndexByte l' LF); [discriminate|].
  simpl in Hl. destruct (Ascii.eqb c LF); [discriminate|reflexivity].
Qed.

(** A body with nothing left: the read error ends the loop. *)
Lemma run_end cs fin eag :
  Forall (fun c => c <> []) cs -> concat cs = [] ->
  run_body on_line cs fin eag = Some (end_out fin).
Proof.
  intros Hc Hcat. rewrite (chunked_concat_nil cs Hc Hcat).
  assert (Hs : synced (NewReader (mkBody [] fin eag)))
    by (apply NewReader_synced; constructor).
  set (b := NewReader (mkBody [] fin eag)) in *.
  assert (H1 : line_of (size b) (eager (rd b)) (final (rd b)) (stream b)
               = ([], false, Some fin, [])) by reflexivity.
  destruct (ReadLine_spec b Hs _ _ _ _ H1) as (b1 & R1 & _).
  unfold run_body. fold b. cbn [run pending chunks concat length].
  unfold pass. rewrite R1. cbn iota beta.
  unfold at_read_error, end_out. simpl. rewrite app_nil_r. reflexivity.
Qed.

(** A last line without LF that does not fill the buffer is handled as a
    complete line, with the bytes as they are; the read error is met only
    if the loop goes on after it. *)
Lemma run_tail_short cs fin eag tail :
  Forall (fun c => c <> []) cs -> concat cs = tail -> tail <> [] ->
  IndexByte tail LF = None -> length tail < defaultBufSize ->
  run_body on_line cs fin eag = Some (last_line_out on_line fin tail).
Proof.
  intros Hc Hcat Hne Hl Hlen.
  pose proof (NewReader_synced (mkBody cs fin eag) Hc) as Hs.
  set (b := NewReader (mkBody cs fin eag)) in *.
  assert (Hstr : stream b = tail) by (unfold stream; simpl; exact Hcat).
  assert (Hsz : size b = defaultBufSize) by reflexivity.
  assert (H1 : line_of (size b) (eager (rd b)) (final (rd b)) (stream b)
               = (tail, false, None, [])).
  { rewrite Hstr, Hsz. unfold line_of, slice_of.
    rewrite (IndexByte_take_None _ _ _ Hl).
    destruct (Nat.ltb_spec (length tail) defaultBufSize); [|lia].
    cbn [orb]. rewrite (drop_eol_no_LF _ Hl).
    destruct tail; [contradiction|reflexivity]. }
  destruct (ReadLine_spec b Hs _ _ _ _ H1) as (b1 & R1 & A1 & A2 & A3 & A4 & A5).
  assert (H2 : line_of (size b1) (eager (rd b1)) (final (rd b1)) (stream b1)
               = ([], false, Some fin, [])).
  { rewrite A1, A3, A5, Hsz. reflexivity. }
  destruct (ReadLine_spec b1 A2 _ _ _ _ H2) as (b2 & R2 & _).
  unfold run_body. fold b.
  replace (S (pending (mkBody cs fin eag))) with (2 + (length tail - 1)).
  2:{ unfold pending; simpl chunks. rewrite Hcat.
      destruct tail; [contradiction|simpl; lia]. }
  apply run_more. cbn [run]. unfold pass. rewrite R1. cbn iota beta.
  cbn [app]. unfold last_line_out.
  destruct (on_line tail) as [out [|]]; [|reflexivity].
  rewrite R2. cbn iota beta. cbn [option_map app].
  unfold at_read_error, end_out. simpl. rewrite app_nil_r. reflexivity.
Qed.

(** Lines that end in LF, then what follows them as a body of its own. *)
Lemma run_stream ls : forall cs cs' fin eag k,
  Forall (fun c => c <> []) cs -> Forall (fun c => c <> []) cs' ->
  concat cs = terminated ls ++ concat cs' ->
  Forall (fun l => IndexByte l LF = None) ls ->
  run_body on_line cs' fin eag = Some k ->
  run_body on_line cs fin eag = Some (lines_then on_line ls k).
Proof.
  induction ls as [|l ls IH]; intros cs cs' fin eag k Hc Hc' Hcat Hl Hk.
  - simpl in *. rewrite (run_body_same on_line cs cs' fin eag Hc Hc' Hcat).
    exact Hk.
  - inversion Hl as [|? ? Hl1 Hl2]; subst.
    unfold terminated in Hcat. simpl in Hcat.
    rewrite <- !app_assoc in Hcat. simpl in Hcat.
    fold (terminated ls) in Hcat.
    rewrite (run_first_line on_line cs (unsplit (terminated ls ++ concat cs'))
               fin eag l (terminated ls ++ concat cs') Hc (unsplit_chunked _)
               Hcat (concat_unsplit _) Hl1).
    cbn [lines_then].
    destruct (on_line (strip_cr l)) as [out [|]]; [|reflexivity].
    rewrite (IH (unsplit (terminated ls ++ concat cs')) cs' fin eag k
               (unsplit_chunked _) Hc' (concat_unsplit _) Hl2 Hk).
    reflexivity.
Qed.

(** The lines alone. *)
Lemma run_terminated ls cs fin eag :
  Forall (fun c => c <> []) cs -> concat cs = terminated ls ->
  Forall (fun l => IndexByte l LF = None) ls ->
  run_body on_line cs fin eag = Some (lines_then on_line ls (end_out fin)).
Proof.
  intros Hc Hcat Hl.
  apply (run_stream ls cs [] fin eag); try assumption.
  - constructor.
  - simpl. rewrite app_nil_r. exact Hcat.
  - apply run_end; [constructor|reflexivity].
Qed.

(** The lines and a last line without LF. *)
Lemma run_unterminated ls tail cs fin eag :
  Forall (fun c => c <> []) cs -> concat cs = terminated ls ++ tail ->
  Forall (fun l => IndexByte l LF = None) (tail :: ls) ->
  tail <> [] -> length tail < defaultBufSize ->
  run_body on_line cs fin eag
  = Some (lines_then on_line ls (last_line_out on_line fin tail)).
Proof.
  intros Hc Hcat Hl Hne Hlen. inversion Hl as [|? ? Hl1 Hl2]; subst.
  apply (run_stream ls cs (unsplit tail) fin eag); try assumption.
  - apply unsplit_chunked.
  - rewrite concat_unsplit. exact Hcat.
  - apply run_tail_short; try assumption.
    + apply unsplit_chunked.
    + apply concat_unsplit.
Qed.

(** Two runs that both return have the same result. *)
Lemma run_agree n m b buf out out' :
  run on_line n b buf = Some out -> run on_line m b buf = Some out' ->
  out = out'.
Proof.
  intros Hn Hm.
  apply (run_more on_line n m) in Hn. apply (run_more on_line m n) in Hm.
  rewrite Nat.add_comm in Hm. congruence.
Qed.

Lemma last_not_byte l c : IndexByte l c = None -> last_byte l <> Some c.
Proof.
  intros Hl E. unfold last_byte in E. apply last_Some in E as [l' ->].
  rewrite IndexByte_app in Hl.
  destruct (IndexByte l' c); [discriminate|].
  simpl in Hl. rewrite Ascii.eqb_refl in Hl. discriminate.
Qed.

(** What the loop sends for a last line [tail] that no LF ends, after the
    bytes [buf] of it that are accumulated already: the line is handled as
    a complete one, unless its end falls on the end of a full buffer and
    the body reports its end on a read of its own. *)
Lemma run_tail N : forall tail b buf,
  length tail <= N -> synced b -> 2 <= size b -> stream b = tail ->
  IndexByte tail LF = None -> IndexByte tail CR = None -> tail <> [] ->
  exists k,
    run on_line k b buf
    = Some (if (length tail mod size b =? 0) && negb (eager (rd b))
            then at_read_error (final (rd b)) (buf ++ tail)
            else last_line_out on_line (final (rd b)) (buf ++ tail)).
Proof.
  induction N as [|N IH]; intros tail b buf HN Hs Hsz Hstr Hlf Hcr Hne.
  { destruct tail; [contradiction|simpl in HN; lia]. }
  assert (Hend : forall b1 buf1,
            synced b1 -> stream b1 = [] -> final (rd b1) = final (rd b) ->
            pass on_line b1 buf1
            = Some (at_read_error (final (rd b)) buf1, Return)).
  { intros b1 buf1 Hs1 Hstr1 Hfin1.
    assert (H1 : line_of (size b1) (eager (rd b1)) (final (rd b1)) (stream b1)
                 = ([], false, Some (final (rd b)), [])).
    { rewrite Hstr1, Hfin1. unfold line_of, slice_of.
      pose proof Hs1 as (Hsz1 & _).
      destruct (size b1); [lia|reflexivity]. }
    destruct (ReadLine_spec b1 Hs1 _ _ _ _ H1) as (b2 & R & _).
    unfold pass. rewrite R. cbn iota beta. rewrite app_nil_r. reflexivity. }
  assert (Hwhole : line_of (size b) (eager (rd b)) (final (rd b)) (stream b)
                   = (tail, false, None, []) ->
                   exists k,
                     run on_line k b buf
                     = Some (last_line_out on_line (final (rd b)) (buf ++ tail))).
  { intros H1.
    destruct (ReadLine_spec b Hs _ _ _ _ H1) as (b1 & R1 & A1 & A2 & A3 & A4 & A5).
    exists 2. cbn [run]. unfold pass at 1. rewrite R1. cbn iota beta.
    unfold last_line_out.
    destruct (on_line (buf ++ tail)) as [out [|]]; [|reflexivity].
    rewrite (Hend b1 [] A2 A1 A5). cbn [option_map].
    unfold at_read_error, end_out. simpl. rewrite app_nil_r. reflexivity. }
  destruct (Nat.lt_trichotomy (length tail) (size b)) as [Hlt|[Heq|Hgt]].
  - (* the line does not fill the buffer *)
    rewrite Nat.mod_small by assumption.
    destruct (Nat.eqb_spec (length tail) 0) as [H0|_];
      [destruct tail; [contradiction|discriminate H0]|].
    cbn [andb]. apply Hwhole.
    rewrite Hstr. unfold line_of, slice_of.
    rewrite (IndexByte_take_None _ _ _ Hlf).
    destruct (Nat.ltb_spec (length tail) (size b)); [|lia].
    cbn [orb]. rewrite (drop_eol_no_LF _ Hlf).
    destruct tail; [contradiction|reflexivity].
  - (* the line fills the buffer exactly *)
    rewrite <- Heq, Nat.Div0.mod_same, Nat.eqb_refl. cbn [andb].
    destruct (eager (rd b)) eqn:Eeag; cbn [negb].
    + apply Hwhole. rewrite Hstr. unfold line_of, slice_of.
      rewrite (IndexByte_take_None _ _ _ Hlf), Heq, Nat.eqb_refl.
      rewrite orb_true_r. rewrite (drop_eol_no_LF _ Hlf).
      destruct tail; [contradiction|reflexivity].
    + assert (H1 : line_of (size b) (eager (rd b)) (final (rd b)) (stream b)
                   = (tail, true, None, [])).
      { rewrite Hstr, Eeag. unfold line_of, slice_of.
        rewrite (IndexByte_take_None _ _ _ Hlf), <- Heq, Nat.ltb_irrefl.
        cbn [orb andb]. rewrite take_ge, drop_ge by lia.
        pose proof (last_not_byte _ _ Hcr) as Hlast.
        destruct (last_byte tail) as [c|]; [|reflexivity].
        destruct (Ascii.eqb_spec c CR); [congruence|reflexivity]. }
      destruct (ReadLine_spec b Hs _ _ _ _ H1)
        as (b1 & R1 & A1 & A2 & A3 & A4 & A5).
      exists 2. cbn [run]. unfold pass at 1. rewrite R1. cbn iota beta.
      rewrite (Hend b1 _ A2 A1 A5). reflexivity.
  - (* a first fragment, and the rest of the line *)
    assert (H1 : line_of (size b) (eager (rd b)) (final (rd b)) (stream b)
                 = (take (size b) tail, true, None, drop (size b) tail)).
    { rewrite Hstr. unfold line_of, slice_of.
      rewrite (IndexByte_take_None _ _ _ Hlf).
      destruct (Nat.ltb_spec (length tail) (size b)); [lia|].
      destruct (Nat.eqb_spec (length tail) (size b)); [lia|].
      rewrite andb_false_r. cbn [orb].
      pose proof (last_not_byte _ _ (IndexByte_take_None _ _ (size b) Hcr))
        as Hlast.
      destruct (last_byte (take (size b) tail)) as [c|]; [|reflexivity].
      destruct (Ascii.eqb_spec c CR); [congruence|reflexivity]. }
    destruct (ReadLine_spec b Hs _ _ _ _ H1)
      as (b1 & R1 & A1 & A2 & A3 & A4 & A5).
    destruct (IH (drop (size b) tail) b1 (buf ++ take (size b) tail))
      as [k Hk].
    { rewrite length_drop. lia. } { assumption. } { lia. } { assumption. }
    { apply IndexByte_drop_None, Hlf. } { apply IndexByte_drop_None, Hcr. }
    { intros Hn. apply (f_equal length) in Hn. rewrite length_drop in Hn.
      simpl in Hn. lia. }
    exists (S k). cbn [run]. unfold pass. rewrite R1. cbn iota beta.
    rewrite Hk. cbn [option_map app].
    rewrite A3, A4, A5, length_drop, <- app_assoc, take_drop.
    replace ((length tail - size b) mod size b) with (length tail mod size b).
    2:{ rewrite <- (Nat.Div0.mod_add (length tail - size b) 1 (size b)).
        f_equal. lia. }
    reflexivity.
Qed.

(** The lines and a last line without LF, of any length. *)
Lemma run_unterminated_long ls tail cs fin eag :
  Forall (fun c => c <> []) cs -> concat cs = terminated ls ++ tail ->
  Forall (fun l => IndexByte l LF = None) (tail :: ls) ->
  IndexByte tail CR = None -> tail <> [] ->
  run_body on_line cs fin eag
  = Some (lines_then on_line ls
            (if (length tail mod defaultBufSize =? 0) && negb eag
             then at_read_error fin tail
             else last_line_out on_line fin tail)).
Proof.
  intros Hc Hcat Hl Hcr Hne. inversion Hl as [|? ? Hl1 Hl2]; subst.
  apply (run_stream ls cs (unsplit tail) fin eag); try assumption.
  - apply unsplit_chunked.
  - rewrite concat_unsplit. exact Hcat.
  - pose proof (NewReader_synced (mkBody (unsplit tail) fin eag)
                  (unsplit_chunked _)) as Hs.
    destruct (run_tail (length tail) tail
                (NewReader (mkBody (unsplit tail) fin eag)) [])
      as [k Hk]; try assumption.
    { lia. } { apply NewReader_ok. }
    { unfold stream; simpl. apply concat_unsplit. }
    destruct (run_returns on_line
                (S (pending (mkBody (unsplit tail) fin eag)))
                (NewReader (mkBody (unsplit tail) fin eag)) [])
      as (out & Hout).
    { apply NewReader_ok. }
    { unfold stream, pending; simpl. lia. }
    unfold run_body. rewrite Hout. f_equal.
    apply (run_agree _ _ _ _ _ _ Hout Hk).
Qed.

End whole_streams.

(** * The behaviour of [resolve] *)

Section claims.
Import io bufio json.

(** C1. Chunk-boundary independence, as far as the code has it. Two
    bodies that deliver the same bytes and report their end in the same
    way make [resolve] return the same trace, however each of them cuts
    the bytes into chunks (no chunk is empty: a body does not return 0
    bytes without an error); every chunking gives the trace of the unsplit
    stream. When every line of the stream ends in LF, the way the end is
    reported does not matter either, and the events are those of the
    logical lines: every line reaches the decoder whole, once and in
    order, however long it is and in however many fragments [ReadLine]
    hands it out. *)
Theorem resolve_chunk_independent
    (json_Unmarshal : bytes -> result chat_v2.block)
    (json_Marshal : option (list any) -> result bytes)
    (cs1 cs2 : list bytes) (fin : error) :
  Forall (fun c => c <> []) cs1 ->
  Forall (fun c => c <> []) cs2 ->
  concat cs1 = concat cs2 ->
  (forall eag,
     exists tr,
       chat_v2.resolve json_Unmarshal json_Marshal (mkBody cs1 fin eag)
       = Some tr
       /\ chat_v2.resolve json_Unmarshal json_Marshal (mkBody cs2 fin eag)
          = Some tr
       /\ chat_v2.resolve json_Unmarshal json_Marshal
            (mkBody (unsplit (concat cs1)) fin eag) = Some tr)
  /\ (forall ls eag1 eag2,
        concat cs1 = terminated ls ->
        Forall (fun l => IndexByte l LF = None) ls ->
        emitted (chat_v2.resolve json_Unmarshal json_Marshal
                   (mkBody cs1 fin eag1))
        = Some (lines_then (v2_on_line json_Unmarshal json_Marshal) ls
                  (end_out fin))
        /\ emitted (chat_v2.resolve json_Unmarshal json_Marshal
                      (mkBody cs2 fin eag2))
           = Some (lines_then (v2_on_line json_Unmarshal json_Marshal) ls
                     (end_out fin))).
Proof.
  intros H1 H2 Hcat. split.
  - intros eag.
    destruct (v2_resolve_returns json_Unmarshal json_Marshal
                (mkBody cs1 fin eag)) as (out & Hout).
    exists (map Send out ++ [CloseBody; CloseChan]).
    split; [exact Hout|].
    assert (Hsame : forall cs, Forall (fun c : bytes => c <> []) cs ->
              concat cs = concat cs1 ->
              chat_v2.resolve json_Unmarshal json_Marshal (mkBody cs fin eag)
              = chat_v2.resolve json_Unmarshal json_Marshal
                  (mkBody cs1 fin eag)).
    { intros cs Hc Hcs. rewrite !v2_resolve_run. f_equal.
      unfold pending; cbn [chunks]. rewrite Hcs. apply run_same.
      unfold same_stream.
      split; [apply NewReader_synced; exact Hc|].
      split; [apply NewReader_synced; exact H1|].
      repeat (split; [reflexivity|]).
      unfold stream; simpl. exact Hcs. }
    split.
    + rewrite (Hsame cs2 H2 (eq_sym Hcat)). exact Hout.
    + rewrite (Hsame _ (unsplit_chunked _) (concat_unsplit _)). exact Hout.
  - intros ls eag1 eag2 Hls Hl. split.
    + rewrite v2_emitted_run. cbn [chunks final eager].
      apply run_terminated; assumption.
    + rewrite v2_emitted_run. cbn [chunks final eager].
      apply run_terminated; try assumption. rewrite <- Hcat. exact Hls.
Qed.

Lemma resolve_chunk_independent_witness :
  (exists tr,
     chat_v2.resolve chat_v2.Unmarshal Marshal
       (mkBody [wire "{'event_type':'text-generation','text':'a'}|{'event_type':'text-gen";
                wire "eration','text':'" ++ repeat "a"%char 4500;
                wire "'}|{'is_fin"; wire "ished':true}|"] EOF false) = Some tr
     /\ chat_v2.resolve chat_v2.Unmarshal Marshal
          (mkBody [wire "{'event_type':'text-generation','text':'a'}|";
                   long_line ++ [LF]; wire "{'is_finished':true}|"]
                  EOF false) = Some tr
     /\ chat_v2.resolve chat_v2.Unmarshal Marshal
          (mkBody (unsplit (concat
             [wire "{'event_type':'text-generation','text':'a'}|{'event_type':'text-gen";
              wire "eration','text':'" ++ repeat "a"%char 4500;
              wire "'}|{'is_fin"; wire "ished':true}|"])) EOF false)
        = Some tr)
  /\ emitted (chat_v2.resolve chat_v2.Unmarshal Marshal
                (mkBody [wire "{'event_type':'text-generation','text':'a'}|{'event_type':'text-gen";
                         wire "eration','text':'" ++ repeat "a"%char 4500;
                         wire "'}|{'is_fin"; wire "ished':true}|"] EOF true))
     = Some (lines_then (v2_on_line chat_v2.Unmarshal Marshal)
               [wire "{'event_type':'text-generation','text':'a'}";
                long_line; wire "{'is_finished':true}"]
               (end_out EOF))
  /\ emitted (chat_v2.resolve chat_v2.Unmarshal Marshal
                (mkBody [wire "{'event_type':'text-generation','text':'a'}|";
                         long_line ++ [LF]; wire "{'is_finished':true}|"]
                        EOF false))
     = Some (lines_then (v2_on_line chat_v2.Unmarshal Marshal)
               [wire "{'event_type':'text-generation','text':'a'}";
                long_line; wire "{'is_finished':true}"]
               (end_out EOF)).
Proof.
  destruct (resolve_chunk_independent chat_v2.Unmarshal Marshal
              [wire "{'event_type':'text-generation','text':'a'}|{'event_type':'text-gen";
               wire "eration','text':'" ++ repeat "a"%char 4500;
               wire "'}|{'is_fin"; wire "ished':true}|"]
              [wire "{'event_type':'text-generation','text':'a'}|";
               long_line ++ [LF]; wire "{'is_finished':true}|"]
              EOF) as [Ha Hb].
  - repeat constructor; discriminate.
  - repeat constructor; discriminate.
  - vm_compute. reflexivity.
  - split; [apply Ha|].
    apply (Hb [wire "{'event_type':'text-generation','text':'a'}";
               long_line; wire "{'is_finished':true}"] true false).
    + vm_compute. reflexivity.
    + repeat (constructor; [vm_compute; reflexivity|]). constructor.
Defined.

(** The line of 4542 bytes comes out in two fragments and is decoded as
    one line. *)
Example long_line_reassembled :
  emitted (chat_v2.resolve chat_v2.Unmarshal Marshal
             (mkBody [wire "{'event_type':'text-generation','text':'a'}|{'event_type':'text-gen";
                      wire "eration','text':'" ++ repeat "a"%char 4500;
                      wire "'}|{'is_fin"; wire "ished':true}|"] EOF true))
  = Some ["text: a";
          "text: " +:+ string_of_list_ascii (repeat "a"%char 4500)].
Proof. vm_compute. reflexivity. Qed.

(** The claim without the condition on the end of the body fails: the same
    bytes with the same final error, here one line of 4096 bytes without
    LF, are decoded when the body reports its end with them, and sent as
    they are when it reports it on the next read. *)
Lemma end_of_body_changes_events :
  emitted (chat_v2.resolve chat_v2.Unmarshal Marshal
             (mkBody [full_buffer_line] EOF true))
  <> emitted (chat_v2.resolve chat_v2.Unmarshal Marshal
                (mkBody [full_buffer_line] EOF false)).
Proof. vm_compute. discriminate. Qed.

Example full_buffer_line_both_ways :
  length full_buffer_line = defaultBufSize
  /\ emitted (chat_v2.resolve chat_v2.Unmarshal Marshal
                (mkBody [full_buffer_line] EOF true))
     = Some ["text: " +:+ string_of_list_ascii (repeat "a"%char 4054)]
  /\ emitted (chat_v2.resolve chat_v2.Unmarshal Marshal
                (mkBody [full_buffer_line] EOF false))
     = Some ["text: " +:+ string_of_list_ascii full_buffer_line].
Proof. vm_compute. repeat split. Qed.

(** C2. Every run of [resolve] returns, under every decoder and encoder and
    for every body, so on every path out of the loop (end of stream, read
    error, decode error, encode error, finished block), and its trace ends
    with the one [close(ch)]: every send comes before it. Both revisions. *)
Theorem resolve_closes_channel_once
    (json_Unmarshal : bytes -> result chat_v2.block)
    (json_Marshal : option (list any) -> result bytes)
    (json_Unmarshal1 : bytes -> result chat_v1.block)
    (response_Body : Body) :
  (exists tr, chat_v2.resolve json_Unmarshal json_Marshal response_Body = Some tr
              /\ closes_channel_last tr)
  /\ (exists tr, chat_v1.resolve json_Unmarshal1 response_Body = Some tr
                 /\ closes_channel_last tr).
Proof.
  split.
  - destruct (v2_resolve_returns json_Unmarshal json_Marshal response_Body)
      as (out & ->).
    eexists. split; [reflexivity|].
    exists (map Send out ++ [CloseBody]). split.
    + rewrite <- app_assoc. reflexivity.
    + intros Hin. apply in_app_or in Hin as [Hin|[Hin|[]]]; [|discriminate].
      revert Hin. apply not_In_map_Send. discriminate.
  - destruct (v1_resolve_returns json_Unmarshal1 response_Body) as (out & ->).
    eexists. split; [reflexivity|].
    exists (map Send out). split; [reflexivity|].
    apply not_In_map_Send. discriminate.
Qed.

(** C3. The revision with tool calls closes the response body on every
    path, before it closes the channel; the first revision (chat.go) never
    closes it: its [resolve] has no [response.Body.Close()]. *)
Theorem body_closed_by_v2_not_by_v1
    (json_Unmarshal : bytes -> result chat_v2.block)
    (json_Marshal : option (list any) -> result bytes)
    (json_Unmarshal1 : bytes -> result chat_v1.block)
    (response_Body : Body) :
  (exists tr, chat_v2.resolve json_Unmarshal json_Marshal response_Body = Some tr
              /\ In CloseBody tr)
  /\ (exists tr, chat_v1.resolve json_Unmarshal1 response_Body = Some tr
                 /\ ~ In CloseBody tr).
Proof.
  split.
  - destruct (v2_resolve_returns json_Unmarshal json_Marshal response_Body)
      as (out & ->).
    eexists. split; [reflexivity|].
    apply in_or_app. right. left. reflexivity.
  - destruct (v1_resolve_returns json_Unmarshal1 response_Body) as (out & ->).
    eexists. split; [reflexivity|].
    intros Hin. apply in_app_or in Hin as [Hin|[Hin|[]]]; [|discriminate].
    revert Hin. apply not_In_map_Send. discriminate.
Qed.

(** C4. A complete line that does not decode, after lines that let the loop
    go on: [resolve] sends what those lines made it send, then the one
    event ["error: "] with the decode error's text, and returns; whatever
    follows the line in the stream ([rest]) is not read. Both revisions. *)
Theorem malformed_line_is_fatal
    (cs ls : list bytes) (l rest : bytes) (fin : error) (eag : bool) :
  Forall (fun c => c <> []) cs ->
  concat cs = terminated ls ++ l ++ LF :: rest ->
  Forall (fun l => IndexByte l LF = None) (l :: ls) ->
  (forall json_Unmarshal json_Marshal e,
     Forall (line_goes_on (v2_on_line json_Unmarshal json_Marshal)) ls ->
     json_Unmarshal (strip_cr l) = Fail e ->
     emitted (chat_v2.resolve json_Unmarshal json_Marshal (mkBody cs fin eag))
     = Some (concat (map (line_out (v2_on_line json_Unmarshal json_Marshal)) ls)
             ++ ["error: " +:+ Error e]))
  /\ (forall json_Unmarshal e,
        Forall (line_goes_on (v1_on_line json_Unmarshal)) ls ->
        json_Unmarshal (strip_cr l) = Fail e ->
        emitted (chat_v1.resolve json_Unmarshal (mkBody cs fin eag))
        = Some (concat (map (line_out (v1_on_line json_Unmarshal)) ls)
                ++ ["error: " +:+ Error e])).
Proof.
  intros Hc Hcat Hl. split.
  - intros U M e Hgo HU. rewrite (v2_at_line _ _ cs ls l rest fin eag Hc Hcat Hl Hgo).
    unfold v2_on_line at 2. rewrite HU. reflexivity.
  - intros U e Hgo HU. rewrite (v1_at_line _ cs ls l rest fin eag Hc Hcat Hl Hgo).
    unfold v1_on_line at 2. rewrite HU. reflexivity.
Qed.

Lemma malformed_line_is_fatal_witness :
  emitted (chat_v2.resolve chat_v2.Unmarshal Marshal
             (mkBody [wire "{'event_type':'text-generation','text':'a'}|not js";
                      wire "on|{'event_type':'text-generation','text':'b'}|"]
                     EOF false))
  = Some ["text: a";
          "error: invalid character 'o' in literal null (expecting 'u')"]
  /\ emitted (chat_v1.resolve chat_v1.Unmarshal
                (mkBody [wire "{'event_type':'text-generation','text':'a'}|not js";
                         wire "on|{'event_type':'text-generation','text':'b'}|"]
                        EOF false))
     = Some ["text: a";
             "error: invalid character 'o' in literal null (expecting 'u')"].
Proof.
  destruct (malformed_line_is_fatal
              [wire "{'event_type':'text-generation','text':'a'}|not js";
               wire "on|{'event_type':'text-generation','text':'b'}|"]
              [wire "{'event_type':'text-generation','text':'a'}"]
              (wire "not json")
              (wire "{'event_type':'text-generation','text':'b'}|")
              EOF false) as [H2 H1].
  - repeat constructor; discriminate.
  - vm_compute. reflexivity.
  - repeat constructor.
  - split.
    + apply (H2 chat_v2.Unmarshal Marshal
               (Err "invalid character 'o' in literal null (expecting 'u')")).
      * repeat constructor.
      * vm_compute. reflexivity.
    + apply (H1 chat_v1.Unmarshal
               (Err "invalid character 'o' in literal null (expecting 'u')")).
      * repeat constructor.
      * vm_compute. reflexivity.
Defined.

(** C6. A line that decodes to a block with [is_finished] true, after lines
    that let the loop go on: [resolve] sends what those lines made it send
    and returns; nothing is sent for the line, whatever its other fields,
    and nothing after it. Both revisions. *)
Theorem finished_line_ends_stream
    (cs ls : list bytes) (l rest : bytes) (fin : error) (eag : bool) :
  Forall (fun c => c <> []) cs ->
  concat cs = terminated ls ++ l ++ LF :: rest ->
  Forall (fun l => IndexByte l LF = None) (l :: ls) ->
  (forall json_Unmarshal json_Marshal b,
     Forall (line_goes_on (v2_on_line json_Unmarshal json_Marshal)) ls ->
     json_Unmarshal (strip_cr l) = Ok b ->
     chat_v2.Finished b = true ->
     emitted (chat_v2.resolve json_Unmarshal json_Marshal (mkBody cs fin eag))
     = Some (concat (map (line_out (v2_on_line json_Unmarshal json_Marshal)) ls)))
  /\ (forall json_Unmarshal b,
        Forall (line_goes_on (v1_on_line json_Unmarshal)) ls ->
        json_Unmarshal (strip_cr l) = Ok b ->
        chat_v1.Finished b = true ->
        emitted (chat_v1.resolve json_Unmarshal (mkBody cs fin eag))
        = Some (concat (map (line_out (v1_on_line json_Unmarshal)) ls))).
Proof.
  intros Hc Hcat Hl. split.
  - intros U M b Hgo HU Hfin. rewrite (v2_at_line _ _ cs ls l rest fin eag Hc Hcat Hl Hgo).
    unfold v2_on_line at 2. rewrite HU, Hfin. simpl.
    rewrite app_nil_r. reflexivity.
  - intros U b Hgo HU Hfin. rewrite (v1_at_line _ cs ls l rest fin eag Hc Hcat Hl Hgo).
    unfold v1_on_line at 2. rewrite HU, Hfin. simpl.
    rewrite app_nil_r. reflexivity.
Qed.

Lemma finished_line_ends_stream_witness :
  emitted (chat_v2.resolve chat_v2.Unmarshal Marshal
             (mkBody [wire "{'event_type':'text-generation','text':'a'}|";
                      wire "{'is_finished':true,'event_type':'text-generation','text':'b'}|{'event_type':'text-generation','text':'c'}|"]
                     EOF false))
  = Some ["text: a"]
  /\ emitted (chat_v1.resolve chat_v1.Unmarshal
                (mkBody [wire "{'event_type':'text-generation','text':'a'}|";
                         wire "{'is_finished':true,'event_type':'text-generation','text':'b'}|{'event_type':'text-generation','text':'c'}|"]
                        EOF false))
     = Some ["text: a"].
Proof.
  destruct (finished_line_ends_stream
              [wire "{'event_type':'text-generation','text':'a'}|";
               wire "{'is_finished':true,'event_type':'text-generation','text':'b'}|{'event_type':'text-generation','text':'c'}|"]
              [wire "{'event_type':'text-generation','text':'a'}"]
              (wire "{'is_finished':true,'event_type':'text-generation','text':'b'}")
              (wire "{'event_type':'text-generation','text':'c'}|")
              EOF false) as [H2 H1].
  - repeat constructor; discriminate.
  - vm_compute. reflexivity.
  - repeat constructor.
  - split.
    + apply (H2 chat_v2.Unmarshal Marshal
               (chat_v2.mkBlock true "text-generation" "" "b" "" None)).
      * repeat constructor.
      * vm_compute. reflexivity.
      * reflexivity.
    + apply (H1 chat_v1.Unmarshal
               (chat_v1.mkBlock true "text-generation" "" "b" "")).
      * repeat constructor.
      * vm_compute. reflexivity.
      * reflexivity.
Defined.

(** C7. A line that decodes to an unfinished block of event type
    ["text-generation"], after lines that let the loop go on: [resolve]
    returns, and what it has sent is what those lines made it send, then
    the one event ["text: "] followed by the block's text, then what it
    sends for the rest of the stream taken as a stream of its own (the
    loop goes on with the next line). Both revisions. *)
Theorem text_generation_line
    (cs ls : list bytes) (l rest : bytes) (fin : error) (eag : bool) :
  Forall (fun c => c <> []) cs ->
  concat cs = terminated ls ++ l ++ LF :: rest ->
  Forall (fun l => IndexByte l LF = None) (l :: ls) ->
  (forall json_Unmarshal json_Marshal b,
     Forall (line_goes_on (v2_on_line json_Unmarshal json_Marshal)) ls ->
     json_Unmarshal (strip_cr l) = Ok b ->
     chat_v2.Finished b = false ->
     chat_v2.Event b = "text-generation" ->
     exists following,
       emitted (chat_v2.resolve json_Unmarshal json_Marshal
                  (mkBody (unsplit rest) fin eag)) = Some following
       /\ emitted (chat_v2.resolve json_Unmarshal json_Marshal
                     (mkBody cs fin eag))
          = Some (concat (map (line_out (v2_on_line json_Unmarshal
                                           json_Marshal)) ls)
                  ++ ("text: " +:+ chat_v2.Text b) :: following))
  /\ (forall json_Unmarshal b,
        Forall (line_goes_on (v1_on_line json_Unmarshal)) ls ->
        json_Unmarshal (strip_cr l) = Ok b ->
        chat_v1.Finished b = false ->
        chat_v1.Event b = "text-generation" ->
        exists following,
          emitted (chat_v1.resolve json_Unmarshal
                     (mkBody (unsplit rest) fin eag)) = Some following
          /\ emitted (chat_v1.resolve json_Unmarshal (mkBody cs fin eag))
             = Some (concat (map (line_out (v1_on_line json_Unmarshal)) ls)
                     ++ ("text: " +:+ chat_v1.Text b) :: following)).
Proof.
  intros Hc Hcat Hl. split.
  - intros U M b Hgo HU Hfin Hev.
    destruct (v2_emitted_returns U M (mkBody (unsplit rest) fin eag))
      as [following Hf].
    exists following. split; [exact Hf|].
    rewrite (v2_at_line _ _ cs ls l rest fin eag Hc Hcat Hl Hgo).
    unfold v2_on_line at 2. rewrite HU, Hfin, Hev, Hf. reflexivity.
  - intros U b Hgo HU Hfin Hev.
    destruct (v1_emitted_returns U (mkBody (unsplit rest) fin eag))
      as [following Hf].
    exists following. split; [exact Hf|].
    rewrite (v1_at_line _ cs ls l rest fin eag Hc Hcat Hl Hgo).
    unfold v1_on_line at 2. rewrite HU, Hfin, Hev, Hf. reflexivity.
Qed.

Lemma text_generation_line_witness :
  (exists following,
     emitted (chat_v2.resolve chat_v2.Unmarshal Marshal
                (mkBody (unsplit (wire "{'event_type':'text-generation','text':'again'}|"))
                        EOF false)) = Some following
     /\ emitted (chat_v2.resolve chat_v2.Unmarshal Marshal
                   (mkBody [wire "{'event_type':'text-generation','text':'hello'}|{'event_type':";
                            wire "'text-generation','text':'again'}|"]
                           EOF false))
        = Some ([] ++ "text: hello" :: following))
  /\ (exists following,
        emitted (chat_v1.resolve chat_v1.Unmarshal
                   (mkBody (unsplit (wire "{'event_type':'text-generation','text':'again'}|"))
                           EOF false)) = Some following
        /\ emitted (chat_v1.resolve chat_v1.Unmarshal
                      (mkBody [wire "{'event_type':'text-generation','text':'hello'}|{'event_type':";
                               wire "'text-generation','text':'again'}|"]
                              EOF false))
           = Some ([] ++ "text: hello" :: following)).
Proof.
  destruct (text_generation_line
              [wire "{'event_type':'text-generation','text':'hello'}|{'event_type':";
               wire "'text-generation','text':'again'}|"]
              []
              (wire "{'event_type':'text-generation','text':'hello'}")
              (wire "{'event_type':'text-generation','text':'again'}|")
              EOF false) as [H2 H1].
  - repeat constructor; discriminate.
  - vm_compute. reflexivity.
  - repeat constructor.
  - split.
    + apply (H2 chat_v2.Unmarshal Marshal
               (chat_v2.mkBlock false "text-generation" "" "hello" "" None)).
      * constructor.
      * vm_compute. reflexivity.
      * reflexivity.
      * reflexivity.
    + apply (H1 chat_v1.Unmarshal
               (chat_v1.mkBlock false "text-generation" "" "hello" "")).
      * constructor.
      * vm_compute. reflexivity.
      * reflexivity.
      * reflexivity.
Defined.

(** The example of the specification: the one line with text ["hello"]
    makes [resolve] send exactly ["text: hello"]. *)
Example text_hello :
  chat_v2.resolve chat_v2.Unmarshal Marshal
    (mkBody [wire "{'event_type':'text-generation','text':'hello'}|"] EOF false)
  = Some [Send "text: hello"; CloseBody; CloseChan].
Proof. vm_compute. reflexivity. Qed.



(** A tool-calls line end to end: the payload comes out as compact JSON. *)
Example tool_search :
  chat_v2.resolve chat_v2.Unmarshal Marshal
    (mkBody [wire "{'event_type':'tool-calls-generation','tool_calls':[ {'name': 'search', 'parameters': {'query':'rocq'}} ]}|"]
            EOF false)
  = Some [Send (string_of_list_ascii
                  (wire "tool: [{'name':'search','parameters':{'query':'rocq'}}]"));
          CloseBody; CloseChan].
Proof. vm_compute. reflexivity. Qed.

(** C10. An empty line (LF, or CR LF, with nothing before it), after lines
    that let the loop go on: the decoder gets the empty byte sequence, which
    it rejects, and [resolve] sends the one event ["error: "] with that
    error and returns. Both revisions. *)
Theorem blank_line_is_fatal
    (cs ls : list bytes) (l rest : bytes) (fin : error) (eag : bool) :
  Forall (fun c => c <> []) cs ->
  concat cs = terminated ls ++ l ++ LF :: rest ->
  Forall (fun l => IndexByte l LF = None) (l :: ls) ->
  strip_cr l = [] ->
  chat_v2.Unmarshal [] = Fail unexpected_end
  /\ chat_v1.Unmarshal [] = Fail unexpected_end
  /\ (Forall (line_goes_on (v2_on_line chat_v2.Unmarshal Marshal)) ls ->
      emitted (chat_v2.resolve chat_v2.Unmarshal Marshal (mkBody cs fin eag))
      = Some (concat (map (line_out (v2_on_line chat_v2.Unmarshal Marshal)) ls)
              ++ ["error: unexpected end of JSON input"]))
  /\ (Forall (line_goes_on (v1_on_line chat_v1.Unmarshal)) ls ->
      emitted (chat_v1.resolve chat_v1.Unmarshal (mkBody cs fin eag))
      = Some (concat (map (line_out (v1_on_line chat_v1.Unmarshal)) ls)
              ++ ["error: unexpected end of JSON input"])).
Proof.
  intros Hc Hcat Hl Hempty.
  split; [reflexivity|]. split; [reflexivity|]. split.
  - intros Hgo. rewrite (v2_at_line _ _ cs ls l rest fin eag Hc Hcat Hl Hgo).
    rewrite Hempty. reflexivity.
  - intros Hgo. rewrite (v1_at_line _ cs ls l rest fin eag Hc Hcat Hl Hgo).
    rewrite Hempty. reflexivity.
Qed.

Lemma blank_line_is_fatal_witness :
  chat_v2.Unmarshal [] = Fail unexpected_end
  /\ chat_v1.Unmarshal [] = Fail unexpected_end
  /\ (Forall (line_goes_on (v2_on_line chat_v2.Unmarshal Marshal))
        [wire "{'event_type':'text-generation','text':'a'}"] ->
      emitted (chat_v2.resolve chat_v2.Unmarshal Marshal
                 (mkBody [wire "{'event_type':'text-generation','text':'a'}||";
                          wire "{'event_type':'text-generation','text':'b'}|"]
                         EOF false))
      = Some (concat (map (line_out (v2_on_line chat_v2.Unmarshal Marshal))
                          [wire "{'event_type':'text-generation','text':'a'}"])
              ++ ["error: unexpected end of JSON input"]))
  /\ (Forall (line_goes_on (v1_on_line chat_v1.Unmarshal))
        [wire "{'event_type':'text-generation','text':'a'}"] ->
      emitted (chat_v1.resolve chat_v1.Unmarshal
                 (mkBody [wire "{'event_type':'text-generation','text':'a'}||";
                          wire "{'event_type':'text-generation','text':'b'}|"]
                         EOF false))
      = Some (concat (map (line_out (v1_on_line chat_v1.Unmarshal))
                          [wire "{'event_type':'text-generation','text':'a'}"])
              ++ ["error: unexpected end of JSON input"])).
Proof.
  apply (blank_line_is_fatal
           [wire "{'event_type':'text-generation','text':'a'}||";
            wire "{'event_type':'text-generation','text':'b'}|"]
           [wire "{'event_type':'text-generation','text':'a'}"]
           []
           (wire "{'event_type':'text-generation','text':'b'}|")
           EOF false).
  - repeat constructor; discriminate.
  - vm_compute. reflexivity.
  - repeat constructor.
  - reflexivity.
Defined.

(** A blank line between two events, end to end. *)
Example blank_separator :
  chat_v2.resolve chat_v2.Unmarshal Marshal
    (mkBody [wire "{'event_type':'text-generation','text':'a'}||{'event_type':'text-generation','text':'b'}|"]
            EOF false)
  = Some [Send "text: a"; Send "error: unexpected end of JSON input";
          CloseBody; CloseChan].
Proof. vm_compute. reflexivity. Qed.

(** C5. The code does not do what the specification asks for a stream
    that ends in bytes without a newline: [ReadLine] returns a last line
    that no LF ends (and that does not fill its buffer) as a complete line,
    without an error, so that the bytes go to the decoder, and the branch
    of [resolve] that would send them as they are finds the accumulation
    buffer empty. When the bytes do not decode, [resolve] sends the decode
    error and nothing else, in any chunking and however the body ends:
    not the ["text: "] event, and not the body's error. Both revisions. *)
Theorem unterminated_tail_not_flushed
    (cs : list bytes) (tail : bytes) (fin : error) (eag : bool) :
  Forall (fun c => c <> []) cs ->
  concat cs = tail ->
  tail <> [] ->
  IndexByte tail LF = None ->
  length tail < defaultBufSize ->
  (forall json_Unmarshal json_Marshal e,
     json_Unmarshal tail = Fail e ->
     emitted (chat_v2.resolve json_Unmarshal json_Marshal (mkBody cs fin eag))
     = Some ["error: " +:+ Error e]
     /\ emitted (chat_v2.resolve json_Unmarshal json_Marshal
                   (mkBody cs fin eag))
        <> Some (flushed fin tail))
  /\ (forall json_Unmarshal e,
        json_Unmarshal tail = Fail e ->
        emitted (chat_v1.resolve json_Unmarshal (mkBody cs fin eag))
        = Some ["error: " +:+ Error e]
        /\ emitted (chat_v1.resolve json_Unmarshal (mkBody cs fin eag))
           <> Some (flushed fin tail)).
Proof.
  intros Hc Hcat Hne Hl Hlen.
  assert (Hdiff : forall e,
            Some ["error: " +:+ Error e] <> Some (flushed fin tail)).
  { intros e. unfold flushed, end_out.
    destruct (is_EOF fin); intros [=]. }
  split.
  - intros U M e HU.
    assert (H : emitted (chat_v2.resolve U M (mkBody cs fin eag))
                = Some ["error: " +:+ Error e]).
    { rewrite v2_emitted_run. cbn [chunks final eager].
      rewrite (run_tail_short _ cs fin eag tail Hc Hcat Hne Hl Hlen).
      unfold last_line_out, v2_on_line. rewrite HU. reflexivity. }
    split; [exact H|]. rewrite H. apply Hdiff.
  - intros U e HU.
    assert (H : emitted (chat_v1.resolve U (mkBody cs fin eag))
                = Some ["error: " +:+ Error e]).
    { rewrite v1_emitted_run. cbn [chunks final eager].
      rewrite (run_tail_short _ cs fin eag tail Hc Hcat Hne Hl Hlen).
      unfold last_line_out, v1_on_line. rewrite HU. reflexivity. }
    split; [exact H|]. rewrite H. apply Hdiff.
Qed.

Lemma unterminated_tail_not_flushed_witness :
  (emitted (chat_v2.resolve chat_v2.Unmarshal Marshal
              (mkBody [wire "{'par"; wire "tial"] EOF false))
   = Some ["error: " +:+ Error unexpected_end]
   /\ emitted (chat_v2.resolve chat_v2.Unmarshal Marshal
                 (mkBody [wire "{'par"; wire "tial"] EOF false))
      <> Some (flushed EOF (wire "{'partial")))
  /\ (emitted (chat_v1.resolve chat_v1.Unmarshal
                 (mkBody [wire "{'par"; wire "tial"] EOF false))
      = Some ["error: " +:+ Error unexpected_end]
      /\ emitted (chat_v1.resolve chat_v1.Unmarshal
                    (mkBody [wire "{'par"; wire "tial"] EOF false))
         <> Some (flushed EOF (wire "{'partial"))).
Proof.
  destruct (unterminated_tail_not_flushed
              [wire "{'par"; wire "tial"] (wire "{'partial") EOF false)
    as [H2 H1].
  - repeat constructor; discriminate.
  - vm_compute. reflexivity.
  - discriminate.
  - vm_compute. reflexivity.
  - vm_compute. lia.
  - split.
    + apply (H2 chat_v2.Unmarshal Marshal unexpected_end).
      vm_compute. reflexivity.
    + apply (H1 chat_v1.Unmarshal unexpected_end).
      vm_compute. reflexivity.
Defined.

(** The example of the specification, evaluated: the consumer receives the
    decode error where the specification has ["text: "] and the bytes. *)
Example partial_tail :
  chat_v2.resolve chat_v2.Unmarshal Marshal
    (mkBody [wire "{'partial"] EOF false)
  = Some [Send "error: unexpected end of JSON input"; CloseBody; CloseChan]
  /\ flushed EOF (wire "{'partial")
     = [string_of_list_ascii (wire "text: {'partial")].
Proof. vm_compute. split; reflexivity. Qed.

(** The branch that sends the bytes as they are is reached with bytes in
    the buffer when the stream ends on a full buffer and the body reports
    its end on the next read; with the end reported together with the last
    bytes, the same bytes are decoded. *)
Example tail_fills_buffer :
  emitted (chat_v2.resolve chat_v2.Unmarshal Marshal
             (mkBody [repeat "a"%char defaultBufSize] EOF false))
  = Some ["text: " +:+ string_of_list_ascii (repeat "a"%char defaultBufSize)]
  /\ emitted (chat_v2.resolve chat_v2.Unmarshal Marshal
                (mkBody [repeat "a"%char defaultBufSize] EOF true))
     = Some ["error: invalid character 'a' looking for beginning of value"].
Proof. vm_compute. split; reflexivity. Qed.

End claims.

(** * The payload builder *)

Section payload.

(** The default is the float32 nearest to 95/100, and is not negative. *)
Lemma f32_0_95_nearest :
  SFdiv 24 128 (S754_finite false 95 0) (S754_finite false 100 0)
  = chat_v2.f32_0_95.
Proof. vm_compute. reflexivity. Qed.

Lemma f32_0_95_not_negative : negative chat_v2.f32_0_95 = false.
Proof. reflexivity. Qed.

Lemma nonnegative_not_negative t :
  SFleb (S754_zero false) t = true -> negative t = false.
Proof.
  unfold negative, SFleb, SFltb.
  destruct t as [s|s| |s m e]; simpl; try destruct s; simpl;
    congruence.
Qed.

(** What [makePayload] leaves in the builder. *)
Lemma v2_makePayload_builder c pMessages system message isChat toolObject :
  snd (chat_v2.makePayload c pMessages system message isChat toolObject)
  = if negative (chat_v2.temperature c)
    then chat_v2.set_temperature c chat_v2.f32_0_95 else c.
Proof. reflexivity. Qed.

(** The payload carries the temperature that the call leaves in the
    builder. *)
Lemma v2_makePayload_temperature c pMessages system message isChat toolObject :
  fst (chat_v2.makePayload c pMessages system message isChat toolObject)
    !! "temperature"
  = Some (chat_v2.VFloat32
            (chat_v2.temperature
               (snd (chat_v2.makePayload c pMessages system message isChat
                       toolObject)))).
Proof.
  unfold chat_v2.makePayload. cbn [fst snd].
  repeat case_scrutinee; simplify_map_eq; reflexivity.
Qed.

Lemma v1_makePayload_builder c pMessages system message :
  snd (chat_v1.makePayload c pMessages system message)
  = if negative (chat_v1.temperature c)
    then chat_v1.set_temperature c chat_v1.f32_0_95 else c.
Proof. reflexivity. Qed.

Lemma v1_makePayload_temperature c pMessages system message :
  fst (chat_v1.makePayload c pMessages system message) !! "temperature"
  = Some (chat_v1.VFloat32
            (chat_v1.temperature
               (snd (chat_v1.makePayload c pMessages system message)))).
Proof.
  unfold chat_v1.makePayload. cbn [fst snd].
  repeat case_scrutinee; simplify_map_eq; reflexivity.
Qed.

(** C9. A negative temperature: [makePayload] sets the builder's
    temperature to 0.95, the payload carries 0.95, and every later call on
    the builder it leaves finds 0.95, carries it and changes nothing. A
    temperature that is not negative: the payload carries it and the builder
    is as it was. Both revisions. *)
Theorem makePayload_temperature_default :
  (forall (c : chat_v2.Chat) pMessages system message isChat toolObject,
     let r := chat_v2.makePayload c pMessages system message isChat toolObject in
     (negative (chat_v2.temperature c) = true ->
        chat_v2.temperature (snd r) = chat_v2.f32_0_95
        /\ fst r !! "temperature" = Some (chat_v2.VFloat32 chat_v2.f32_0_95)
        /\ snd r = chat_v2.set_temperature c chat_v2.f32_0_95
        /\ forall pMessages' system' message' isChat' toolObject',
             let r' := chat_v2.makePayload (snd r) pMessages' system' message'
                         isChat' toolObject' in
             fst r' !! "temperature" = Some (chat_v2.VFloat32 chat_v2.f32_0_95)
             /\ snd r' = snd r)
     /\ (negative (chat_v2.temperature c) = false ->
           fst r !! "temperature"
             = Some (chat_v2.VFloat32 (chat_v2.temperature c))
           /\ snd r = c))
  /\ (forall (c : chat_v1.Chat) pMessages system message,
        let r := chat_v1.makePayload c pMessages system message in
        (negative (chat_v1.temperature c) = true ->
           chat_v1.temperature (snd r) = chat_v1.f32_0_95
           /\ fst r !! "temperature" = Some (chat_v1.VFloat32 chat_v1.f32_0_95)
           /\ snd r = chat_v1.set_temperature c chat_v1.f32_0_95
           /\ forall pMessages' system' message',
                let r' := chat_v1.makePayload (snd r) pMessages' system'
                            message' in
                fst r' !! "temperature"
                  = Some (chat_v1.VFloat32 chat_v1.f32_0_95)
                /\ snd r' = snd r)
        /\ (negative (chat_v1.temperature c) = false ->
              fst r !! "temperature"
                = Some (chat_v1.VFloat32 (chat_v1.temperature c))
              /\ snd r = c)).
Proof.
  split.
  - intros c pM sys msg isC tO r. subst r. split.
    + intros Hneg.
      assert (Hb : snd (chat_v2.makePayload c pM sys msg isC tO)
                   = chat_v2.set_temperature c chat_v2.f32_0_95)
        by (rewrite v2_makePayload_builder, Hneg; reflexivity).
      split; [rewrite Hb; reflexivity|].
      split; [rewrite v2_makePayload_temperature, Hb; reflexivity|].
      split; [exact Hb|].
      intros pM' sys' msg' isC' tO' r'. subst r'.
      assert (Hb' : snd (chat_v2.makePayload
                           (snd (chat_v2.makePayload c pM sys msg isC tO))
                           pM' sys' msg' isC' tO')
                    = snd (chat_v2.makePayload c pM sys msg isC tO))
        by (rewrite v2_makePayload_builder, Hb; reflexivity).
      split; [|exact Hb'].
      rewrite v2_makePayload_temperature, Hb', Hb. reflexivity.
    + intros Hneg.
      assert (Hb : snd (chat_v2.makePayload c pM sys msg isC tO) = c)
        by (rewrite v2_makePayload_builder, Hneg; reflexivity).
      split; [|exact Hb].
      rewrite v2_makePayload_temperature, Hb. reflexivity.
  - intros c pM sys msg r. subst r. split.
    + intros Hneg.
      assert (Hb : snd (chat_v1.makePayload c pM sys msg)
                   = chat_v1.set_temperature c chat_v1.f32_0_95)
        by (rewrite v1_makePayload_builder, Hneg; reflexivity).
      split; [rewrite Hb; reflexivity|].
      split; [rewrite v1_makePayload_temperature, Hb; reflexivity|].
      split; [exact Hb|].
      intros pM' sys' msg' r'. subst r'.
      assert (Hb' : snd (chat_v1.makePayload
                           (snd (chat_v1.makePayload c pM sys msg))
                           pM' sys' msg')
                    = snd (chat_v1.makePayload c pM sys msg))
        by (rewrite v1_makePayload_builder, Hb; reflexivity).
      split; [|exact Hb'].
      rewrite v1_makePayload_temperature, Hb', Hb. reflexivity.
    + intros Hneg.
      assert (Hb : snd (chat_v1.makePayload c pM sys msg) = c)
        by (rewrite v1_makePayload_builder, Hneg; reflexivity).
      split; [|exact Hb].
      rewrite v1_makePayload_temperature, Hb. reflexivity.
Qed.

Lemma makePayload_temperature_default_witness :
  (let r := chat_v2.makePayload
              (chat_v2.New "token" f32_minus_1 "command-r" true)
              [] "system" "hello" true (chat_v2.mkToolObject [] []) in
   chat_v2.temperature (snd r) = chat_v2.f32_0_95
   /\ fst r !! "temperature" = Some (chat_v2.VFloat32 chat_v2.f32_0_95))
  /\ (let r := chat_v1.makePayload
                 (chat_v1.New "token" f32_0_75 7 "command-r")
                 [] "system" "hello" in
      fst r !! "temperature" = Some (chat_v1.VFloat32 f32_0_75)
      /\ snd r = chat_v1.New "token" f32_0_75 7 "command-r").
Proof.
  destruct makePayload_temperature_default as [H2 H1]. split.
  - destruct (H2 (chat_v2.New "token" f32_minus_1 "command-r" true)
                 [] "system" "hello" true (chat_v2.mkToolObject [] []))
      as [Hneg _].
    destruct (Hneg eq_refl) as (A & B & _). split; assumption.
  - destruct (H1 (chat_v1.New "token" f32_0_75 7 "command-r")
                 [] "system" "hello") as [_ Hpos].
    exact (Hpos eq_refl).
Defined.

End payload.

(** * More on [resolve]: whole streams *)

Section streams.
Import io bufio json.

Lemma lines_then_go_on on_line ls k :
  Forall (line_goes_on on_line) ls ->
  lines_then on_line ls k = concat (map (line_out on_line) ls) ++ k.
Proof.
  induction ls as [|l ls IH]; intros Hgo; [reflexivity|].
  inversion Hgo as [|? ? Hg1 Hg2]; subst.
  unfold line_goes_on in Hg1. cbn [lines_then map concat].
  change (line_out on_line l) with (fst (on_line (strip_cr l))).
  destruct (on_line (strip_cr l)) as [out go]. simpl in Hg1. subst go.
  rewrite (IH Hg2). simpl. rewrite app_assoc. reflexivity.
Qed.

Lemma IndexByte_snoc_CR l :
  IndexByte l LF = None -> IndexByte (l ++ [CR]) LF = None.
Proof. intros Hl. rewrite IndexByte_app, Hl. reflexivity. Qed.

Lemma strip_cr_snoc_CR l : strip_cr (l ++ [CR]) = l.
Proof.
  unfold strip_cr. rewrite last_snoc. simpl. apply removelast_last.
Qed.

Lemma strip_cr_no_CR l : last l <> Some CR -> strip_cr l = l.
Proof.
  intros Hl. unfold strip_cr. destruct (last l) as [c|]; [|reflexivity].
  destruct (Ascii.eqb_spec c CR); [congruence|reflexivity].
Qed.

Lemma lines_then_crlf on_line ls k :
  Forall (fun l => last l <> Some CR) ls ->
  lines_then on_line (map (fun l => l ++ [CR]) ls) k
  = lines_then on_line ls k.
Proof.
  induction ls as [|l ls IH]; intros Hl; [reflexivity|].
  inversion Hl as [|? ? Hl1 Hl2]; subst. cbn [map lines_then].
  rewrite strip_cr_snoc_CR, (strip_cr_no_CR l Hl1), (IH Hl2). reflexivity.
Qed.

(** X1. A stream of lines that each end in LF, in any chunks and from a
    body that ends in any way, is handled line by line, in order: each line
    is decoded whole (without its CR) and makes [resolve] send what the
    line stands for, up to and including the first line that ends the loop
    (one that does not decode, or is finished, or has tool calls that do
    not encode); when no line ends it, the body's error, unless [io.EOF],
    is the last event. Both revisions. *)
Theorem resolve_by_lines
    (cs ls : list bytes) (fin : error) (eag : bool) :
  Forall (fun c => c <> []) cs ->
  concat cs = terminated ls ->
  Forall (fun l => IndexByte l LF = None) ls ->
  (forall json_Unmarshal json_Marshal,
     emitted (chat_v2.resolve json_Unmarshal json_Marshal (mkBody cs fin eag))
     = Some (lines_then (v2_on_line json_Unmarshal json_Marshal) ls
               (end_out fin)))
  /\ (forall json_Unmarshal,
        emitted (chat_v1.resolve json_Unmarshal (mkBody cs fin eag))
        = Some (lines_then (v1_on_line json_Unmarshal) ls (end_out fin))).
Proof.
  intros Hc Hcat Hl. split; intros.
  - rewrite v2_emitted_run. cbn [chunks final eager].
    apply run_terminated; assumption.
  - rewrite v1_emitted_run. cbn [chunks final eager].
    apply run_terminated; assumption.
Qed.

Lemma resolve_by_lines_witness :
  emitted (chat_v2.resolve chat_v2.Unmarshal Marshal
             (mkBody [wire "{'event_type':'text-generation','text':'a'}|{'event_";
                      wire "type':'stream-start'}|{'event_type':'text-generation','text':'b'}|"]
                     (Err "connection reset") false))
  = Some (lines_then (v2_on_line chat_v2.Unmarshal Marshal)
            [wire "{'event_type':'text-generation','text':'a'}";
             wire "{'event_type':'stream-start'}";
             wire "{'event_type':'text-generation','text':'b'}"]
            (end_out (Err "connection reset")))
  /\ emitted (chat_v1.resolve chat_v1.Unmarshal
                (mkBody [wire "{'event_type':'text-generation','text':'a'}|{'event_";
                         wire "type':'stream-start'}|{'event_type':'text-generation','text':'b'}|"]
                        (Err "connection reset") false))
     = Some (lines_then (v1_on_line chat_v1.Unmarshal)
               [wire "{'event_type':'text-generation','text':'a'}";
                wire "{'event_type':'stream-start'}";
                wire "{'event_type':'text-generation','text':'b'}"]
               (end_out (Err "connection reset"))).
Proof.
  destruct (resolve_by_lines
              [wire "{'event_type':'text-generation','text':'a'}|{'event_";
               wire "type':'stream-start'}|{'event_type':'text-generation','text':'b'}|"]
              [wire "{'event_type':'text-generation','text':'a'}";
               wire "{'event_type':'stream-start'}";
               wire "{'event_type':'text-generation','text':'b'}"]
              (Err "connection reset") false) as [H2 H1].
  - repeat constructor; discriminate.
  - vm_compute. reflexivity.
  - repeat constructor.
  - split; [apply H2|apply H1].
Defined.

(** The events of that stream, evaluated. *)
Example lines_then_read_error :
  lines_then (v2_on_line chat_v2.Unmarshal Marshal)
    [wire "{'event_type':'text-generation','text':'a'}";
     wire "{'event_type':'stream-start'}";
     wire "{'event_type':'text-generation','text':'b'}"]
    (end_out (Err "connection reset"))
  = ["text: a"; "text: b"; "error: connection reset"].
Proof. vm_compute. reflexivity. Qed.

(** X2. A last line that no LF ends and that does not fill the reader's
    buffer is handled as a complete line: its bytes go to the decoder as
    they are, and what [resolve] sends for the stream is what it sends for
    the lines before it, then for that line, then (only if the loop goes on
    after it) the body's error unless [io.EOF]. The bytes are never sent as
    a ["text: "] event of their own. Both revisions. *)
Theorem unterminated_last_line_is_decoded
    (cs ls : list bytes) (tail : bytes) (fin : error) (eag : bool) :
  Forall (fun c => c <> []) cs ->
  concat cs = terminated ls ++ tail ->
  Forall (fun l => IndexByte l LF = None) (tail :: ls) ->
  tail <> [] -> length tail < defaultBufSize ->
  (forall json_Unmarshal json_Marshal,
     emitted (chat_v2.resolve json_Unmarshal json_Marshal (mkBody cs fin eag))
     = Some (lines_then (v2_on_line json_Unmarshal json_Marshal) ls
               (last_line_out (v2_on_line json_Unmarshal json_Marshal)
                  fin tail)))
  /\ (forall json_Unmarshal,
        emitted (chat_v1.resolve json_Unmarshal (mkBody cs fin eag))
        = Some (lines_then (v1_on_line json_Unmarshal) ls
                  (last_line_out (v1_on_line json_Unmarshal) fin tail))).
Proof.
  intros Hc Hcat Hl Hne Hlen. split; intros.
  - rewrite v2_emitted_run. cbn [chunks final eager].
    apply run_unterminated; assumption.
  - rewrite v1_emitted_run. cbn [chunks final eager].
    apply run_unterminated; assumption.
Qed.

Lemma unterminated_last_line_is_decoded_witness :
  emitted (chat_v2.resolve chat_v2.Unmarshal Marshal
             (mkBody [wire "{'event_type':'text-generation','text':'a'}|{'event_type':";
                      wire "'text-generation','text':'b'}"] EOF true))
  = Some (lines_then (v2_on_line chat_v2.Unmarshal Marshal)
            [wire "{'event_type':'text-generation','text':'a'}"]
            (last_line_out (v2_on_line chat_v2.Unmarshal Marshal) EOF
               (wire "{'event_type':'text-generation','text':'b'}")))
  /\ emitted (chat_v1.resolve chat_v1.Unmarshal
                (mkBody [wire "{'event_type':'text-generation','text':'a'}|{'event_type':";
                         wire "'text-generation','text':'b'}"] EOF true))
     = Some (lines_then (v1_on_line chat_v1.Unmarshal)
               [wire "{'event_type':'text-generation','text':'a'}"]
               (last_line_out (v1_on_line chat_v1.Unmarshal) EOF
                  (wire "{'event_type':'text-generation','text':'b'}"))).
Proof.
  destruct (unterminated_last_line_is_decoded
              [wire "{'event_type':'text-generation','text':'a'}|{'event_type':";
               wire "'text-generation','text':'b'}"]
              [wire "{'event_type':'text-generation','text':'a'}"]
              (wire "{'event_type':'text-generation','text':'b'}")
              EOF true) as [H2 H1].
  - repeat constructor; discriminate.
  - vm_compute. reflexivity.
  - repeat constructor.
  - discriminate.
  - vm_compute. lia.
  - split; [apply H2|apply H1].
Defined.

(** A last event without its newline is delivered all the same. *)
Example last_event_without_newline :
  chat_v2.resolve chat_v2.Unmarshal Marshal
    (mkBody [wire "{'event_type':'text-generation','text':'a'}|{'event_type':";
             wire "'text-generation','text':'b'}"] EOF true)
  = Some [Send "text: a"; Send "text: b"; CloseBody; CloseChan].
Proof. vm_compute. reflexivity. Qed.

(** X3. A body that breaks off inside a line: when the bytes of the broken
    line do not decode, [resolve] sends the decode error and returns, and
    the read error that broke the line is never sent, whatever it is. Both
    revisions. *)
Theorem read_error_hidden_by_broken_line
    (cs ls : list bytes) (tail : bytes) (fin : error) (eag : bool) :
  Forall (fun c => c <> []) cs ->
  concat cs = terminated ls ++ tail ->
  Forall (fun l => IndexByte l LF = None) (tail :: ls) ->
  tail <> [] -> length tail < defaultBufSize ->
  (forall json_Unmarshal json_Marshal e,
     Forall (line_goes_on (v2_on_line json_Unmarshal json_Marshal)) ls ->
     json_Unmarshal tail = Fail e ->
     emitted (chat_v2.resolve json_Unmarshal json_Marshal (mkBody cs fin eag))
     = Some (concat (map (line_out (v2_on_line json_Unmarshal json_Marshal)) ls)
             ++ ["error: " +:+ Error e]))
  /\ (forall json_Unmarshal e,
        Forall (line_goes_on (v1_on_line json_Unmarshal)) ls ->
        json_Unmarshal tail = Fail e ->
        emitted (chat_v1.resolve json_Unmarshal (mkBody cs fin eag))
        = Some (concat (map (line_out (v1_on_line json_Unmarshal)) ls)
                ++ ["error: " +:+ Error e])).
Proof.
  intros Hc Hcat Hl Hne Hlen. split.
  - intros U M e Hgo HU. rewrite v2_emitted_run. cbn [chunks final eager].
    rewrite (run_unterminated _ ls tail cs fin eag Hc Hcat Hl Hne Hlen).
    rewrite (lines_then_go_on _ _ _ Hgo).
    unfold last_line_out, v2_on_line at 2. rewrite HU. reflexivity.
  - intros U e Hgo HU. rewrite v1_emitted_run. cbn [chunks final eager].
    rewrite (run_unterminated _ ls tail cs fin eag Hc Hcat Hl Hne Hlen).
    rewrite (lines_then_go_on _ _ _ Hgo).
    unfold last_line_out, v1_on_line at 2. rewrite HU. reflexivity.
Qed.

Lemma read_error_hidden_by_broken_line_witness :
  emitted (chat_v2.resolve chat_v2.Unmarshal Marshal
             (mkBody [wire "{'event_type':'text-generation','text':'a'}|{'event_type':'text-gen"]
                     (Err "connection reset") false))
  = Some (concat (map (line_out (v2_on_line chat_v2.Unmarshal Marshal))
                      [wire "{'event_type':'text-generation','text':'a'}"])
          ++ ["error: " +:+ Error unexpected_end])
  /\ emitted (chat_v1.resolve chat_v1.Unmarshal
                (mkBody [wire "{'event_type':'text-generation','text':'a'}|{'event_type':'text-gen"]
                        (Err "connection reset") false))
     = Some (concat (map (line_out (v1_on_line chat_v1.Unmarshal))
                         [wire "{'event_type':'text-generation','text':'a'}"])
             ++ ["error: " +:+ Error unexpected_end]).
Proof.
  destruct (read_error_hidden_by_broken_line
              [wire "{'event_type':'text-generation','text':'a'}|{'event_type':'text-gen"]
              [wire "{'event_type':'text-generation','text':'a'}"]
              (wire "{'event_type':'text-gen")
              (Err "connection reset") false) as [H2 H1].
  - repeat constructor; discriminate.
  - vm_compute. reflexivity.
  - repeat constructor.
  - discriminate.
  - vm_compute. lia.
  - split.
    + apply (H2 chat_v2.Unmarshal Marshal unexpected_end).
      * repeat constructor.
      * vm_compute. reflexivity.
    + apply (H1 chat_v1.Unmarshal unexpected_end).
      * repeat constructor.
      * vm_compute. reflexivity.
Defined.

(** The connection error of that stream does not reach the consumer. *)
Example connection_reset_not_reported :
  chat_v2.resolve chat_v2.Unmarshal Marshal
    (mkBody [wire "{'event_type':'text-generation','text':'a'}|{'event_type':'text-gen"]
            (Err "connection reset") false)
  = Some [Send "text: a"; Send "error: unexpected end of JSON input";
          CloseBody; CloseChan].
Proof. vm_compute. reflexivity. Qed.

(** X4. Line ends CR LF and line ends LF are the same to [resolve]: a
    stream of lines that each end in CR LF makes it send what the same
    lines ending in LF make it send. Both revisions. *)
Theorem crlf_lines_as_lf_lines
    (cs1 cs2 ls : list bytes) (fin : error) (eag : bool) :
  Forall (fun c => c <> []) cs1 ->
  Forall (fun c => c <> []) cs2 ->
  Forall (fun l => IndexByte l LF = None) ls ->
  Forall (fun l => last l <> Some CR) ls ->
  concat cs1 = terminated (map (fun l => l ++ [CR]) ls) ->
  concat cs2 = terminated ls ->
  (forall json_Unmarshal json_Marshal,
     emitted (chat_v2.resolve json_Unmarshal json_Marshal (mkBody cs1 fin eag))
     = emitted (chat_v2.resolve json_Unmarshal json_Marshal
                  (mkBody cs2 fin eag)))
  /\ (forall json_Unmarshal,
        emitted (chat_v1.resolve json_Unmarshal (mkBody cs1 fin eag))
        = emitted (chat_v1.resolve json_Unmarshal (mkBody cs2 fin eag))).
Proof.
  intros Hc1 Hc2 Hl Hcr Hcat1 Hcat2.
  assert (Hl' : Forall (fun l => IndexByte l LF = None)
                       (map (fun l => l ++ [CR]) ls)).
  { apply Forall_map. eapply Forall_impl; [exact Hl|].
    intros l H. apply IndexByte_snoc_CR, H. }
  split; intros.
  - rewrite !v2_emitted_run. cbn [chunks final eager].
    rewrite (run_terminated _ _ cs1 fin eag Hc1 Hcat1 Hl').
    rewrite (run_terminated _ _ cs2 fin eag Hc2 Hcat2 Hl).
    rewrite (lines_then_crlf _ _ _ Hcr). reflexivity.
  - rewrite !v1_emitted_run. cbn [chunks final eager].
    rewrite (run_terminated _ _ cs1 fin eag Hc1 Hcat1 Hl').
    rewrite (run_terminated _ _ cs2 fin eag Hc2 Hcat2 Hl).
    rewrite (lines_then_crlf _ _ _ Hcr). reflexivity.
Qed.

Lemma crlf_lines_as_lf_lines_witness :
  emitted (chat_v2.resolve chat_v2.Unmarshal Marshal
             (mkBody [terminated
                        (map (fun l => l ++ [CR])
                           [wire "{'event_type':'text-generation','text':'a'}";
                            wire "{'is_finished':true}"])] EOF false))
  = emitted (chat_v2.resolve chat_v2.Unmarshal Marshal
               (mkBody [terminated
                          [wire "{'event_type':'text-generation','text':'a'}";
                           wire "{'is_finished':true}"]] EOF false)).
Proof.
  destruct (crlf_lines_as_lf_lines
              [terminated
                 (map (fun l => l ++ [CR])
                    [wire "{'event_type':'text-generation','text':'a'}";
                     wire "{'is_finished':true}"])]
              [terminated
                 [wire "{'event_type':'text-generation','text':'a'}";
                  wire "{'is_finished':true}"]]
              [wire "{'event_type':'text-generation','text':'a'}";
               wire "{'is_finished':true}"] EOF false) as [H2 _].
  - repeat constructor; discriminate.
  - repeat constructor; discriminate.
  - repeat constructor.
  - repeat constructor; vm_compute; discriminate.
  - vm_compute. reflexivity.
  - vm_compute. reflexivity.
  - apply H2.
Defined.

(** X5. A line that decodes to an unfinished block of an event type that
    the revision does not know makes [resolve] send nothing: [resolve]
    returns, and what it has sent is what the lines before made it send
    and then what it sends for the rest of the stream taken as a stream of
    its own. The first revision knows ["text-generation"] only, so that a
    ["tool-calls-generation"] line is passed over in silence there. *)
Theorem unknown_event_is_skipped
    (cs ls : list bytes) (l rest : bytes) (fin : error) (eag : bool) :
  Forall (fun c => c <> []) cs ->
  concat cs = terminated ls ++ l ++ LF :: rest ->
  Forall (fun l => IndexByte l LF = None) (l :: ls) ->
  (forall json_Unmarshal json_Marshal b,
     Forall (line_goes_on (v2_on_line json_Unmarshal json_Marshal)) ls ->
     json_Unmarshal (strip_cr l) = Ok b ->
     chat_v2.Finished b = false ->
     chat_v2.Event b <> "text-generation" ->
     chat_v2.Event b <> "tool-calls-generation" ->
     exists following,
       emitted (chat_v2.resolve json_Unmarshal json_Marshal
                  (mkBody (unsplit rest) fin eag)) = Some following
       /\ emitted (chat_v2.resolve json_Unmarshal json_Marshal
                     (mkBody cs fin eag))
          = Some (concat (map (line_out (v2_on_line json_Unmarshal
                                           json_Marshal)) ls)
                  ++ following))
  /\ (forall json_Unmarshal b,
        Forall (line_goes_on (v1_on_line json_Unmarshal)) ls ->
        json_Unmarshal (strip_cr l) = Ok b ->
        chat_v1.Finished b = false ->
        chat_v1.Event b <> "text-generation" ->
        exists following,
          emitted (chat_v1.resolve json_Unmarshal
                     (mkBody (unsplit rest) fin eag)) = Some following
          /\ emitted (chat_v1.resolve json_Unmarshal (mkBody cs fin eag))
             = Some (concat (map (line_out (v1_on_line json_Unmarshal)) ls)
                     ++ following)).
Proof.
  intros Hc Hcat Hl. split.
  - intros U M b Hgo HU Hfin Hev1 Hev2.
    destruct (v2_emitted_returns U M (mkBody (unsplit rest) fin eag))
      as [following Hf].
    exists following. split; [exact Hf|].
    rewrite (v2_at_line _ _ cs ls l rest fin eag Hc Hcat Hl Hgo).
    unfold v2_on_line at 2. rewrite HU, Hfin.
    apply String.eqb_neq in Hev1, Hev2. rewrite Hev1, Hev2, Hf.
    reflexivity.
  - intros U b Hgo HU Hfin Hev.
    destruct (v1_emitted_returns U (mkBody (unsplit rest) fin eag))
      as [following Hf].
    exists following. split; [exact Hf|].
    rewrite (v1_at_line _ cs ls l rest fin eag Hc Hcat Hl Hgo).
    unfold v1_on_line at 2. rewrite HU, Hfin.
    apply String.eqb_neq in Hev. rewrite Hev, Hf.
    reflexivity.
Qed.

Lemma unknown_event_is_skipped_witness :
  (exists following,
     emitted (chat_v2.resolve chat_v2.Unmarshal Marshal
                (mkBody (unsplit (wire "{'event_type':'text-generation','text':'a'}|"))
                        EOF false)) = Some following
     /\ emitted (chat_v2.resolve chat_v2.Unmarshal Marshal
                   (mkBody [wire "{'event_type':'stream-start','generation_id':'x'}|{'event_type':'text-generation','text':'a'}|"]
                           EOF false))
        = Some ([] ++ following))
  /\ (exists following,
        emitted (chat_v1.resolve chat_v1.Unmarshal
                   (mkBody (unsplit (wire "{'event_type':'text-generation','text':'a'}|"))
                           EOF false)) = Some following
        /\ emitted (chat_v1.resolve chat_v1.Unmarshal
                      (mkBody [wire "{'event_type':'tool-calls-generation','tool_calls':[]}|{'event_type':'text-generation','text':'a'}|"]
                              EOF false))
           = Some ([] ++ following)).
Proof.
  split.
  - destruct (unknown_event_is_skipped
                [wire "{'event_type':'stream-start','generation_id':'x'}|{'event_type':'text-generation','text':'a'}|"]
                []
                (wire "{'event_type':'stream-start','generation_id':'x'}")
                (wire "{'event_type':'text-generation','text':'a'}|")
                EOF false) as [H2 _].
    + repeat constructor; discriminate.
    + vm_compute. reflexivity.
    + repeat constructor.
    + apply (H2 chat_v2.Unmarshal Marshal
               (chat_v2.mkBlock false "stream-start" "x" "" "" None)).
      * constructor.
      * vm_compute. reflexivity.
      * reflexivity.
      * discriminate.
      * discriminate.
  - destruct (unknown_event_is_skipped
                [wire "{'event_type':'tool-calls-generation','tool_calls':[]}|{'event_type':'text-generation','text':'a'}|"]
                []
                (wire "{'event_type':'tool-calls-generation','tool_calls':[]}")
                (wire "{'event_type':'text-generation','text':'a'}|")
                EOF false) as [_ H1].
    + repeat constructor; discriminate.
    + vm_compute. reflexivity.
    + repeat constructor.
    + apply (H1 chat_v1.Unmarshal
               (chat_v1.mkBlock false "tool-calls-generation" "" "" "")).
      * constructor.
      * vm_compute. reflexivity.
      * reflexivity.
      * discriminate.
Defined.

(** An event type that is not known, between two that are. *)
Example stream_start_skipped :
  chat_v2.resolve chat_v2.Unmarshal Marshal
    (mkBody [wire "{'event_type':'text-generation','text':'a'}|{'event_type':'stream-start'}|{'event_type':'text-generation','text':'b'}|"]
            EOF false)
  = Some [Send "text: a"; Send "text: b"; CloseBody; CloseChan].
Proof. vm_compute. reflexivity. Qed.

(** X6. A ["tool-calls-generation"] line whose block has no tool calls
    (the key is missing, or [null]) makes [resolve] send ["tool: null"]:
    the nil slice is encoded as [null], not as an empty array. [resolve]
    returns, and what it has sent is what the lines before made it send,
    then ["tool: null"], then what it sends for the rest of the stream
    taken as a stream of its own. *)
Theorem missing_tool_calls_sent_as_null
    (json_Unmarshal : bytes -> result chat_v2.block)
    (cs ls : list bytes) (l rest : bytes) (fin : error) (eag : bool)
    (b : chat_v2.block) :
  Forall (fun c => c <> []) cs ->
  concat cs = terminated ls ++ l ++ LF :: rest ->
  Forall (fun l => IndexByte l LF = None) (l :: ls) ->
  Forall (line_goes_on (v2_on_line json_Unmarshal Marshal)) ls ->
  json_Unmarshal (strip_cr l) = Ok b ->
  chat_v2.Finished b = false ->
  chat_v2.Event b = "tool-calls-generation" ->
  chat_v2.ToolCalls b = None ->
  exists following,
    emitted (chat_v2.resolve json_Unmarshal Marshal
               (mkBody (unsplit rest) fin eag)) = Some following
    /\ emitted (chat_v2.resolve json_Unmarshal Marshal (mkBody cs fin eag))
       = Some (concat (map (line_out (v2_on_line json_Unmarshal Marshal)) ls)
               ++ "tool: null" :: following).
Proof.
  intros Hc Hcat Hl Hgo HU Hfin Hev Htc.
  destruct (v2_emitted_returns json_Unmarshal Marshal
              (mkBody (unsplit rest) fin eag)) as [following Hf].
  exists following. split; [exact Hf|].
  rewrite (v2_at_line _ _ cs ls l rest fin eag Hc Hcat Hl Hgo).
  unfold v2_on_line at 2. rewrite HU, Hfin, Hev, Htc, Hf. reflexivity.
Qed.

Lemma missing_tool_calls_sent_as_null_witness :
  exists following,
    emitted (chat_v2.resolve chat_v2.Unmarshal Marshal
               (mkBody (unsplit (wire "{'event_type':'text-generation','text':'a'}|"))
                       EOF false)) = Some following
    /\ emitted (chat_v2.resolve chat_v2.Unmarshal Marshal
                  (mkBody [wire "{'event_type':'tool-calls-generation','text':'x'}|{'event_type':'text-generation','text':'a'}|"]
                          EOF false))
       = Some ([] ++ "tool: null" :: following).
Proof.
  apply (missing_tool_calls_sent_as_null chat_v2.Unmarshal
           [wire "{'event_type':'tool-calls-generation','text':'x'}|{'event_type':'text-generation','text':'a'}|"]
           []
           (wire "{'event_type':'tool-calls-generation','text':'x'}")
           (wire "{'event_type':'text-generation','text':'a'}|")
           EOF false
           (chat_v2.mkBlock false "tool-calls-generation" "" "x" "" None)).
  - repeat constructor; discriminate.
  - vm_compute. reflexivity.
  - repeat constructor.
  - constructor.
  - vm_compute. reflexivity.
  - reflexivity.
  - reflexivity.
  - reflexivity.
Defined.

(** A tool-calls line without tool calls, end to end. *)
Example tool_null :
  chat_v2.resolve chat_v2.Unmarshal Marshal
    (mkBody [wire "{'event_type':'tool-calls-generation','text':'x'}|{'event_type':'text-generation','text':'a'}|"]
            EOF false)
  = Some [Send "tool: null"; Send "text: a"; CloseBody; CloseChan].
Proof. vm_compute. reflexivity. Qed.

Lemma at_read_error_bytes fin buf :
  buf <> [] ->
  at_read_error fin buf = end_out fin ++ ["text: " +:+ string_of_list_ascii buf].
Proof.
  intros Hne. unfold at_read_error, end_out.
  destruct buf; [contradiction|reflexivity].
Qed.

(** X19. When the last line has no LF to end it (and no CR in it), the
    branch that sends the accumulated bytes as a ["text: "] event is taken
    in one case only: the length of the line is a multiple of the reader's
    buffer size, 4096, and the body reports its end on a read of its own.
    Then [resolve] sends the body's error unless it is [io.EOF], and the
    whole line after ["text: "]. In every other case the line goes to the
    decoder whole, like a line that ends in LF. Both revisions. *)
Theorem salvage_only_at_full_buffer
    (cs ls : list bytes) (tail : bytes) (fin : error) (eag : bool) :
  Forall (fun c => c <> []) cs ->
  concat cs = terminated ls ++ tail ->
  Forall (fun l => IndexByte l LF = None) (tail :: ls) ->
  IndexByte tail CR = None ->
  tail <> [] ->
  (forall json_Unmarshal json_Marshal,
     emitted (chat_v2.resolve json_Unmarshal json_Marshal (mkBody cs fin eag))
     = Some (lines_then (v2_on_line json_Unmarshal json_Marshal) ls
               (if (length tail mod defaultBufSize =? 0) && negb eag
                then end_out fin ++ ["text: " +:+ string_of_list_ascii tail]
                else last_line_out (v2_on_line json_Unmarshal json_Marshal)
                       fin tail)))
  /\ (forall json_Unmarshal,
        emitted (chat_v1.resolve json_Unmarshal (mkBody cs fin eag))
        = Some (lines_then (v1_on_line json_Unmarshal) ls
                  (if (length tail mod defaultBufSize =? 0) && negb eag
                   then end_out fin
                        ++ ["text: " +:+ string_of_list_ascii tail]
                   else last_line_out (v1_on_line json_Unmarshal) fin tail))).
Proof.
  intros Hc Hcat Hl Hcr Hne. split; intros.
  - rewrite v2_emitted_run. cbn [chunks final eager].
    rewrite (run_unterminated_long _ ls tail cs fin eag Hc Hcat Hl Hcr Hne).
    rewrite (at_read_error_bytes fin tail Hne). reflexivity.
  - rewrite v1_emitted_run. cbn [chunks final eager].
    rewrite (run_unterminated_long _ ls tail cs fin eag Hc Hcat Hl Hcr Hne).
    rewrite (at_read_error_bytes fin tail Hne). reflexivity.
Qed.

Lemma salvage_only_at_full_buffer_witness :
  emitted (chat_v2.resolve chat_v2.Unmarshal Marshal
             (mkBody [wire "{'event_type':'text-generation','text':'a'}|"
                      ++ repeat "a"%char 4500;
                      repeat "a"%char 3692]
                     (Err "connection reset") false))
  = Some (lines_then (v2_on_line chat_v2.Unmarshal Marshal)
            [wire "{'event_type':'text-generation','text':'a'}"]
            (if (length (repeat "a"%char (2 * defaultBufSize)) mod defaultBufSize =? 0)
                && negb false
             then end_out (Err "connection reset")
                  ++ ["text: " +:+ string_of_list_ascii (repeat "a"%char (2 * defaultBufSize))]
             else last_line_out (v2_on_line chat_v2.Unmarshal Marshal)
                    (Err "connection reset") (repeat "a"%char (2 * defaultBufSize)))).
Proof.
  destruct (salvage_only_at_full_buffer
              [wire "{'event_type':'text-generation','text':'a'}|"
               ++ repeat "a"%char 4500;
               repeat "a"%char 3692]
              [wire "{'event_type':'text-generation','text':'a'}"]
              (repeat "a"%char (2 * defaultBufSize))
              (Err "connection reset") false) as [H2 _].
  - repeat constructor; discriminate.
  - vm_compute. reflexivity.
  - repeat constructor; vm_compute; reflexivity.
  - vm_compute. reflexivity.
  - discriminate.
  - apply H2.
Defined.

(** A last line of 4097 bytes is decoded, one of 4096 bytes is sent as it
    is when the end of the body comes on a read of its own. *)
Example tail_of_4097_bytes :
  emitted (chat_v2.resolve chat_v2.Unmarshal Marshal
             (mkBody [repeat "a"%char 4097] EOF false))
  = Some ["error: invalid character 'a' looking for beginning of value"].
Proof. vm_compute. reflexivity. Qed.

End streams.

(** * More on the payload builder *)

Section payload_keys.

Lemma v2_makePayload_dom (c : chat_v2.Chat) pMessages system message isChat
    toolObject :
  dom (fst (chat_v2.makePayload c pMessages system message isChat toolObject))
  = (if isChat
     then chat_keys
          ∪ key_if (0 <? chat_v2.seed c)%Z "seed"
          ∪ key_if (negb (String.eqb (chat_v2.safety c) "")) "safety_mode"
     else generate_keys)
    ∪ key_if (0 <? length (chat_v2.stopSequences c)) "stop_sequences".
Proof.
  unfold chat_v2.makePayload. cbn [fst].
  destruct (SFltb (chat_v2.temperature c) (S754_zero false));
    cbn [chat_v2.set_temperature chat_v2.seed chat_v2.safety
         chat_v2.stopSequences];
    destruct isChat;
    destruct (0 <? length (chat_v2.stopSequences c));
    try destruct (0 <? chat_v2.seed c)%Z;
    try destruct (negb (String.eqb (chat_v2.safety c) ""));
    unfold key_if, chat_keys, generate_keys;
    rewrite ?dom_insert_L, dom_empty_L; cbn [list_to_set foldr];
    set_solver.
Qed.

Lemma v1_makePayload_dom (c : chat_v1.Chat) pMessages system message :
  dom (fst (chat_v1.makePayload c pMessages system message))
  = v1_keys ∪ key_if (0 <? chat_v1.seed c)%Z "seed".
Proof.
  unfold chat_v1.makePayload. cbn [fst].
  destruct (SFltb (chat_v1.temperature c) (S754_zero false));
    cbn [chat_v1.set_temperature chat_v1.seed];
    destruct (0 <? chat_v1.seed c)%Z;
    unfold key_if, v1_keys;
    rewrite ?dom_insert_L, dom_empty_L; cbn [list_to_set foldr];
    set_solver.
Qed.

(** X7. The keys of a payload are those of its mode and no other: the ten
    chat keys or the seven completion keys, and of the optional ones
    ["seed"] only in chat mode with a seed above 0, ["safety_mode"] only in
    chat mode with a safety mode set, ["stop_sequences"] in either mode
    only with a stop sequence. A completion payload never has a seed, tools
    or a history. The first revision: the eight keys, and ["seed"] with a
    seed above 0. *)
Theorem makePayload_keys :
  (forall (c : chat_v2.Chat) pMessages system message isChat toolObject,
     dom (fst (chat_v2.makePayload c pMessages system message isChat
                 toolObject))
     = (if isChat
        then chat_keys
             ∪ key_if (0 <? chat_v2.seed c)%Z "seed"
             ∪ key_if (negb (String.eqb (chat_v2.safety c) "")) "safety_mode"
        else generate_keys)
       ∪ key_if (0 <? length (chat_v2.stopSequences c)) "stop_sequences")
  /\ (forall (c : chat_v1.Chat) pMessages system message,
        dom (fst (chat_v1.makePayload c pMessages system message))
        = v1_keys ∪ key_if (0 <? chat_v1.seed c)%Z "seed").
Proof.
  split; intros; [apply v2_makePayload_dom|apply v1_makePayload_dom].
Qed.

End payload_keys.

Section setters.
Import chat_v2.

Lemma configure_snoc c calls s :
  configure c (calls ++ [s]) = call_setter (configure c calls) s.
Proof. unfold configure. rewrite fold_left_app. reflexivity. Qed.

Lemma last_accepted_snoc {A} (accepts : A -> bool) args x :
  last_accepted accepts (args ++ [x])
  = if accepts x then Some x else last_accepted accepts args.
Proof.
  unfold last_accepted. rewrite filter_app, last_app.
  rewrite filter_cons, filter_nil.
  destruct (accepts x) eqn:E.
  - rewrite decide_True by reflexivity. reflexivity.
  - rewrite decide_False by discriminate. reflexivity.
Qed.

Lemma last_accepted_accepts {A} (accepts : A -> bool) args x :
  last_accepted accepts args = Some x -> accepts x = true.
Proof.
  unfold last_accepted. intros H. apply last_Some_elem_of in H.
  apply list_elem_of_filter in H as [H _]. exact H.
Qed.

#[local] Ltac by_last_call c calls :=
  revert c; induction calls as [|s calls IH] using rev_ind; intros c;
    [reflexivity|];
  rewrite configure_snoc; specialize (IH c);
  destruct s as [p|n|n|n|sf|l|cl]; cbn [call_setter];
  unfold seeds, max_tokens_args, top_k_args, stop_sequences_args;
  rewrite omap_app; cbn [omap list_omap];
  rewrite ?app_nil_r, ?last_accepted_snoc;
  unfold Proxies, MaxTokens, TopK, Seed, Safety, StopSequences, Client,
         at_least_1, non_empty;
  destruct (configure c calls);
  cbn [seed maxTokens topK stopSequences] in *;
  repeat match goal with
         | |- context [(?a <? ?b)%Z] => destruct (Z.ltb_spec a b)
         | |- context [(?a <=? ?b)%Z] => destruct (Z.leb_spec a b)
         | |- context [length ?x =? 0] => destruct x; cbn [length Nat.eqb]
         end;
  cbn [seed maxTokens topK stopSequences default from_option id];
  try lia; try exact IH; reflexivity.

Lemma seed_configure c calls :
  seed (configure c calls)
  = default (seed c) (last_accepted at_least_1 (seeds calls)).
Proof. by_last_call c calls. Qed.

Lemma maxTokens_configure c calls :
  maxTokens (configure c calls)
  = default (maxTokens c) (last_accepted at_least_1 (max_tokens_args calls)).
Proof. by_last_call c calls. Qed.

Lemma topK_configure c calls :
  topK (configure c calls)
  = default (topK c) (last_accepted at_least_1 (top_k_args calls)).
Proof. by_last_call c calls. Qed.

Lemma stopSequences_configure c calls :
  stopSequences (configure c calls)
  = default (stopSequences c)
      (last_accepted non_empty (stop_sequences_args calls)).
Proof. by_last_call c calls. Qed.

Lemma configure_untouched c calls :
  temperature (configure c calls) = temperature c
  /\ model (configure c calls) = model c
  /\ token (configure c calls) = token c
  /\ isChat (configure c calls) = isChat c.
Proof.
  revert c; induction calls as [|s calls IH] using rev_ind; intros c;
    [repeat split|].
  rewrite configure_snoc. specialize (IH c).
  destruct s as [p|n|n|n|sf|l|cl]; cbn [call_setter];
    unfold Proxies, MaxTokens, TopK, Seed, Safety, StopSequences, Client;
    destruct (configure c calls);
    repeat case_scrutinee; exact IH.
Qed.

(** The optional and the configured keys of a payload. *)
Lemma v2_makePayload_seed c pMessages system message isChat toolObject :
  fst (makePayload c pMessages system message isChat toolObject) !! "seed"
  = if isChat && (0 <? seed c)%Z then Some (VInt (seed c)) else None.
Proof.
  unfold makePayload. cbn [fst].
  destruct (SFltb (temperature c) (S754_zero false));
    cbn [set_temperature seed safety stopSequences];
    repeat case_scrutinee; simplify_map_eq; reflexivity.
Qed.

Lemma v2_makePayload_stop_sequences c pMessages system message isChat
    toolObject :
  fst (makePayload c pMessages system message isChat toolObject)
    !! "stop_sequences"
  = if 0 <? length (stopSequences c) then Some (VStrings (stopSequences c))
    else None.
Proof.
  unfold makePayload. cbn [fst].
  destruct (SFltb (temperature c) (S754_zero false));
    cbn [set_temperature seed safety stopSequences];
    repeat case_scrutinee; simplify_map_eq; reflexivity.
Qed.

Lemma v2_makePayload_generate c pMessages system message toolObject :
  fst (makePayload c pMessages system message false toolObject) !! "k"
  = Some (VInt (topK c))
  /\ fst (makePayload c pMessages system message false toolObject)
       !! "max_tokens"
     = Some (VInt (maxTokens c)).
Proof.
  unfold makePayload. cbn [fst].
  destruct (SFltb (temperature c) (S754_zero false));
    cbn [set_temperature topK maxTokens stopSequences];
    repeat case_scrutinee; simplify_map_eq; split; reflexivity.
Qed.

(** X8. A builder made by [New] and configured by any sequence of setter
    calls: in chat mode the payload has the seed of the last [Seed] call
    with a seed of at least 1, and no ["seed"] key when there was none; in
    completion mode it has the top-k and the token budget of the last
    [TopK] and [MaxTokens] calls with a value of at least 1, the defaults
    40 and 4096 when there was none, and never a seed; in both modes the
    stop sequences of the last [StopSequences] call with a non-empty list,
    and no ["stop_sequences"] key when there was none. Calls with a value
    below 1, or with an empty list, count for nothing. *)
Theorem payload_of_configured_builder
    (token : string) (t : float32) (model : string) (calls : list setter)
    (pMessages : list Message) (system message : string)
    (toolObject : ToolObject) :
  (let c := configure (New token t model true) calls in
   let payload :=
     fst (makePayload c pMessages system message (isChat c) toolObject) in
   payload !! "seed" = VInt <$> last_accepted at_least_1 (seeds calls)
   /\ payload !! "stop_sequences"
      = VStrings <$> last_accepted non_empty (stop_sequences_args calls))
  /\ (let c := configure (New token t model false) calls in
      let payload :=
        fst (makePayload c pMessages system message (isChat c) toolObject) in
      payload !! "k"
      = Some (VInt (default 40%Z
                      (last_accepted at_least_1 (top_k_args calls))))
      /\ payload !! "max_tokens"
         = Some (VInt (default 4096%Z
                         (last_accepted at_least_1 (max_tokens_args calls))))
      /\ payload !! "seed" = None
      /\ payload !! "stop_sequences"
         = VStrings <$> last_accepted non_empty (stop_sequences_args calls)).
Proof.
  assert (Hstop : forall c0 isC,
            stopSequences c0 = [] ->
            fst (makePayload (configure c0 calls) pMessages system message
                   isC toolObject) !! "stop_sequences"
            = VStrings <$> last_accepted non_empty (stop_sequences_args calls)).
  { intros c0 isC H0. rewrite v2_makePayload_stop_sequences.
    rewrite stopSequences_configure, H0.
    destruct (last_accepted non_empty (stop_sequences_args calls)) as [l|] eqn:E;
      [|reflexivity].
    apply last_accepted_accepts in E. destruct l; [discriminate|reflexivity]. }
  split; cbv zeta.
  - destruct (configure_untouched (New token t model true) calls)
      as (_ & _ & _ & ->). cbn [New isChat].
    split; [|apply Hstop; reflexivity].
    rewrite v2_makePayload_seed, seed_configure. cbn [New seed andb].
    destruct (last_accepted at_least_1 (seeds calls)) as [n|] eqn:E;
      [|reflexivity].
    apply last_accepted_accepts in E. unfold at_least_1 in E.
    cbn [default from_option id fmap option_fmap option_map].
    destruct (Z.ltb_spec 0 n), (Z.leb_spec 1 n);
      try discriminate; try lia; reflexivity.
  - destruct (configure_untouched (New token t model false) calls)
      as (_ & _ & _ & ->). cbn [New isChat].
    destruct (v2_makePayload_generate
                (configure (New token t model false) calls)
                pMessages system message toolObject) as [-> ->].
    rewrite topK_configure, maxTokens_configure, v2_makePayload_seed.
    repeat split. apply Hstop; reflexivity.
Qed.

(** The last accepted call wins, and the rejected ones leave no trace. *)
Example configured_chat_payload :
  let c := configure (New "token" f32_0_75 "command-r" true)
             [SetSeed 7; SetStopSequences ["END"]; SetSeed 0;
              SetStopSequences []; SetMaxTokens (-3)] in
  let payload :=
    fst (makePayload c [] "system" "hello" (isChat c) (mkToolObject [] [])) in
  payload !! "seed" = Some (VInt 7)
  /\ payload !! "stop_sequences" = Some (VStrings ["END"])
  /\ maxTokens c = 4096%Z.
Proof. vm_compute. repeat split. Qed.

(** X9. What no sequence of setter calls does: it does not change the
    temperature, the model, the token or the mode that the builder has; it
    does not bring the token budget or the top-k below 1 once they are at
    least 1; it does not take away a seed of at least 1, nor the stop
    sequences once there are some. *)
Theorem setters_keep_configuration (c : Chat) (calls : list setter) :
  temperature (configure c calls) = temperature c
  /\ model (configure c calls) = model c
  /\ token (configure c calls) = token c
  /\ isChat (configure c calls) = isChat c
  /\ ((1 <= maxTokens c)%Z -> (1 <= maxTokens (configure c calls))%Z)
  /\ ((1 <= topK c)%Z -> (1 <= topK (configure c calls))%Z)
  /\ ((1 <= seed c)%Z -> (1 <= seed (configure c calls))%Z)
  /\ (stopSequences c <> [] -> stopSequences (configure c calls) <> []).
Proof.
  destruct (configure_untouched c calls) as (H1 & H2 & H3 & H4).
  repeat (split; [assumption|]).
  rewrite maxTokens_configure, topK_configure, seed_configure,
          stopSequences_configure.
  repeat split; intros H;
    match goal with
    | |- context [last_accepted ?p ?l] =>
        destruct (last_accepted p l) as [x|] eqn:E; [|exact H];
        apply last_accepted_accepts in E
    end;
    cbn [default from_option id]; unfold at_least_1, non_empty in E.
  1-3: apply Z.leb_le; exact E.
  destruct x; [discriminate E|discriminate].
Qed.

Lemma setters_keep_configuration_witness :
  (1 <= seed (configure (Seed (New "token" f32_0_75 "command-r" true) 7)
                [SetSeed 0; SetSeed (-1); SetMaxTokens 0; SetTopK 0;
                 SetStopSequences []]))%Z
  /\ (1 <= maxTokens (configure (Seed (New "token" f32_0_75 "command-r" true) 7)
                        [SetSeed 0; SetSeed (-1); SetMaxTokens 0; SetTopK 0;
                         SetStopSequences []]))%Z.
Proof.
  destruct (setters_keep_configuration
              (Seed (New "token" f32_0_75 "command-r" true) 7)
              [SetSeed 0; SetSeed (-1); SetMaxTokens 0; SetTopK 0;
               SetStopSequences []])
    as (_ & _ & _ & _ & Hmax & _ & Hseed & _).
  split; [apply Hseed|apply Hmax]; vm_compute; discriminate.
Defined.

Lemma safety_configure c calls :
  safety (configure c calls) = default (safety c) (last (safety_args calls)).
Proof.
  revert c; induction calls as [|s calls IH] using rev_ind; intros c;
    [reflexivity|].
  rewrite configure_snoc. specialize (IH c).
  unfold safety_args. rewrite omap_app. fold (safety_args calls).
  destruct s as [p|n|n|n|sf|l|cl]; cbn [call_setter omap list_omap];
    rewrite ?app_nil_r, ?last_snoc;
    unfold Proxies, MaxTokens, TopK, Seed, Safety, StopSequences, Client;
    destruct (configure c calls); cbn [safety] in *;
    repeat case_scrutinee; cbn [safety default from_option id];
    try exact IH; reflexivity.
Qed.

Lemma v2_makePayload_safety_mode c pMessages system message isChat
    toolObject :
  fst (makePayload c pMessages system message isChat toolObject)
    !! "safety_mode"
  = if isChat && negb (String.eqb (safety c) "")
    then Some (VString (safety c)) else None.
Proof.
  unfold makePayload. cbn [fst].
  destruct (SFltb (temperature c) (S754_zero false));
    cbn [set_temperature seed safety stopSequences];
    repeat case_scrutinee; simplify_map_eq; reflexivity.
Qed.

(** X21. The safety mode of a chat payload is that of the last [Safety]
    call, whatever it is: unlike a seed or the stop sequences it can be
    taken back, a last call with the empty string leaving the payload
    without the ["safety_mode"] key, as does no call at all. *)
Theorem safety_mode_of_last_call
    (token : string) (t : float32) (model : string) (calls : list setter)
    (pMessages : list Message) (system message : string)
    (toolObject : ToolObject) :
  let c := configure (New token t model true) calls in
  fst (makePayload c pMessages system message (isChat c) toolObject)
    !! "safety_mode"
  = match last (safety_args calls) with
    | Some s => if String.eqb s "" then None else Some (VString s)
    | None => None
    end.
Proof.
  cbv zeta.
  destruct (configure_untouched (New token t model true) calls)
    as (_ & _ & _ & ->). cbn [New isChat].
  rewrite v2_makePayload_safety_mode, safety_configure. cbn [New safety andb].
  destruct (last (safety_args calls)) as [s|]; cbn [default from_option id];
    [|reflexivity].
  destruct (String.eqb s ""); reflexivity.
Qed.

(** A safety mode set and taken back. *)
Example safety_taken_back :
  let c := configure (New "token" f32_0_75 "command-r" true)
             [SetSafety "STRICT"; SetSeed 3; SetSafety ""] in
  dom (fst (makePayload c [] "system" "hello" (isChat c) (mkToolObject [] [])))
  = chat_keys ∪ {[ "seed" ]}.
Proof. apply (bool_decide_unpack _). vm_compute. exact I. Qed.

End setters.

Section payload_again.

(** X10. A builder that [makePayload] has been called on gives, on every
    later call, the payload and the builder that the original builder
    would give: the substitution of the default temperature happens once
    and changes nothing that a later call builds. Both revisions. *)
Theorem makePayload_after_makePayload :
  (forall (c : chat_v2.Chat) pMessages system message isChat toolObject
          pMessages' system' message' isChat' toolObject',
     chat_v2.makePayload
       (snd (chat_v2.makePayload c pMessages system message isChat toolObject))
       pMessages' system' message' isChat' toolObject'
     = chat_v2.makePayload c pMessages' system' message' isChat' toolObject')
  /\ (forall (c : chat_v1.Chat) pMessages system message
             pMessages' system' message',
        chat_v1.makePayload
          (snd (chat_v1.makePayload c pMessages system message))
          pMessages' system' message'
        = chat_v1.makePayload c pMessages' system' message').
Proof.
  split; intros.
  - rewrite v2_makePayload_builder. unfold negative.
    destruct (SFltb (chat_v2.temperature c) (S754_zero false)) eqn:E;
      [|reflexivity].
    unfold chat_v2.makePayload. rewrite E.
    cbn [chat_v2.set_temperature chat_v2.temperature].
    replace (SFltb chat_v2.f32_0_95 (S754_zero false)) with false
      by reflexivity.
    reflexivity.
  - rewrite v1_makePayload_builder. unfold negative.
    destruct (SFltb (chat_v1.temperature c) (S754_zero false)) eqn:E;
      [|reflexivity].
    unfold chat_v1.makePayload. rewrite E.
    cbn [chat_v1.set_temperature chat_v1.temperature].
    replace (SFltb chat_v1.f32_0_95 (S754_zero false)) with false
      by reflexivity.
    reflexivity.
Qed.

End payload_again.

(** * MergeMessages *)

Section merge_messages.
Import chat_v2.

Lemma string_append_assoc (a b c : string) : (a +:+ b) +:+ c = a +:+ (b +:+ c).
Proof.
  induction a as [|x a IH]; [reflexivity|].
  change (String.String x ((a +:+ b) +:+ c) = String.String x (a +:+ (b +:+ c))).
  f_equal. exact IH.
Qed.

Lemma string_append_nil_r (a : string) : a +:+ "" = a.
Proof.
  induction a as [|x a IH]; [reflexivity|].
  change (String.String x (a +:+ "") = String.String x a).
  f_equal. exact IH.
Qed.

(** The loop adds one segment for each message, and the role it keeps is
    that of the message before. *)
Lemma MergeMessages_loop_segments messages : forall lastRole buf,
  MergeMessages_loop lastRole buf messages
  = buf +:+ segments lastRole messages.
Proof.
  induction messages as [|m ms IH]; intros lastRole buf; cbn [MergeMessages_loop segments].
  - symmetry. apply string_append_nil_r.
  - unfold segment, role, content.
    destruct (String.eqb_spec lastRole ""),
             (String.eqb_spec lastRole (at_key m "role")),
             (String.eqb_spec (at_key m "role") "");
      cbn [orb negb]; try congruence;
      rewrite IH, string_append_assoc; try reflexivity.
    subst lastRole. reflexivity.
Qed.

Lemma segment_starts_with_nl prev m :
  exists rest, segment prev m = String.String LF rest.
Proof.
  unfold segment.
  destruct (String.eqb (role m) "" || negb (String.eqb prev (role m)));
    eexists; reflexivity.
Qed.

Lemma segments_app prev ms1 ms2 :
  segments prev (ms1 ++ ms2)
  = segments prev ms1 +:+ segments (last_role prev ms1) ms2.
Proof.
  revert prev. induction ms1 as [|m ms1 IH]; intros prev; [reflexivity|].
  cbn [app segments]. rewrite IH, string_append_assoc. f_equal. f_equal.
  unfold last_role. destruct ms1 as [|m' ms1']; [reflexivity|].
  change (last (m :: m' :: ms1')) with (last (m' :: ms1')).
  destruct (last (m' :: ms1')) eqn:E; [reflexivity|].
  apply last_None in E. discriminate.
Qed.

Lemma MergeMessages_segments (messages : list (gmap string string)) :
  MergeMessages messages = segments "" messages.
Proof.
  unfold MergeMessages. destruct messages as [|m ms]; [reflexivity|].
  cbn [length Nat.eqb]. rewrite MergeMessages_loop_segments. reflexivity.
Qed.

(** X11. [MergeMessages] writes the messages in order, each after a
    newline, and puts the role and a colon before the content of a message
    exactly when the role of the message is empty or is not the role of
    the message before it; the first message always has them. *)
Theorem MergeMessages_by_segments (messages : list (gmap string string)) :
  MergeMessages messages = segments "" messages
  /\ forall prev before message after,
       messages = before ++ message :: after ->
       prev = last_role "" before ->
       exists text,
         MergeMessages messages
         = segments "" before +:+ nl +:+ text +:+ content message
           +:+ segments (role message) after
         /\ text = if String.eqb (role message) ""
                      || negb (String.eqb prev (role message))
                   then role message +:+ ": " else "".
Proof.
  split; [apply MergeMessages_segments|].
  intros prev before message after -> ->.
  rewrite MergeMessages_segments, segments_app. cbn [segments].
  unfold segment.
  destruct (String.eqb (role message) ""
            || negb (String.eqb (last_role "" before) (role message)));
    eexists; (split; [|reflexivity]);
    rewrite ?string_append_assoc; reflexivity.
Qed.

Lemma MergeMessages_by_segments_witness :
  exists text,
    MergeMessages [message_of "user" "hi"; message_of "bot" "hello";
                   message_of "bot" "how are you?"]
    = segments "" [message_of "user" "hi"; message_of "bot" "hello"]
      +:+ nl +:+ text +:+ content (message_of "bot" "how are you?")
      +:+ segments (role (message_of "bot" "how are you?")) []
    /\ text
       = if String.eqb (role (message_of "bot" "how are you?")) ""
            || negb (String.eqb
                       (last_role "" [message_of "user" "hi";
                                      message_of "bot" "hello"])
                       (role (message_of "bot" "how are you?")))
         then role (message_of "bot" "how are you?") +:+ ": " else "".
Proof.
  destruct (MergeMessages_by_segments
              [message_of "user" "hi"; message_of "bot" "hello";
               message_of "bot" "how are you?"]) as [_ H].
  apply (H _ [message_of "user" "hi"; message_of "bot" "hello"]
           (message_of "bot" "how are you?") []); reflexivity.
Defined.

(** X12. The text is empty for the empty list only: for every other list
    it starts with a newline, which is not taken off. *)
Theorem MergeMessages_empty_iff (messages : list (gmap string string)) :
  (MergeMessages messages = "" <-> messages = [])
  /\ (messages <> [] ->
      exists rest, MergeMessages messages = String.String LF rest).
Proof.
  assert (H : messages <> [] ->
              exists rest, MergeMessages messages = String.String LF rest).
  { intros Hne. destruct messages as [|m ms]; [contradiction|].
    unfold MergeMessages. cbn [length Nat.eqb].
    rewrite MergeMessages_loop_segments. cbn [segments].
    destruct (segment_starts_with_nl "" m) as [rest ->].
    eexists. reflexivity. }
  split; [|exact H]. split.
  - intros Hm. destruct messages as [|m ms]; [reflexivity|].
    destruct H as [rest Hr]; [discriminate|]. rewrite Hr in Hm. discriminate.
  - intros ->. reflexivity.
Qed.

Lemma MergeMessages_empty_iff_witness :
  exists rest,
    MergeMessages [message_of "user" "hi"] = String.String LF rest.
Proof.
  destruct (MergeMessages_empty_iff [message_of "user" "hi"]) as [_ H].
  apply H. discriminate.
Defined.

(** X13. Messages that all have the same role, which is not empty, come
    out under one heading: the role, then the contents, one to a line. *)
Theorem MergeMessages_same_role
    (r : string) (m : gmap string string) (ms : list (gmap string string)) :
  r <> "" ->
  Forall (fun m' => role m' = r) (m :: ms) ->
  MergeMessages (m :: ms)
  = nl +:+ r +:+ ": " +:+ String.concat nl (map content (m :: ms)).
Proof.
  intros Hr Hall. rewrite MergeMessages_segments.
  inversion Hall as [|? ? Hm Hms]; subst. cbn [segments].
  unfold segment at 1.
  destruct (String.eqb_spec "" (role m)) as [E|_];
    [symmetry in E; contradiction|].
  rewrite orb_true_r, !string_append_assoc. do 3 f_equal.
  revert m Hr Hall Hms.
  induction ms as [|m' ms IH]; intros m Hr Hall Hms.
  - cbn [segments map String.concat]. apply string_append_nil_r.
  - inversion Hms as [|? ? Hm' Hms']; subst.
    cbn [segments map String.concat].
    change (String.concat nl (content m' :: map content ms))
      with (String.concat nl (map content (m' :: ms))).
    f_equal. unfold segment at 1. rewrite Hm'.
    destruct (String.eqb_spec (role m) ""); [contradiction|].
    rewrite String.eqb_refl. cbn [orb negb].
    rewrite string_append_assoc. f_equal.
    rewrite <- Hm' at 1.
    apply IH; rewrite Hm'; assumption.
Qed.

Lemma MergeMessages_same_role_witness :
  MergeMessages [message_of "user" "one"; message_of "user" "two";
                 message_of "user" "three"]
  = nl +:+ "user" +:+ ": "
    +:+ String.concat nl
          (map content [message_of "user" "one"; message_of "user" "two";
                        message_of "user" "three"]).
Proof.
  apply (MergeMessages_same_role "user").
  - discriminate.
  - repeat constructor.
Defined.

(** X14. Messages without a role (no ["role"] key, or an empty one) are
    never put together: each one comes out with the empty heading, a colon
    and a blank, before its content. *)
Theorem MergeMessages_no_role (messages : list (gmap string string)) :
  Forall (fun m => role m = "") messages ->
  MergeMessages messages
  = String.concat "" (map (fun m => nl +:+ ": " +:+ content m) messages).
Proof.
  intros Hall. rewrite MergeMessages_segments. generalize "" at 1.
  induction Hall as [|m ms Hm Hms IH]; intros prev; [reflexivity|].
  cbn [segments map]. rewrite Hm, IH.
  unfold segment. rewrite Hm. cbn [String.eqb orb].
  destruct ms; [cbn [map String.concat]; apply string_append_nil_r|].
  reflexivity.
Qed.

Lemma MergeMessages_no_role_witness :
  MergeMessages [<["content" := "one"]> ∅; <["content" := "two"]> ∅]
  = String.concat ""
      (map (fun m => nl +:+ ": " +:+ content m)
           [<["content" := "one"]> ∅; <["content" := "two"]> ∅]).
Proof.
  apply MergeMessages_no_role. repeat constructor.
Defined.

(** X15. The text of a longer list is the text of its first part followed
    by the segments of the rest, which depend on the first part through
    the role of its last message only. *)
Theorem MergeMessages_app (ms1 ms2 : list (gmap string string)) :
  MergeMessages (ms1 ++ ms2)
  = MergeMessages ms1 +:+ segments (last_role "" ms1) ms2.
Proof. rewrite !MergeMessages_segments. apply segments_app. Qed.

(** Two users' turns, the second one in two messages. *)
Example merge_two_roles :
  MergeMessages [message_of "user" "hi"; message_of "bot" "hello";
                 message_of "bot" "how are you?"]
  = nl +:+ "user: hi" +:+ nl +:+ "bot: hello" +:+ nl +:+ "how are you?".
Proof. vm_compute. reflexivity. Qed.

End merge_messages.

(** * Reply *)

Section reply.
Import io json.

(** X16. [Reply] of the revision with tool calls sends a chat payload to
    [/v1/chat] and a completion payload to [/v1/generate], the builder's
    mode choosing both: the one URL of the request and the keys of its one
    body always go together. The request carries the token as a bearer
    authorization. *)
Theorem Reply_endpoint_matches_mode
    (json_Unmarshal : bytes -> result chat_v2.block)
    (json_Marshal : option (list any) -> result bytes)
    (context : Type) (c : chat_v2.Chat) (ctx : context)
    (pMessages : list chat_v2.Message) (system message : string)
    (toolObject : chat_v2.ToolObject) :
  exists (calls : list (chat_v2.emit.call context))
         (payload : gmap string chat_v2.pvalue) (url : string),
    (forall DoC,
       fst (chat_v2.Reply json_Unmarshal json_Marshal context DoC c ctx
              pMessages system message toolObject)
       = match DoC (chat_v2.client c) calls
                   [chat_v2.emit.Status 200; chat_v2.emit.IsSTREAM] with
         | Fail err => Fail err
         | Ok response =>
             Ok (chat_v2.resolve json_Unmarshal json_Marshal
                   (http.Body response))
         end)
    /\ (forall u, In (chat_v2.emit.URL u) calls <-> u = url)
    /\ (forall p, In (chat_v2.emit.Body p) calls <-> p = payload)
    /\ In (chat_v2.emit.Header "Authorization"
             ("Bearer " +:+ chat_v2.token c)) calls
    /\ (if chat_v2.isChat c
        then url = "https://api.cohere.com/v1/chat"
             /\ chat_keys ⊆ dom payload /\ "prompt" ∉ dom payload
        else url = "https://api.cohere.com/v1/generate"
             /\ generate_keys ⊆ dom payload /\ "message" ∉ dom payload).
Proof.
  unfold chat_v2.Reply.
  destruct (chat_v2.makePayload c pMessages system message
              (chat_v2.isChat c) toolObject) as [payload c'] eqn:E.
  assert (Hb : c' = snd (chat_v2.makePayload c pMessages system message
                           (chat_v2.isChat c) toolObject))
    by (rewrite E; reflexivity).
  assert (Hp : payload = fst (chat_v2.makePayload c pMessages system message
                                (chat_v2.isChat c) toolObject))
    by (rewrite E; reflexivity).
  rewrite v2_makePayload_builder in Hb.
  assert (Hsame : chat_v2.isChat c' = chat_v2.isChat c
                  /\ chat_v2.token c' = chat_v2.token c
                  /\ chat_v2.client c' = chat_v2.client c
                  /\ chat_v2.proxies c' = chat_v2.proxies c).
  { rewrite Hb. destruct (negative (chat_v2.temperature c));
      repeat split. }
  destruct Hsame as (Hic & Htok & Hcl & Hpr). rewrite Hic, Htok, Hcl, Hpr.
  exists [chat_v2.emit.Proxies (chat_v2.proxies c);
          chat_v2.emit.Context ctx;
          chat_v2.emit.URL
            (chat_v2.baseUrl
             +:+ (if negb (chat_v2.isChat c) then "/v1/generate"
                  else "/v1/chat"));
          chat_v2.emit.Method http.MethodPost;
          chat_v2.emit.Header "Authorization"
            ("Bearer " +:+ chat_v2.token c);
          chat_v2.emit.Header "Accept-Language" "en-US,en;q=0.9";
          chat_v2.emit.Header "Origin" "https://dashboard.cohere.com";
          chat_v2.emit.Header "Referer" "https://dashboard.cohere.com/";
          chat_v2.emit.JHeader;
          chat_v2.emit.Body payload],
         payload,
         (chat_v2.baseUrl
          +:+ (if negb (chat_v2.isChat c) then "/v1/generate"
               else "/v1/chat")).
  split.
  { intros DoC. destruct (DoC _ _ _); reflexivity. }
  split.
  { intros u. split.
    - intros Hin. simpl in Hin.
      repeat (destruct Hin as [Hin|Hin]; [congruence|]). contradiction.
    - intros ->. simpl. auto. }
  split.
  { intros p. split.
    - intros Hin. simpl in Hin.
      repeat (destruct Hin as [Hin|Hin]; [congruence|]). contradiction.
    - intros ->. simpl. auto 11. }
  split; [simpl; auto 6|].
  rewrite Hp, v2_makePayload_dom. clear.
  destruct (chat_v2.isChat c); cbn [negb]; (split; [reflexivity|]);
    destruct (0 <? length (chat_v2.stopSequences c));
    try destruct (0 <? chat_v2.seed c)%Z;
    try destruct (negb (String.eqb (chat_v2.safety c) ""));
    split; apply (bool_decide_unpack _); vm_compute; exact I.
Qed.



(** X18. [Reply] leaves the builder as [makePayload] leaves it, whatever
    the transport does: a negative temperature has become 0.95 even when
    the request failed, and nothing else of the builder has changed. Both
    revisions. *)
Theorem Reply_builder (context : Type) (ctx : context)
    (system message : string) :
  (forall json_Unmarshal json_Marshal DoC c pMessages toolObject,
     snd (chat_v2.Reply json_Unmarshal json_Marshal context DoC c ctx
            pMessages system message toolObject)
     = if negative (chat_v2.temperature c)
       then chat_v2.set_temperature c chat_v2.f32_0_95 else c)
  /\ (forall json_Unmarshal Do c pMessages,
        snd (chat_v1.Reply json_Unmarshal context Do c ctx pMessages
               system message)
        = if negative (chat_v1.temperature c)
          then chat_v1.set_temperature c chat_v1.f32_0_95 else c).
Proof.
  split.
  - intros U M DoC c pM tO.
    rewrite <- (v2_makePayload_builder c pM system message
                  (chat_v2.isChat c) tO).
    unfold chat_v2.Reply.
    destruct (chat_v2.makePayload _ _ _ _ _ _) as [payload c'].
    destruct (DoC _ _ _); reflexivity.
  - intros U Do c pM.
    rewrite <- (v1_makePayload_builder c pM system message).
    unfold chat_v1.Reply.
    destruct (chat_v1.makePayload _ _ _ _) as [payload c'].
    destruct (Do _); [|reflexivity].
    destruct (negb _); reflexivity.
Qed.

End reply.

(** * The two revisions side by side *)

Section revisions.
Import io json.
















End revisions.
